(** * fastrouter: the pattern parser, the combined matcher and the dispatcher

    A shallow embedding of [parser.go] and [router.go].  Go strings are
    [string]s (byte level), slices are lists, maps with string keys are
    association lists with unique keys, [nil] pointers are [None].

    The router leans on Go's [regexp] package, so the development starts
    with a model of the part of that package the router calls: compilation
    of an expression to a syntax tree with numbered capture groups and a
    leftmost-first (backtracking order) matcher that reports submatches.
    Of [net/http] there is the response recorder, [http.Error],
    [http.NotFound] and [http.Redirect]; the file server of
    [ServeFiles] is a handler that is given. *)

From Stdlib Require Import String Ascii List Bool Arith Lia ZArith.
Import ListNotations.
Local Open Scope list_scope.
Local Open Scope string_scope.
Local Open Scope nat_scope.

Set Implicit Arguments.

(** ** Strings *)

Module Str.

Fixpoint take (n : nat) (s : string) : string :=
  match n, s with
  | S n', String c s' => String c (take n' s')
  | _, _ => EmptyString
  end.

Fixpoint drop (n : nat) (s : string) : string :=
  match n, s with
  | S n', String _ s' => drop n' s'
  | _, _ => s
  end.

(** [s[len(s)-1]] when [s] is not empty. *)
Fixpoint last (s : string) : option ascii :=
  match s with
  | EmptyString => None
  | String c EmptyString => Some c
  | String _ s' => last s'
  end.

(** [s[:len(s)-1]]. *)
Fixpoint chop (s : string) : string :=
  match s with
  | EmptyString => EmptyString
  | String _ EmptyString => EmptyString
  | String c s' => String c (chop s')
  end.

Definition head (s : string) : option ascii :=
  match s with
  | EmptyString => None
  | String c _ => Some c
  end.

(** [strings.Join]. *)
Fixpoint join (sep : string) (l : list string) : string :=
  match l with
  | [] => EmptyString
  | [x] => x
  | x :: l' => x ++ sep ++ join sep l'
  end.

(** [strings.Contains] for a one byte needle. *)
Fixpoint mem (c : ascii) (s : string) : bool :=
  match s with
  | EmptyString => false
  | String d s' => Ascii.eqb c d || mem c s'
  end.

(** [strings.Contains]. *)
Fixpoint contains (s substr : string) : bool :=
  String.prefix substr s ||
  match s with
  | EmptyString => false
  | String _ s' => contains s' substr
  end.

End Str.

(** ** A model of Go's [regexp] *)

Module Regexp.

(** Syntax trees.  [Set_ neg rs] is a character class given by ranges;
    [Star greedy r] is repetition; [Cap i r] is the [i]-th capture
    group.  [x+] is kept as [Cat x (Star x)], [x?] as an alternative
    with [Eps], counted repetition is unfolded. *)
Inductive regex : Type :=
| Eps
| Lit (c : ascii)
| Set_ (neg : bool) (rs : list (ascii * ascii))
| Bol
| Eol
| Cat (r1 r2 : regex)
| Alt (r1 r2 : regex)
| Star (greedy : bool) (r : regex)
| Cap (i : nat) (r : regex).

Record t : Type := mk { prog : regex; numSubexp : nat }.

Definition in_range (c : ascii) (r : ascii * ascii) : bool :=
  ((nat_of_ascii (fst r) <=? nat_of_ascii c) && (nat_of_ascii c <=? nat_of_ascii (snd r))).

Definition in_set (neg : bool) (rs : list (ascii * ascii)) (c : ascii) : bool :=
  xorb neg (existsb (in_range c) rs).

(** *** Matching *)

Definition caps := list (option string).

Fixpoint set_cap (i : nat) (v : string) (c : caps) : caps :=
  match i, c with
  | _, [] => []
  | O, _ :: c' => Some v :: c'
  | S i', x :: c' => x :: set_cap i' v c'
  end.

(** First success; the second attempt is only evaluated on failure. *)
Notation "x <|> y" :=
  (match x with Some v => Some v | None => y end)
    (at level 60, right associativity, only parsing).

Definition result := option (string * caps).

(** The loop of a starred expression, given how one iteration runs.
    An iteration that consumes nothing is not repeated, so [fuel], the
    length of the text left when the loop starts, is never used up. *)
Definition star_loop (iter : string -> caps -> (string -> caps -> result) -> result)
           (greedy : bool) (k : string -> caps -> result)
  : nat -> string -> caps -> result :=
  fix loop (fuel : nat) (s : string) (c : caps) {struct fuel} : result :=
    match fuel with
    | O => k s c
    | S fuel' =>
        let again (_ : unit) :=
          iter s c (fun s' c' =>
                      if String.length s' <? String.length s
                      then loop fuel' s' c' else None) in
        if greedy then again tt <|> k s c else k s c <|> again tt
    end.

(** [run n r s c k]: match [r] at the front of [s], the rest of a text
    of length [n], with the captures [c] so far, then continue with [k]
    on what is left.  Alternatives are tried in priority order and the
    first success wins, which is the leftmost-first discipline of Go's
    default (non POSIX) expressions. *)
Fixpoint run (n : nat) (r : regex) (s : string) (c : caps)
         (k : string -> caps -> result) {struct r} : result :=
  match r with
  | Eps => k s c
  | Lit a =>
      match s with
      | String b s' => if Ascii.eqb a b then k s' c else None
      | EmptyString => None
      end
  | Set_ neg rs =>
      match s with
      | String b s' => if in_set neg rs b then k s' c else None
      | EmptyString => None
      end
  | Bol => if String.length s =? n then k s c else None
  | Eol => match s with EmptyString => k s c | _ => None end
  | Cat r1 r2 => run n r1 s c (fun s' c' => run n r2 s' c' k)
  | Alt r1 r2 => run n r1 s c k <|> run n r2 s c k
  | Star greedy r1 => star_loop (run n r1) greedy k (String.length s) s c
  | Cap i r1 =>
      run n r1 s c
          (fun s' c' =>
             k s' (set_cap i (Str.take (String.length s - String.length s') s) c'))
  end.

(** *** Compilation

    The syntax accepted: literals, [.], escapes ([\d \w \s] and their
    complements, [\a \f \n \r \t \v], [\A \z], escaped punctuation),
    bracket classes with ranges, [^] and [$], groups [( )] and
    [(?: )], alternation, and the repetitions [* + ? {n} {n,} {n,m}]
    with their lazy forms.  Anything else is refused, as a syntax
    error is by [regexp.Compile]. *)

Definition ranges := list (ascii * ascii).

Definition one (c : ascii) : ranges := [(c, c)].

Definition digit_ranges : ranges := [("0", "9")]%char.
Definition word_ranges : ranges := [("0", "9"); ("A", "Z"); ("_", "_"); ("a", "z")]%char.
Definition space_ranges : ranges := [("009", "010"); ("012", "013"); (" ", " ")]%char.

Definition perl_class (e : ascii) : option (bool * ranges) :=
  match e with
  | "d" => Some (false, digit_ranges)
  | "D" => Some (true, digit_ranges)
  | "w" => Some (false, word_ranges)
  | "W" => Some (true, word_ranges)
  | "s" => Some (false, space_ranges)
  | "S" => Some (true, space_ranges)
  | _ => None
  end%char.

Definition is_digit (c : ascii) : bool := in_set false digit_ranges c.
Definition is_word (c : ascii) : bool := in_set false word_ranges c.

(** The byte an escape [\e] stands for, when it stands for one. *)
Definition escaped_char (e : ascii) : option ascii :=
  match e with
  | "a" => Some "007"
  | "f" => Some "012"
  | "n" => Some "010"
  | "r" => Some "013"
  | "t" => Some "009"
  | "v" => Some "011"
  | _ => if (nat_of_ascii e <? 128)%nat && negb (is_word e) then Some e else None
  end%char.

(** One member of a bracket class: a byte, possibly escaped. *)
Definition class_char (s : string) : option (ascii * string) :=
  match s with
  | String "\" (String e s') =>
      match escaped_char e with
      | Some c => Some (c, s')
      | None => None
      end
  | String c s' => Some (c, s')
  | EmptyString => None
  end.

Fixpoint class_items (fuel : nat) (first : bool) (s : string) (acc : ranges)
  : option (ranges * string) :=
  match fuel with
  | O => None
  | S fuel' =>
      match s with
      | EmptyString => None
      | String "]" s' =>
          if first then class_items fuel' false s' (acc ++ one "]"%char)%list
          else Some (acc, s')
      | String "[" (String ":" _) => None
      | String "\" (String e s') =>
          match perl_class e with
          | Some (false, rs) => class_items fuel' false s' (acc ++ rs)%list
          | Some (true, _) => None
          | None =>
              match class_char s with
              | Some (lo, s1) => class_range fuel' lo s1 acc
              | None => None
              end
          end
      | String lo s1 => class_range fuel' lo s1 acc
      end
  end
with class_range (fuel : nat) (lo : ascii) (s : string) (acc : ranges)
  : option (ranges * string) :=
  match fuel with
  | O => None
  | S fuel' =>
      match s with
      | String "-" (String "]" _) => class_items fuel' false s (acc ++ one lo)%list
      | String "-" s1 =>
          match class_char s1 with
          | Some (hi, s2) =>
              if (nat_of_ascii lo <=? nat_of_ascii hi)
              then class_items fuel' false s2 (acc ++ [(lo, hi)])%list
              else None
          | None => None
          end
      | _ => class_items fuel' false s (acc ++ one lo)%list
      end
  end.

(** The text after [[]. *)
Definition bracket (s : string) : option (regex * string) :=
  let '(neg, s1) :=
    match s with
    | String "^" s' => (true, s')
    | _ => (false, s)
    end in
  match class_items (2 * String.length s1 + 2) true s1 [] with
  | Some (rs, rest) => Some (Set_ neg rs, rest)
  | None => None
  end.

(** The text after [\] outside a class. *)
Definition escape (s : string) : option (regex * string) :=
  match s with
  | EmptyString => None
  | String e s' =>
      match perl_class e with
      | Some (neg, rs) => Some (Set_ neg rs, s')
      | None =>
          match e with
          | "A"%char => Some (Bol, s')
          | "z"%char => Some (Eol, s')
          | _ =>
              match escaped_char e with
              | Some c => Some (Lit c, s')
              | None => None
              end
          end
      end
  end.

Fixpoint digits (s : string) (acc : nat) (seen : bool) : option (nat * string) :=
  match s with
  | String c s' =>
      if is_digit c then digits s' (10 * acc + (nat_of_ascii c - 48)) true
      else if seen then Some (acc, s) else None
  | EmptyString => if seen then Some (acc, s) else None
  end.

(** [{n}], [{n,}] or [{n,m}] after the brace: bounds and the rest. *)
Definition counted (s : string) : option (nat * option nat * string) :=
  match digits s 0 false with
  | Some (lo, String "}" s1) => Some (lo, Some lo, s1)
  | Some (lo, String "," (String "}" s1)) => Some (lo, None, s1)
  | Some (lo, String "," s1) =>
      match digits s1 0 false with
      | Some (hi, String "}" s2) => Some (lo, Some hi, s2)
      | _ => None
      end
  | _ => None
  end.

Definition quest (greedy : bool) (r : regex) : regex :=
  if greedy then Alt r Eps else Alt Eps r.

Definition plus (greedy : bool) (r : regex) : regex := Cat r (Star greedy r).

Fixpoint power (n : nat) (r : regex) (tail : regex) : regex :=
  match n with
  | O => tail
  | S n' => Cat r (power n' r tail)
  end.

(** [(r(r(r)?)?)?], [n] deep. *)
Fixpoint upto (greedy : bool) (n : nat) (r : regex) : regex :=
  match n with
  | O => Eps
  | S n' => quest greedy (Cat r (upto greedy n' r))
  end.

Definition repeat_ (greedy : bool) (lo : nat) (hi : option nat) (r : regex) : option regex :=
  match hi with
  | None => if (lo <=? 1000) then Some (power lo r (Star greedy r)) else None
  | Some h =>
      if (lo <=? h) && (h <=? 1000)
      then Some (power lo r (upto greedy (h - lo) r)) else None
  end.

Definition lazy_suffix (s : string) : bool * string :=
  match s with
  | String "?" s' => (false, s')
  | _ => (true, s)
  end.

Definition starts_repetition (s : string) : bool :=
  match s with
  | String "*" _ | String "+" _ | String "?" _ => true
  | String "{" s' => match counted s' with Some _ => true | None => false end
  | _ => false
  end.

(** The repetition operator, if any, that follows the atom [r]. *)
Definition postfix (r : regex) (s : string) : option (regex * string) :=
  let done (mk_ : bool -> option regex) (s1 : string) :=
    let '(greedy, s2) := lazy_suffix s1 in
    if starts_repetition s2 then None
    else match mk_ greedy with
         | Some r' => Some (r', s2)
         | None => None
         end in
  match s with
  | String "*" s1 => done (fun g => Some (Star g r)) s1
  | String "+" s1 => done (fun g => Some (plus g r)) s1
  | String "?" s1 => done (fun g => Some (quest g r)) s1
  | String "{" s1 =>
      match counted s1 with
      | Some (lo, hi, s2) => done (fun g => repeat_ g lo hi r) s2
      | None => Some (r, s)
      end
  | _ => Some (r, s)
  end.

Definition cat (r1 r2 : regex) : regex :=
  match r2 with
  | Eps => r1
  | _ => Cat r1 r2
  end.

Definition then_postfix (x : option (regex * string)) (g : nat)
  : option (regex * string * nat) :=
  match x with
  | Some (r, s) =>
      match postfix r s with
      | Some (r', s') => Some (r', s', g)
      | None => None
      end
  | None => None
  end.

(** Recursive descent; [g] is the number of the next capture group,
    handed out in the order of the opening parentheses. *)
Fixpoint p_alt (fuel : nat) (s : string) (g : nat) : option (regex * string * nat) :=
  match fuel with
  | O => None
  | S fuel' =>
      match p_cat fuel' s g with
      | Some (r1, String "|" s1, g1) =>
          match p_alt fuel' s1 g1 with
          | Some (r2, s2, g2) => Some (Alt r1 r2, s2, g2)
          | None => None
          end
      | other => other
      end
  end
with p_cat (fuel : nat) (s : string) (g : nat) : option (regex * string * nat) :=
  match fuel with
  | O => None
  | S fuel' =>
      match s with
      | EmptyString | String "|" _ | String ")" _ => Some (Eps, s, g)
      | _ =>
          match p_piece fuel' s g with
          | Some (r1, s1, g1) =>
              match p_cat fuel' s1 g1 with
              | Some (r2, s2, g2) => Some (cat r1 r2, s2, g2)
              | None => None
              end
          | None => None
          end
      end
  end
with p_piece (fuel : nat) (s : string) (g : nat) : option (regex * string * nat) :=
  match fuel with
  | O => None
  | S fuel' =>
      match s with
      | EmptyString => None
      | String "(" (String "?" (String ":" s1)) =>
          match p_alt fuel' s1 g with
          | Some (r, String ")" s2, g') => then_postfix (Some (r, s2)) g'
          | _ => None
          end
      | String "(" (String "?" _) => None
      | String "(" s1 =>
          match p_alt fuel' s1 (S g) with
          | Some (r, String ")" s2, g') => then_postfix (Some (Cap g r, s2)) g'
          | _ => None
          end
      | String "[" s1 => then_postfix (bracket s1) g
      | String "\" s1 => then_postfix (escape s1) g
      | String "." s1 => then_postfix (Some (Set_ true (one "010"%char), s1)) g
      | String "^" s1 => then_postfix (Some (Bol, s1)) g
      | String "$" s1 => then_postfix (Some (Eol, s1)) g
      | String "*" _ | String "+" _ | String "?" _ => None
      | String a s1 => then_postfix (Some (Lit a, s1)) g
      end
  end.

(** [regexp.Compile]; [None] is a syntax error. *)
Definition Compile (expr : string) : option t :=
  match p_alt (4 * String.length expr + 4) expr 1 with
  | Some (r, EmptyString, g) => Some (mk r (g - 1))
  | _ => None
  end.

Definition finish : string -> caps -> result := fun s c => Some (s, c).

(** One attempt anchored at the front of [s]; group 0 is the match. *)
Definition exec_here (re : t) (n : nat) (s : string) : result :=
  run n (Cap 0 (prog re)) s (repeat None (S (numSubexp re))) finish.

(** Leftmost match in [s], the rest of a text of length [n]: the part
    of [s] skipped, the rest after the match and the captures. *)
Fixpoint search (re : t) (n : nat) (s : string) : option (string * string * caps) :=
  match exec_here re n s with
  | Some (rest, c) => Some (EmptyString, rest, c)
  | None =>
      match s with
      | EmptyString => None
      | String a s' =>
          match search re n s' with
          | Some (skipped, rest, c) => Some (String a skipped, rest, c)
          | None => None
          end
      end
  end.

Definition submatches (c : caps) : list string :=
  map (fun o => match o with Some v => v | None => EmptyString end) c.

(** [FindStringSubmatch]: [None] is Go's [nil]. *)
Definition FindStringSubmatch (re : t) (s : string) : option (list string) :=
  match search re (String.length s) s with
  | Some (_, _, c) => Some (submatches c)
  | None => None
  end.

Definition MatchString (re : t) (s : string) : bool :=
  match search re (String.length s) s with
  | Some _ => true
  | None => false
  end.

(** Text that no match covers, byte by byte. *)
Definition lits (x : string) : list (ascii + list string) :=
  map inl (list_ascii_of_string x).

(** The walk shared by [FindAllStringSubmatch] and [ReplaceAllString...]:
    successive leftmost matches that do not overlap.  The result lists,
    in text order, the bytes outside the matches ([inl]) and the
    matches ([inr]).  [prev] says that a match ended where [s] starts;
    an empty match there is dropped, and after an empty match the walk
    moves on by one byte. *)
Fixpoint scan (fuel : nat) (re : t) (n : nat) (s : string) (prev : bool)
  : list (ascii + list string) :=
  match fuel with
  | O => lits s
  | S fuel' =>
      match search re n s with
      | None => lits s
      | Some (skipped, rest, c) =>
          let m := submatches c in
          let here := Str.drop (String.length skipped) s in
          (lits skipped ++
           if String.length rest <? String.length here
           then inr m :: scan fuel' re n rest true
           else
             (match skipped with
              | EmptyString => if prev then [] else [inr m]
              | _ => [inr m]
              end ++
              match rest with
              | EmptyString => []
              | String a rest' => inl a :: scan fuel' re n rest' false
              end))%list
      end
  end.

Definition walk (re : t) (s : string) : list (ascii + list string) :=
  scan (S (String.length s)) re (String.length s) s false.

Definition matches_of (es : list (ascii + list string)) : list (list string) :=
  flat_map (fun e => match e with inl _ => [] | inr m => [m] end) es.

(** [FindAllStringSubmatch re s (-1)]; [None] is [nil]. *)
Definition FindAllStringSubmatch (re : t) (s : string) : option (list (list string)) :=
  match matches_of (walk re s) with
  | [] => None
  | ms => Some ms
  end.

(** [ReplaceAllStringFunc], for a closure [repl] that carries a state
    of type [St] from call to call and may panic ([None]). *)
Fixpoint replace_events {St} (repl : St -> string -> option (St * string))
         (st : St) (es : list (ascii + list string)) : option (St * string) :=
  match es with
  | [] => Some (st, EmptyString)
  | inl a :: es' =>
      match replace_events repl st es' with
      | Some (st', out) => Some (st', String a out)
      | None => None
      end
  | inr m :: es' =>
      match repl st (hd EmptyString m) with
      | Some (st1, x) =>
          match replace_events repl st1 es' with
          | Some (st', out) => Some (st', x ++ out)
          | None => None
          end
      | None => None
      end
  end.

Definition ReplaceAllStringFunc {St} (re : t) (src : string)
           (repl : St -> string -> option (St * string)) (st : St)
  : option (St * string) :=
  replace_events repl st (walk re src).

(** *** Notions used to state facts about matching *)

(** [avoids b r]: no match of [r] consumes the byte [b], and [r] has no
    anchor; such an expression cannot see past a [b]. *)
Fixpoint avoids (b : ascii) (r : regex) : bool :=
  match r with
  | Eps => true
  | Lit a => negb (Ascii.eqb a b)
  | Set_ neg rs => negb (in_set neg rs b)
  | Bol | Eol => false
  | Cat r1 r2 | Alt r1 r2 => avoids b r1 && avoids b r2
  | Star _ r1 | Cap _ r1 => avoids b r1
  end.

(** A result on a text, read on that text followed by [z]. *)
Definition extend (z : string) (o : result) : result :=
  match o with
  | Some (rest, c) => Some (rest ++ z, c)
  | None => None
  end.

(** Where such an expression stops: the end of the text or a [b]. *)
Definition boundary (b : ascii) (z : string) : Prop :=
  match z with
  | EmptyString => True
  | String a _ => a = b
  end.

(** Two continuations that agree: [k] on a text that goes on with [z]
    does what [k'] does on the text without it. *)
Definition agree (z : string) (k k' : string -> caps -> result) : Prop :=
  forall x c, k (x ++ z) c = extend z (k' x c).

(** The attempts of a greedy loop over single bytes that can take all
    of [u]: [k] after all of [u] first, then after one byte less, down
    to [k] on [u ++ v] itself. *)
Fixpoint greedy_try (k : string -> caps -> result) (u v : string) (c : caps) : result :=
  match u with
  | EmptyString => k v c
  | String a u' => greedy_try k u' v c <|> k (u ++ v) c
  end.

Fixpoint all_in (neg : bool) (rs : ranges) (u : string) : bool :=
  match u with
  | EmptyString => true
  | String a u' => in_set neg rs a && all_in neg rs u'
  end.

(** The end of a run of bytes of a class: the end of the text or a
    byte outside the class. *)
Definition stops (neg : bool) (rs : ranges) (v : string) : bool :=
  match v with
  | EmptyString => true
  | String a _ => negb (in_set neg rs a)
  end.

(** The numbers of the groups inside an expression. *)
Fixpoint groups_in (r : regex) : list nat :=
  match r with
  | Cap i r1 => i :: groups_in r1
  | Cat r1 r2 | Alt r1 r2 => (groups_in r1 ++ groups_in r2)%list
  | Star _ r1 => groups_in r1
  | _ => []
  end.

(** What a success of [run] hands on to [k]: a text that is no longer,
    as many captures, and captures that changed at most at the groups
    of [F]. *)
Definition reaches (F : list nat) (s : string) (c : caps)
           (k : string -> caps -> result) (res : string * caps) : Prop :=
  exists s' c',
    String.length s' <= String.length s /\ length c' = length c
    /\ (forall i, ~ In i F -> nth_error c' i = nth_error c i)
    /\ k s' c' = Some res.

(** [(r1)|(r2)|...], each alternative in a group with the given number. *)
Fixpoint selector_chain (sel : list (nat * regex)) : regex :=
  match sel with
  | [] => Eps
  | [(g, r)] => Cap g r
  | (g, r) :: sel' => Alt (Cap g r) (selector_chain sel')
  end.

(** An expression with its groups renumbered: [d] more each. *)
Fixpoint shift (d : nat) (r : regex) : regex :=
  match r with
  | Cat r1 r2 => Cat (shift d r1) (shift d r2)
  | Alt r1 r2 => Alt (shift d r1) (shift d r2)
  | Star greedy r1 => Star greedy (shift d r1)
  | Cap i r1 => Cap (i + d) (shift d r1)
  | _ => r
  end.

(** The alternatives of an expression of that form. *)
Fixpoint alternatives (r : regex) : list (nat * regex) :=
  match r with
  | Alt (Cap g r1) r2 => (g, r1) :: alternatives r2
  | Cap g r1 => [(g, r1)]
  | _ => []
  end.

End Regexp.

(** ** parser.go *)

Inductive error : Type :=
| InvalidPattern (pattern : string).
    (* fmt.Errorf("the pattern MUST begin with '/' in pattern %q", pattern) *)

(** What [Parse] returns: regexp, params, hasTrailingSlashes, err. *)
Definition parsed : Type := string * list string * bool * option error.

(** [ParserInterface]; [None] is a run-time panic inside [Parse]. *)
Record ParserInterface : Type := { Parse_ : string -> option parsed }.

Definition defaultParserExpr : string := "<([^/:]+)(:([^/]+))?>".

Definition defaultParserRegexp : Regexp.t :=
  Eval vm_compute in
    match Regexp.Compile defaultParserExpr with
    | Some re => re
    | None => Regexp.mk Regexp.Eps 0
    end.

Record Parser : Type := { reg_ : Regexp.t }.

Definition NewParserWithReg (reg : Regexp.t) : Parser := {| reg_ := reg |}.

Definition NewParser : Parser := NewParserWithReg defaultParserRegexp.

(** [for _, match := range matches { params = append(params, match[1]) }] *)
Fixpoint collect_params (matches : list (list string)) : option (list string) :=
  match matches with
  | [] => Some []
  | m :: ms =>
      match nth_error m 1, collect_params ms with
      | Some name, Some names => Some (name :: names)
      | _, _ => None
      end
  end.

(** The closure handed to [ReplaceAllStringFunc]; its state is the
    counter [i], which starts at [-1]. *)
Definition replacement (matches : list (list string)) (i : Z) (any : string)
  : option (Z * string) :=
  let i := (i + 1)%Z in
  if (i <? 0)%Z then None
  else
    match nth_error matches (Z.to_nat i) with
    | None => None
    | Some m =>
        match nth_error m 3 with
        | None => None
        | Some sub =>
            if negb (sub =? "")%string then Some (i, "(" ++ sub ++ ")")
            else Some (i, "([^/]+)")
        end
    end.

Definition Parse (p : Parser) (pattern : string) : option parsed :=
  match Str.head pattern with
  | None => Some ("", [], false, Some (InvalidPattern pattern))
  | Some c =>
      if negb (Ascii.eqb c "/") then Some ("", [], false, Some (InvalidPattern pattern))
      else
        let strip := negb (pattern =? "/")%string &&
                     match Str.last pattern with
                     | Some d => Ascii.eqb d "/"
                     | None => false
                     end in
        let hasTrailingSlashes := strip in
        let pattern := if strip then Str.chop pattern else pattern in
        let converted :=
          match Regexp.FindAllStringSubmatch (reg_ p) pattern with
          | Some matches =>
              match collect_params matches,
                    Regexp.ReplaceAllStringFunc (reg_ p) pattern (replacement matches) (-1)%Z with
              | Some params, Some (_, regexp) => Some (regexp, params)
              | _, _ => None
              end
          | None => Some (pattern, [])
          end in
        match converted with
        | Some (regexp, params) => Some (regexp ++ "/?", params, hasTrailingSlashes, None)
        | None => None
        end
  end.

Definition as_interface (p : Parser) : ParserInterface := {| Parse_ := Parse p |}.

(** *** Notions used to state facts about the default parser *)

(** The bytes [[^/:]] and [[^/]] leave out. *)
Definition name_bytes : Regexp.ranges := [("/", "/"); (":", ":")]%char.
Definition sub_bytes : Regexp.ranges := [("/", "/")]%char.

(** What the closure of [Parse] puts in the place of a match. *)
Definition placeholder_regexp (m : list string) : string :=
  if negb (nth 3 m "" =? "")%string then "(" ++ nth 3 m "" ++ ")" else "([^/]+)".

(** A walk with every match replaced that way, and the names in it. *)
Fixpoint render (es : list (ascii + list string)) : string :=
  match es with
  | [] => ""
  | inl a :: es' => String a (render es')
  | inr m :: es' => placeholder_regexp m ++ render es'
  end.

Definition names_of (es : list (ascii + list string)) : list string :=
  map (fun m => nth 1 m "") (Regexp.matches_of es).

(** The expression and the parameters the default parser makes of a
    text that lost its trailing slash already. *)
Definition convert (pattern : string) : string :=
  render (Regexp.walk defaultParserRegexp pattern).

Definition names (pattern : string) : list string :=
  names_of (Regexp.walk defaultParserRegexp pattern).

(** The pattern as [Parse] goes on with it, once the trailing slash of
    a pattern other than [/] is off. *)
Definition trimmed (pattern : string) : string :=
  if negb (pattern =? "/")%string &&
     match Str.last pattern with
     | Some d => Ascii.eqb d "/"
     | None => false
     end
  then Str.chop pattern else pattern.


(** ** net/http, as far as the router touches it

    A response writer behaves like [httptest.ResponseRecorder]: the
    status is 200 until the first [WriteHeader], and writing the body
    writes the header first.  A handler returns or panics. *)

Record ResponseWriter : Type :=
  { Code : nat;
    wroteHeader : bool;
    Header : list (string * string);
    Body : string }.

Record Request : Type :=
  { Method : string;
    URLPath : string;                                 (* req.URL.Path *)
    ctxParams : option (list (string * string)) }.    (* Context().Value(contextParamsKey) *)

Inductive Outcome : Type :=
| Returned (w : ResponseWriter)
| Panicked (rcv : string) (w : ResponseWriter).

Definition Handler : Type := ResponseWriter -> Request -> Outcome.

(** [type Middleware func(next http.Handler) http.Handler] *)
Definition Middleware : Type := Handler -> Handler.

(** Go maps with string keys. *)
Module Map.

Fixpoint lookup {A} (k : string) (m : list (string * A)) : option A :=
  match m with
  | [] => None
  | (k', v) :: m' => if (k =? k')%string then Some v else lookup k m'
  end.

Fixpoint insert {A} (k : string) (v : A) (m : list (string * A)) : list (string * A) :=
  match m with
  | [] => [(k, v)]
  | (k', v') :: m' =>
      if (k =? k')%string then (k, v) :: m' else (k', v') :: insert k v m'
  end.

End Map.

Module http.

Definition MethodGet := "GET".
Definition MethodPost := "POST".
Definition MethodPut := "PUT".
Definition MethodDelete := "DELETE".
Definition MethodOptions := "OPTIONS".

Definition StatusMovedPermanently := 301.
Definition StatusPermanentRedirect := 308.
Definition StatusNotFound := 404.
Definition StatusMethodNotAllowed := 405.

Definition StatusText (code : nat) : string :=
  if code =? 405 then "Method Not Allowed"
  else if code =? 404 then "Not Found"
  else if code =? 301 then "Moved Permanently"
  else if code =? 308 then "Permanent Redirect"
  else "".

Definition NewRecorder : ResponseWriter :=
  {| Code := 200; wroteHeader := false; Header := []; Body := "" |}.

Definition SetHeader (k v : string) (w : ResponseWriter) : ResponseWriter :=
  {| Code := Code w; wroteHeader := wroteHeader w;
     Header := Map.insert k v (Header w); Body := Body w |}.

Definition WriteHeader (code : nat) (w : ResponseWriter) : ResponseWriter :=
  if wroteHeader w then w
  else {| Code := code; wroteHeader := true; Header := Header w; Body := Body w |}.

Definition Write (b : string) (w : ResponseWriter) : ResponseWriter :=
  let w := WriteHeader 200 w in
  {| Code := Code w; wroteHeader := wroteHeader w; Header := Header w;
     Body := Body w ++ b |}.

(** [http.Error]. *)
Definition Error (w : ResponseWriter) (msg : string) (code : nat) : ResponseWriter :=
  let w := SetHeader "Content-Type" "text/plain; charset=utf-8" w in
  let w := SetHeader "X-Content-Type-Options" "nosniff" w in
  let w := WriteHeader code w in
  Write (msg ++ String "010" "") w.

Definition NotFound (w : ResponseWriter) : ResponseWriter :=
  Error w "404 page not found" StatusNotFound.

(** [http.Redirect] to a clean absolute path: the [Location] header
    and the status.  The short HTML note it adds for GET is left out. *)
Definition Redirect (w : ResponseWriter) (url : string) (code : nat) : ResponseWriter :=
  WriteHeader code (SetHeader "Location" url w).

End http.

(** ** router.go *)

(** Trailing slashes policies ([iota]). *)
Definition IgnoreTrailingSlashes : Z := 0.
Definition AppendTrailingSlashes : Z := 1.
Definition RemoveTrailingSlashes : Z := 2.
Definition StrictTrailingSlashes : Z := 3.

Record route : Type :=
  { reg : string;
    params : list string;
    hasTrailingSlashes : bool;
    middleware : list Middleware;
    handler : Handler;
    finalHandler : option Handler }.

#[local] Unset Elimination Schemes.

(** The router.  The [parent] pointer is only followed by
    [Router.middleware]; a group is stored in its parent's [groups], and
    the functions that walk down pass along what the walk up would find.
    The field [Middleware] is [Middleware_] here, next to the type. *)
Inductive Router : Type :=
  mkRouter
    { Middleware_ : list Middleware;
      combinedRegexps : list (string * Regexp.t);
      groups : list (string * Router);
      routes : list (string * list (option route));
      parser : ParserInterface;
      PanicHandler : option (ResponseWriter -> Request -> string -> Outcome);
      OptionsHandler : option (ResponseWriter -> Request -> list string -> Outcome);
      MethodNotAllowedHandler : option (ResponseWriter -> Request -> list string -> Outcome);
      NotFoundHandler : option Handler;
      TrailingSlashesPolicy : Z }.

#[local] Set Elimination Schemes.

(** Induction on a router: the property holds for a router as soon as
    it holds for each of its groups. *)
Fixpoint Router_groups_ind (P : Router -> Prop)
         (step : forall mw res gs rts ps ph oh mh nf pol,
             Forall (fun e => P (snd e)) gs ->
             P (mkRouter mw res gs rts ps ph oh mh nf pol))
         (r : Router) {struct r} : P r :=
  match r with
  | mkRouter mw res gs rts ps ph oh mh nf pol =>
      step mw res gs rts ps ph oh mh nf pol
           ((fix all (gs : list (string * Router)) : Forall (fun e => P (snd e)) gs :=
               match gs with
               | [] => Forall_nil _
               | e :: gs' => Forall_cons e (Router_groups_ind P step (snd e)) (all gs')
               end) gs)
  end.

Definition NewWithParser (parser : ParserInterface) : Router :=
  {| Middleware_ := [];
     combinedRegexps := [];
     groups := [];
     routes := [];
     parser := parser;
     PanicHandler := None;
     OptionsHandler := None;
     MethodNotAllowedHandler := None;
     NotFoundHandler := None;
     TrailingSlashesPolicy := IgnoreTrailingSlashes |}.

Definition New : Router := NewWithParser (as_interface NewParser).

Definition set_Middleware (mw : list Middleware) (r : Router) : Router :=
  mkRouter mw (combinedRegexps r) (groups r) (routes r) (parser r) (PanicHandler r)
           (OptionsHandler r) (MethodNotAllowedHandler r) (NotFoundHandler r)
           (TrailingSlashesPolicy r).

Definition set_groups (g : list (string * Router)) (r : Router) : Router :=
  mkRouter (Middleware_ r) (combinedRegexps r) g (routes r) (parser r) (PanicHandler r)
           (OptionsHandler r) (MethodNotAllowedHandler r) (NotFoundHandler r)
           (TrailingSlashesPolicy r).

Definition set_routes (m : list (string * list (option route))) (r : Router) : Router :=
  mkRouter (Middleware_ r) (combinedRegexps r) (groups r) m (parser r) (PanicHandler r)
           (OptionsHandler r) (MethodNotAllowedHandler r) (NotFoundHandler r)
           (TrailingSlashesPolicy r).

Definition set_parser (p : ParserInterface) (r : Router) : Router :=
  mkRouter (Middleware_ r) (combinedRegexps r) (groups r) (routes r) p (PanicHandler r)
           (OptionsHandler r) (MethodNotAllowedHandler r) (NotFoundHandler r)
           (TrailingSlashesPolicy r).

Definition set_PanicHandler (h : option (ResponseWriter -> Request -> string -> Outcome))
           (r : Router) : Router :=
  mkRouter (Middleware_ r) (combinedRegexps r) (groups r) (routes r) (parser r) h
           (OptionsHandler r) (MethodNotAllowedHandler r) (NotFoundHandler r)
           (TrailingSlashesPolicy r).

Definition set_OptionsHandler
           (h : option (ResponseWriter -> Request -> list string -> Outcome))
           (r : Router) : Router :=
  mkRouter (Middleware_ r) (combinedRegexps r) (groups r) (routes r) (parser r)
           (PanicHandler r) h (MethodNotAllowedHandler r) (NotFoundHandler r)
           (TrailingSlashesPolicy r).

Definition set_MethodNotAllowedHandler
           (h : option (ResponseWriter -> Request -> list string -> Outcome))
           (r : Router) : Router :=
  mkRouter (Middleware_ r) (combinedRegexps r) (groups r) (routes r) (parser r)
           (PanicHandler r) (OptionsHandler r) h (NotFoundHandler r)
           (TrailingSlashesPolicy r).

Definition set_NotFoundHandler (h : option Handler) (r : Router) : Router :=
  mkRouter (Middleware_ r) (combinedRegexps r) (groups r) (routes r) (parser r)
           (PanicHandler r) (OptionsHandler r) (MethodNotAllowedHandler r) h
           (TrailingSlashesPolicy r).

Definition set_TrailingSlashesPolicy (p : Z) (r : Router) : Router :=
  mkRouter (Middleware_ r) (combinedRegexps r) (groups r) (routes r) (parser r)
           (PanicHandler r) (OptionsHandler r) (MethodNotAllowedHandler r)
           (NotFoundHandler r) p.

(** *** Registration

    A call that panics aborts the configuration: [None]. *)

(** [Router.Group]: the router with its new, empty group. *)
Definition Group (r : Router) (prefix : string) : option Router :=
  if (prefix =? "")%string then None
  else if Str.mem "/" prefix then None
  else
    match Map.lookup prefix (groups r) with
    | Some _ => None
    | None =>
        let group := set_parser (parser r) New in
        Some (set_groups (Map.insert prefix group (groups r)) r)
    end.

(** Calls made through the pointer that [Group] returned. *)
Definition in_group (prefix : string) (f : Router -> option Router) (r : Router)
  : option Router :=
  match Map.lookup prefix (groups r) with
  | Some g =>
      match f g with
      | Some g' => Some (set_groups (Map.insert prefix g' (groups r)) r)
      | None => None
      end
  | None => None
  end.

Definition Handle (r : Router) (method pattern : string) (handler : Handler)
           (middleware : list Middleware) : option Router :=
  let existing :=
    match Map.lookup method (routes r) with
    | Some l => l
    | None => [None]
    end in
  match Parse_ (parser r) pattern with
  | None => None
  | Some (_, _, _, Some err) => None
  | Some (reg, params, hasTrailingSlashes, None) =>
      let route :=
        {| reg := reg; params := params; hasTrailingSlashes := hasTrailingSlashes;
           middleware := middleware; handler := handler; finalHandler := None |} in
      Some (set_routes
              (Map.insert method
                          (existing ++ [Some route] ++ repeat None (length params))%list
                          (routes r)) r)
  end.

Definition Delete r pattern handler middleware := Handle r http.MethodDelete pattern handler middleware.
Definition Get r pattern handler middleware := Handle r http.MethodGet pattern handler middleware.
Definition Post r pattern handler middleware := Handle r http.MethodPost pattern handler middleware.
Definition Put r pattern handler middleware := Handle r http.MethodPut pattern handler middleware.

(** *** Preparation *)

(** The two chaining loops of [prepare]: the wrappers are applied from
    the last to the first, so that the first ends up outermost. *)
Definition chain (mws : list Middleware) (h : Handler) : Handler :=
  fold_right (fun m acc => m acc) h mws.

Definition prepare_route (middleware_ : list Middleware) (rt : route) : route :=
  let handler_ := chain (middleware rt) (handler rt) in
  let handler_ := chain middleware_ handler_ in
  {| reg := reg rt; params := params rt; hasTrailingSlashes := hasTrailingSlashes rt;
     middleware := middleware rt; handler := handler rt;
     finalHandler := Some handler_ |}.

(** [regs] of the inner loop: one parenthesised expression per route. *)
Definition route_regs (rts : list (option route)) : list string :=
  flat_map (fun o => match o with
                     | Some rt => ["(" ++ reg rt ++ ")"]
                     | None => []
                     end) rts.

Definition combined_expr (rts : list (option route)) : string :=
  "^(?:" ++ Str.join "|" (route_regs rts) ++ ")$".

(** The keys of a map, each once: what [range] goes through. *)
Definition keys {A} (m : list (string * A)) : list string :=
  nodup string_dec (map fst m).

(** The loop over [r.routes].  The routes of a method are updated in
    place (they are pointers); [MustCompile] panics on a syntax error. *)
Fixpoint prepare_methods (middleware_ : list Middleware) (methods : list string)
         (rts : list (string * list (option route)))
         (res : list (string * Regexp.t))
  : option (list (string * list (option route)) * list (string * Regexp.t)) :=
  match methods with
  | [] => Some (rts, res)
  | method :: methods' =>
      let l := match Map.lookup method rts with
               | Some l => l
               | None => []
               end in
      let l' := map (option_map (prepare_route middleware_)) l in
      match Regexp.Compile (combined_expr l') with
      | None => None
      | Some re =>
          prepare_methods middleware_ methods' (Map.insert method l' rts)
                          (Map.insert method re res)
      end
  end.

(** [for _, group := range r.groups { group.prepare() }], for any
    action on a group that may panic. *)
Definition each_group {A B} (f : A -> option B)
  : list (string * A) -> option (list (string * B)) :=
  fix go (gs : list (string * A)) : option (list (string * B)) :=
    match gs with
    | [] => Some []
    | (prefix, group) :: gs' =>
        match f group, go gs' with
        | Some group', Some gs'' => Some ((prefix, group') :: gs'')
        | _, _ => None
        end
    end.

(** [inherited] is [r.parent.middleware()], empty for the root. *)
Fixpoint prepare (inherited : list Middleware) (r : Router) {struct r} : option Router :=
  let middleware_ := (inherited ++ Middleware_ r)%list in
  match prepare_methods middleware_ (keys (routes r)) (routes r) (combinedRegexps r) with
  | None => None
  | Some (rts, res) =>
      match each_group (prepare middleware_) (groups r) with
      | None => None
      | Some gs =>
          Some (mkRouter (Middleware_ r) res gs rts (parser r) (PanicHandler r)
                         (OptionsHandler r) (MethodNotAllowedHandler r)
                         (NotFoundHandler r) (TrailingSlashesPolicy r))
      end
  end.

(** What a method looks like once the loop of [prepare] went over it. *)
Definition settled (mw : list Middleware) (rts : list (string * list (option route)))
           (res : list (string * Regexp.t)) (method : string) : Prop :=
  exists l re,
    Map.lookup method rts = Some l
    /\ map (option_map (prepare_route mw)) l = l
    /\ Regexp.Compile (combined_expr l) = Some re
    /\ Map.lookup method res = Some re.

Definition Prepare (r : Router) : option Router := prepare [] r.

(** The groups of a combined expression are laid out like the slots of
    the route list [l]: the expression is [^(?:(r1)|(r2)|...)$], the
    group around each alternative has the index of a slot that holds a
    route, and the groups inside the alternative come after it. *)
Definition laid_out (l : list (option route)) (re : Regexp.t)
           (sel : list (nat * Regexp.regex)) : Prop :=
  Regexp.prog re = Regexp.Cat Regexp.Bol (Regexp.Cat (Regexp.selector_chain sel) Regexp.Eol)
  /\ Forall (fun e =>
               1 <= fst e <= Regexp.numSubexp re
               /\ Forall (fun i => fst e < i) (Regexp.groups_in (snd e))
               /\ exists rt, nth_error l (fst e) = Some (Some rt)) sel.

(** The slots [Handle] gives to routes registered one after the other
    for one method: each route, then one [nil] per parameter. *)
Definition slots_of (rts : list route) : list (option route) :=
  flat_map (fun rt => Some rt :: repeat None (length (params rt))) rts.

(** A route list as [Handle] builds it: [nil] first, then the slots. *)
Definition slotted (l : list (option route)) : Prop :=
  exists rts, l = None :: slots_of rts.

(** The alternatives that the routes of a method make in its combined
    expression, the first of them in group [g]: each route's own
    expression, compiled, with its groups moved behind the group that
    is put around it. *)
Fixpoint selectors (rts : list route) (g : nat) : list (nat * Regexp.regex) :=
  match rts with
  | [] => []
  | rt :: rts' =>
      (g, Regexp.shift g match Regexp.Compile (reg rt) with
                         | Some re => Regexp.prog re
                         | None => Regexp.Eps
                         end)
        :: selectors rts' (g + 1 + length (params rt))
  end.

(** The routes of a route list, without the [nil] slots. *)
Definition registered (l : list (option route)) : list route :=
  flat_map (fun o => match o with
                     | Some rt => [rt]
                     | None => []
                     end) l.

(** The chain of middleware of the group reached through a list of
    prefixes, as [Router.middleware] collects it on the way up: from
    the router at the top down to the group. *)
Fixpoint middleware_along (r : Router) (prefixes : list string) : list Middleware :=
  (Middleware_ r ++
   match prefixes with
   | [] => []
   | prefix :: prefixes' =>
       match Map.lookup prefix (groups r) with
       | Some group => middleware_along group prefixes'
       | None => []
       end
   end)%list.

(** *** Dispatch *)

Definition retrieveMethods (r : Router) (path : string) : list string :=
  flat_map (fun e => if Regexp.MatchString (snd e) path then [fst e] else [])
           (combinedRegexps r).

(** [for ; i < len(path) && path[i] != '/'; i++ {}] from [i]. *)
Fixpoint segment_end (path : string) (i : nat) : nat :=
  match path with
  | EmptyString => i
  | String c path' => if Ascii.eqb c "/" then i else segment_end path' (S i)
  end.

(** The [walk:] loop of [fetchGroup]; [r] is the receiver, whose own
    groups guard every round. *)
Fixpoint fetchGroup_walk (fuel : nat) (r router : Router) (path : string)
  : Router * string :=
  match fuel with
  | O => (router, path)
  | S fuel' =>
      if negb (path =? "/")%string && (0 <? length (groups r)) then
        let i := segment_end (Str.drop 1 path) 1 in
        if 1 <? i then
          let prefix := Str.drop 1 (Str.take i path) in
          match Map.lookup prefix (groups router) with
          | Some group =>
              if i <? String.length path
              then fetchGroup_walk fuel' r group (Str.drop i path)
              else (group, "/")
          | None => (router, path)
          end
        else (router, path)
      else (router, path)
  end.

Definition fetchGroup (r : Router) (path : string) : Router * string :=
  fetchGroup_walk (S (String.length path)) r r path.

(** [for ; i < len(matches) && matches[i] == ""; i++ {}] from [i]. *)
Fixpoint first_nonempty (matches : list string) (i : nat) : nat :=
  match matches with
  | [] => i
  | m :: matches' => if (m =? "")%string then first_nonempty matches' (S i) else i
  end.

(** The loop that fills [params]: [i++; params[name] = matches[i]]. *)
Fixpoint bind_params (names : list string) (matches : list string) (i : nat)
         (acc : list (string * string)) : option (list (string * string)) :=
  match names with
  | [] => Some acc
  | name :: names' =>
      match nth_error matches (S i) with
      | Some v => bind_params names' matches (S i) (Map.insert name v acc)
      | None => None
      end
  end.

Definition set_path (path : string) (req : Request) : Request :=
  {| Method := Method req; URLPath := path; ctxParams := ctxParams req |}.

Definition with_params (ps : list (string * string)) (req : Request) : Request :=
  {| Method := Method req; URLPath := URLPath req; ctxParams := Some ps |}.

Definition index_out_of_range := "runtime error: index out of range".
Definition nil_dereference := "runtime error: invalid memory address or nil pointer dereference".

(** What the trailing slashes block leaves behind: it returned, it
    panicked, or control goes on below it. *)
Inductive slashes : Type :=
| Stop (w : ResponseWriter) (req : Request)
| Crash (rcv : string) (w : ResponseWriter) (req : Request)
| Go_on (w : ResponseWriter) (req : Request).

Definition handle_trailing_slashes (r : Router) (rt : option route) (method : string)
           (w : ResponseWriter) (req : Request) : slashes :=
  if negb (TrailingSlashesPolicy r =? IgnoreTrailingSlashes)%Z then
    let code :=
      if negb (method =? http.MethodGet)%string
      then http.StatusPermanentRedirect else http.StatusMovedPermanently in
    let isRootPath := (URLPath req =? "/")%string in
    match Str.last (URLPath req) with
    | None => Crash index_out_of_range w req
    | Some c =>
        let endWithSlashes := Ascii.eqb c "/" in
        if (TrailingSlashesPolicy r =? RemoveTrailingSlashes)%Z
           && endWithSlashes && negb isRootPath then
          let req := set_path (Str.chop (URLPath req)) req in
          Stop (http.Redirect w (URLPath req) code) req
        else if (TrailingSlashesPolicy r =? AppendTrailingSlashes)%Z
                && negb endWithSlashes && negb isRootPath then
          let req := set_path (URLPath req ++ "/") req in
          Stop (http.Redirect w (URLPath req) code) req
        else if (TrailingSlashesPolicy r =? StrictTrailingSlashes)%Z
                && negb isRootPath then
          match rt with
          | None => Crash nil_dereference w req
          | Some rt =>
              if hasTrailingSlashes rt && negb endWithSlashes then
                let req := set_path (URLPath req ++ "/") req in
                Stop (http.Redirect w (URLPath req) code) req
              else if negb (hasTrailingSlashes rt) && endWithSlashes then
                let req := set_path (Str.chop (URLPath req)) req in
                Go_on (http.Redirect w (URLPath req) code) req
              else Go_on w req
          end
        else Go_on w req
    end
  else Go_on w req.

(** From [if len(route.params) > 0] to the call of the final handler. *)
Definition bind_and_invoke (rt : option route) (matches : list string) (i : nat)
           (w : ResponseWriter) (req : Request) : Outcome * Request :=
  match rt with
  | None => (Panicked nil_dereference w, req)
  | Some rt =>
      let bound :=
        if 0 <? length (params rt) then
          match bind_params (params rt) matches i [] with
          | Some ps => Some (with_params ps req)
          | None => None
          end
        else Some req in
      match bound with
      | None => (Panicked index_out_of_range w, req)
      | Some req =>
          match finalHandler rt with
          | Some h => (h w req, req)
          | None => (Panicked nil_dereference w, req)
          end
      end
  end.

(** The part of [ServeHTTP] below the lookup of a route. *)
Definition fallback (r router : Router) (path : string) (method : string)
           (w : ResponseWriter) (req : Request) : Outcome :=
  let methods := retrieveMethods router path in
  if (method =? http.MethodOptions)%string then
    match OptionsHandler r with
    | Some h => h w req methods
    | None => Returned (http.SetHeader "Allow" (Str.join ", " methods) w)
    end
  else if 0 <? length methods then
    match MethodNotAllowedHandler r with
    | Some h => h w req methods
    | None =>
        let w := http.SetHeader "Allow" (Str.join ", " methods) w in
        Returned (http.Error w (http.StatusText http.StatusMethodNotAllowed)
                             http.StatusMethodNotAllowed)
    end
  else
    match NotFoundHandler r with
    | Some h => h w req
    | None => Returned (http.NotFound w)
    end.

(** The body of [ServeHTTP]: how it ends, and the request as the
    deferred function sees it. *)
Definition serve (r : Router) (w : ResponseWriter) (req : Request) : Outcome * Request :=
  let method := Method req in
  let path := URLPath req in
  let '(router, path) := fetchGroup r path in
  let matched :=
    match Map.lookup method (combinedRegexps router) with
    | Some re => Regexp.FindStringSubmatch re path
    | None => None
    end in
  match matched with
  | Some matches =>
      let i := first_nonempty (tl matches) 1 in
      let slot :=
        match Map.lookup method (routes router) with
        | Some l => nth_error l i
        | None => None
        end in
      match slot with
      | None => (Panicked index_out_of_range w, req)
      | Some rt =>
          match handle_trailing_slashes r rt method w req with
          | Stop w req => (Returned w, req)
          | Crash rcv w req => (Panicked rcv w, req)
          | Go_on w req => bind_and_invoke rt matches i w req
          end
      end
  | None => (fallback r router path method w req, req)
  end.

(** The deferred function: a panic goes to [PanicHandler], if set. *)
Definition recovered (r : Router) (req : Request) (out : Outcome) : Outcome :=
  match PanicHandler r, out with
  | Some h, Panicked rcv w => h w req rcv
  | _, _ => out
  end.

Definition ServeHTTP (r : Router) (w : ResponseWriter) (req : Request) : Outcome :=
  let '(out, req) := serve r w req in
  recovered r req out.

(** [Params]: the parameters stored in the context, or [nil]. *)
Definition Params (req : Request) : option (list (string * string)) := ctxParams req.

(** [Router.ServeFiles]; [fs] stands for [http.FileServer(http.Dir(root))].
    A parameter that is missing in the map reads as the empty string. *)
Definition ServeFiles (r : Router) (pattern : string) (fs : Handler)
           (middleware : list Middleware) : option Router :=
  if negb (Str.contains pattern "filepath") then None
  else
    let handler : Handler :=
      fun w req =>
        match Params req with
        | Some params =>
            let filepath := match Map.lookup "filepath" params with
                            | Some v => v
                            | None => ""
                            end in
            fs w (set_path filepath req)
        | None => Returned w
        end in
    Handle r http.MethodGet pattern handler middleware.

(** *** Notions used to state facts about dispatch *)

(** The first segment of a path, as [fetchGroup] cuts it out: [path[1:i]]. *)
Definition first_segment (path : string) : string :=
  Str.drop 1 (Str.take (segment_end (Str.drop 1 path) 1) path).

(** The group reached from [r] through a list of prefixes. *)
Fixpoint descend (r : Router) (prefixes : list string) : option Router :=
  match prefixes with
  | [] => Some r
  | prefix :: prefixes' =>
      match Map.lookup prefix (groups r) with
      | Some group => descend group prefixes'
      | None => None
      end
  end.

(** The path made of prefixes, one segment each, and what follows. *)
Definition under (prefixes : list string) (rest : string) : string :=
  fold_right (fun prefix acc => "/" ++ prefix ++ acc) rest prefixes.

(** The status of a redirect: 301 for GET, 308 for the rest. *)
Definition redirect_code (method : string) : nat :=
  if (method =? http.MethodGet)%string
  then http.StatusMovedPermanently else http.StatusPermanentRedirect.

Definition ends_with_slash (path : string) : bool :=
  match Str.last path with
  | Some c => Ascii.eqb c "/"
  | None => false
  end.

(** The request finds a slot: in the router its path resolves to, the
    combined expression of its method matches what is left of the
    path with the submatches [matches], and the route list of the
    method has [slot] at the index the scan stops at. *)
Definition matched (r : Router) (req : Request) (matches : list string)
           (slot : option route) : Prop :=
  let '(router, path) := fetchGroup r (URLPath req) in
  exists re l,
    Map.lookup (Method req) (combinedRegexps router) = Some re
    /\ Regexp.FindStringSubmatch re path = Some matches
    /\ Map.lookup (Method req) (routes router) = Some l
    /\ nth_error l (first_nonempty (tl matches) 1) = Some slot.

(** Requests the trailing slashes block lets through untouched: the
    policy is to ignore, or the path is [/], or the path is as the
    policy wants it. *)
Definition as_wanted (r : Router) (rt : route) (req : Request) : Prop :=
  TrailingSlashesPolicy r = IgnoreTrailingSlashes
  \/ URLPath req = "/"
  \/ (URLPath req <> ""
      /\ ((TrailingSlashesPolicy r = RemoveTrailingSlashes
           /\ ends_with_slash (URLPath req) = false)
          \/ (TrailingSlashesPolicy r = AppendTrailingSlashes
              /\ ends_with_slash (URLPath req) = true)
          \/ (TrailingSlashesPolicy r = StrictTrailingSlashes
              /\ hasTrailingSlashes rt = ends_with_slash (URLPath req)))).

(** Two maps with the same keys in the same order and related values. *)
Definition alike {A B} (R : A -> B -> Prop)
  : list (string * A) -> list (string * B) -> Prop :=
  fix all (ga : list (string * A)) (gb : list (string * B)) {struct ga} : Prop :=
    match ga, gb with
    | [], [] => True
    | (p, x) :: ga', (q, y) :: gb' => p = q /\ R x y /\ all ga' gb'
    | _, _ => False
    end.

(** Two routers with the same tables all the way down: the same
    combined expressions, the same routes, and groups under the same
    prefixes that are like that in turn.  Nothing is said of the
    other fields. *)
Fixpoint same_tables (a b : Router) {struct a} : Prop :=
  combinedRegexps a = combinedRegexps b
  /\ routes a = routes b
  /\ alike same_tables (groups a) (groups b).

Definition NewRequest (method path : string) : Request :=
  {| Method := method; URLPath := path; ctxParams := None |}.

Definition emptyHandler : Handler := fun w _ => Returned w.
Definition helloHandler (msg : string) : Handler := fun w _ => Returned (http.Write msg w).


(** ** Configurations used below *)

Definition bind {A B} (x : option A) (f : A -> option B) : option B :=
  match x with
  | Some a => f a
  | None => None
  end.

Notation "x >>= f" := (bind x f) (at level 50, left associativity).

(** Serve one request with a router whose configuration went through. *)
Definition dispatch (built : option Router) (w : ResponseWriter) (req : Request)
  : option Outcome :=
  option_map (fun r => ServeHTTP r w req) built.

(** The submatches of the method's combined expression on [path] and
    the index the scan of [ServeHTTP] stops at. *)
Definition scan_of (r : Router) (method path : string) : option (list string * nat) :=
  match Map.lookup method (combinedRegexps r) with
  | Some re =>
      match Regexp.FindStringSubmatch re path with
      | Some matches => Some (matches, first_nonempty (tl matches) 1)
      | None => None
      end
  | None => None
  end.

(** What a method's route list holds at an index: nothing there, the
    [nil] filler, or a route (shown by its expression and parameters). *)
Inductive slot : Type :=
| OutOfRange
| Nil
| Route (reg : string) (params : list string).

Definition slot_at (r : Router) (method : string) (i : nat) : slot :=
  match Map.lookup method (routes r) with
  | Some l =>
      match nth_error l i with
      | Some (Some rt) => Route (reg rt) (params rt)
      | Some None => Nil
      | None => OutOfRange
      end
  | None => OutOfRange
  end.

(** [TestParams]. *)
Definition users_router (h1 h2 h3 : Handler) : option Router :=
  Get New "/users" h1 [] >>= fun r =>
  Get r "/users/<id:\d+>" h2 [] >>= fun r =>
  Get r "/users/<id:\d+>/posts/<title>" h3 [] >>=
  Prepare.

(** A sub-expression with a group of its own, then a plain route. *)
Definition choice_router (h1 h2 : Handler) : option Router :=
  Get New "/x/<id:(a|b)>" h1 [] >>= fun r =>
  Get r "/y" h2 [] >>=
  Prepare.

(** One route without a trailing slash, strict policy. *)
Definition strict_router (h : Handler) : option Router :=
  Get New "/users" h [] >>=
  Prepare >>= fun r =>
  Some (set_TrailingSlashesPolicy StrictTrailingSlashes r).

(** [TestRouter_Group4]. *)
Definition groups_router (h0 h1 h2 h3 : Handler) : option Router :=
  Get New "/" h0 [] >>= fun r =>
  Group r "v1" >>=
  in_group "v1" (fun v1 => Get v1 "/" h1 []) >>= fun r =>
  Group r "v2" >>=
  in_group "v2" (fun v2 => Get v2 "/" h2 [] >>= fun v2 => Get v2 "/users" h3 []) >>=
  Prepare.

(** Root, group and route middleware around one handler. *)
Definition layered_config (M1 M2 M3 : Middleware) (H : Handler) : option Router :=
  Group (set_Middleware [M1] New) "v1" >>=
  in_group "v1" (fun v1 => Get (set_Middleware [M2] v1) "/users" H [M3]).

Definition layered_router (M1 M2 M3 : Middleware) (H : Handler) : option Router :=
  layered_config M1 M2 M3 H >>= Prepare.

(** A middleware and a handler that leave their names in the body. *)
Definition tracing (name : string) : Middleware :=
  fun next w req => next (http.Write name w) req.

(** [TestRouter_MethodNotAllowedHandler]. *)
Definition post_router (h : Handler) : option Router :=
  Post New "/users" h [] >>=
  Prepare.

(** A prepared router to try things on. *)
Definition demo_router : Router :=
  match post_router emptyHandler with
  | Some r => r
  | None => New
  end.

Definition demo_layers : Router :=
  match layered_config (tracing "M1,") (tracing "M2,") (tracing "M3,") (helloHandler "H") with
  | Some r => r
  | None => New
  end.

Definition demo_layers_prepared : Router :=
  match Prepare demo_layers with
  | Some r => r
  | None => New
  end.

(** One POST route with a parameter and a trailing slash, under a
    trailing slashes policy. *)
Definition slashes_router (policy : Z) : Router :=
  match Post New "/users/<id>/" (helloHandler "user") [] >>= Prepare with
  | Some r => set_TrailingSlashesPolicy policy r
  | None => New
  end.

(** A panic handler that answers 500 with what was recovered, on the
    router whose scan runs past the route list. *)
Definition recoverHandler : ResponseWriter -> Request -> string -> Outcome :=
  fun w _ rcv => Returned (http.Error w rcv 500).

Definition guarded_router : Router :=
  match choice_router emptyHandler emptyHandler with
  | Some r => set_PanicHandler (Some recoverHandler) r
  | None => New
  end.

(** The prepared layers, with handlers and a policy set on the group. *)
Definition demo_layers_tweaked : Router :=
  match in_group "v1"
                 (fun v1 =>
                    Some (set_TrailingSlashesPolicy
                            RemoveTrailingSlashes
                            (set_NotFoundHandler (Some emptyHandler)
                               (set_PanicHandler (Some recoverHandler) v1))))
                 demo_layers_prepared with
  | Some r => r
  | None => New
  end.

(** The GET table of [users_router]: the route list, the combined
    expression and its alternatives. *)
Definition users_routes : list (option route) :=
  match users_router emptyHandler emptyHandler emptyHandler with
  | Some r => match Map.lookup "GET" (routes r) with
              | Some l => l
              | None => []
              end
  | None => []
  end.

Definition users_regexp : Regexp.t :=
  match users_router emptyHandler emptyHandler emptyHandler with
  | Some r => match Map.lookup "GET" (combinedRegexps r) with
              | Some re => re
              | None => Regexp.mk Regexp.Eps 0
              end
  | None => Regexp.mk Regexp.Eps 0
  end.

Definition users_alternatives : list (nat * Regexp.regex) :=
  match Regexp.prog users_regexp with
  | Regexp.Cat Regexp.Bol (Regexp.Cat X Regexp.Eol) => Regexp.alternatives X
  | _ => []
  end.

(** A parser expression with one group only: [<([^/]+)>]. *)
Definition one_group_regexp : Regexp.t :=
  Eval vm_compute in
    match Regexp.Compile "<([^/]+)>" with
    | Some re => re
    | None => Regexp.mk Regexp.Eps 0
    end.

(** * Properties *)

(** ** Strings *)

Module StrFacts.

Lemma append_assoc (a b c : string) : (a ++ b) ++ c = a ++ (b ++ c).
Proof. induction a; simpl; congruence. Qed.

Lemma append_nil_r (a : string) : a ++ "" = a.
Proof. induction a; simpl; congruence. Qed.

Lemma length_append (a b : string) : String.length (a ++ b) = String.length a + String.length b.
Proof. induction a; simpl; congruence. Qed.

Lemma take_append (a b : string) : Str.take (String.length a) (a ++ b) = a.
Proof. induction a; simpl; congruence. Qed.

Lemma drop_append (a b : string) : Str.drop (String.length a) (a ++ b) = b.
Proof. induction a; simpl; congruence. Qed.

(** What was matched, from the text before and the text after. *)
Lemma take_matched (a b : string) :
  Str.take (String.length (a ++ b) - String.length b) (a ++ b) = a.
Proof.
  rewrite length_append, Nat.add_sub. apply take_append.
Qed.

Lemma take_within (n : nat) (a b : string) :
  n <= String.length a -> Str.take n (a ++ b) = Str.take n a.
Proof.
  revert n. induction a as [|x a IH]; simpl; intros [|n] H; try reflexivity; try lia.
  simpl. f_equal. apply IH. lia.
Qed.

Lemma length_zero (a : string) : String.length a <= 0 -> a = "".
Proof. destruct a; simpl; [reflexivity|lia]. Qed.

Lemma take_all (s : string) : Str.take (String.length s) s = s.
Proof. induction s; simpl; congruence. Qed.

Lemma mem_append c (a b : string) : Str.mem c (a ++ b) = Str.mem c a || Str.mem c b.
Proof. induction a as [|x a IH]; cbn [append Str.mem]; [reflexivity|]. now rewrite IH, orb_assoc. Qed.

Lemma last_no_slash (s : string) : Str.mem "/" s = false -> Str.last s <> Some "/"%char.
Proof.
  induction s as [|a s IH]; cbn [Str.mem]; [discriminate|].
  intros H. apply orb_false_elim in H. destruct H as [Ha H].
  simpl. destruct s as [|a' s]; [|now apply IH].
  intros [= ->]. now rewrite Ascii.eqb_refl in Ha.
Qed.

Lemma last_append (a b : string) : b <> "" -> Str.last (a ++ b) = Str.last b.
Proof.
  intros Hb. induction a as [|x a IH]; [reflexivity|].
  cbn [append]. simpl. rewrite IH.
  destruct (a ++ b) eqn:E; [|reflexivity].
  destruct a; simpl in E; [congruence|discriminate].
Qed.

Lemma chop_append (a b : string) : b <> "" -> Str.chop (a ++ b) = a ++ Str.chop b.
Proof.
  intros Hb. induction a as [|x a IH]; [reflexivity|].
  cbn [append]. simpl. rewrite IH.
  destruct (a ++ b) eqn:E; [|reflexivity].
  destruct a; simpl in E; [congruence|discriminate].
Qed.

End StrFacts.

(** ** Maps *)

Module MapFacts.

Lemma lookup_insert {A} (k : string) (v : A) m :
  Map.lookup k (Map.insert k v m) = Some v.
Proof.
  induction m as [|[k' v'] m IH]; simpl.
  - now rewrite String.eqb_refl.
  - destruct (k =? k')%string eqn:E; simpl.
    + now rewrite String.eqb_refl.
    + now rewrite E.
Qed.

Lemma lookup_insert_ne {A} (k k' : string) (v : A) m :
  k <> k' -> Map.lookup k' (Map.insert k v m) = Map.lookup k' m.
Proof.
  intros Hne. induction m as [|[k0 v0] m IH]; simpl.
  - destruct (k' =? k)%string eqn:E; [|reflexivity].
    apply String.eqb_eq in E. congruence.
  - destruct (k =? k0)%string eqn:E; simpl.
    + apply String.eqb_eq in E. subst k0.
      destruct (k' =? k)%string eqn:E'; [|reflexivity].
      apply String.eqb_eq in E'. congruence.
    + now rewrite IH.
Qed.

(** Writing the value a key already has changes nothing. *)
Lemma insert_same {A} (k : string) (v : A) m :
  Map.lookup k m = Some v -> Map.insert k v m = m.
Proof.
  induction m as [|[k' v'] m IH]; simpl; [discriminate|].
  destruct (k =? k')%string eqn:E.
  - apply String.eqb_eq in E. now intros [= ->]; subst.
  - intros H. now rewrite IH.
Qed.

(** Writing to a key that is present keeps the keys where they are. *)
Lemma insert_keys {A} (k : string) (v : A) m :
  Map.lookup k m <> None -> map fst (Map.insert k v m) = map fst m.
Proof.
  induction m as [|[k' v'] m IH]; simpl; [congruence|].
  destruct (k =? k')%string eqn:E; simpl.
  - apply String.eqb_eq in E. now subst.
  - intros H. now rewrite IH.
Qed.

Lemma lookup_in_keys {A} (k : string) (m : list (string * A)) :
  In k (map fst m) -> Map.lookup k m <> None.
Proof.
  induction m as [|[k' v'] m IH]; simpl; [tauto|].
  destruct (k =? k')%string eqn:E; [discriminate|].
  intros [->|H]; [|auto].
  now rewrite String.eqb_refl in E.
Qed.

End MapFacts.

(** ** The matcher *)

Module RegexpFacts.
Import Regexp StrFacts.

Lemma set_cap_length i v c : length (set_cap i v c) = length c.
Proof.
  revert i. induction c as [|x c IH]; intros [|i]; simpl; auto.
Qed.

Lemma set_cap_other i v c j : j <> i -> nth_error (set_cap i v c) j = nth_error c j.
Proof.
  revert i j. induction c as [|x c IH]; intros [|i] [|j] H; simpl; auto; try congruence.
Qed.

Lemma set_cap_same i v c : i < length c -> nth_error (set_cap i v c) i = Some (Some v).
Proof.
  revert i. induction c as [|x c IH]; intros [|i] H; simpl in *; try lia; auto.
  apply IH. lia.
Qed.

(** A success of the loop is a success of what follows it, provided
    an iteration is like that. *)
Lemma star_loop_frame F iter greedy k :
  (forall s c k' res, iter s c k' = Some res -> reaches F s c k' res) ->
  forall fuel s c res,
    star_loop iter greedy k fuel s c = Some res -> reaches F s c k res.
Proof.
  intros Hiter. induction fuel as [|fuel IH]; intros s c res; simpl.
  - intros H. exists s, c. auto.
  - assert (Hagain : forall res,
               iter s c (fun s' c' =>
                           if String.length s' <? String.length s
                           then star_loop iter greedy k fuel s' c' else None) = Some res ->
               reaches F s c k res).
    { intros res' H. apply Hiter in H. destruct H as (s1 & c1 & Hs1 & Hc1 & Hf1 & H).
      destruct (String.length s1 <? String.length s); [|discriminate].
      apply IH in H. destruct H as (s2 & c2 & Hs2 & Hc2 & Hf2 & H).
      exists s2, c2. split; [lia|]. split; [congruence|]. split; [|exact H].
      intros i Hi. now rewrite Hf2, Hf1. }
    destruct greedy.
    + destruct (iter s c _) as [res'|] eqn:E.
      * intros [= <-]. now apply Hagain.
      * intros H. exists s, c. auto.
    + destruct (k s c) as [res'|] eqn:E.
      * intros [= <-]. exists s, c. auto.
      * apply Hagain.
Qed.

Lemma run_frame n r :
  forall s c k res, run n r s c k = Some res -> reaches (groups_in r) s c k res.
Proof.
  induction r as [|a|neg rs| | |r1 IH1 r2 IH2|r1 IH1 r2 IH2|greedy r1 IH1|i r1 IH1];
    intros s c k res; simpl.
  - intros H. exists s, c. auto.
  - destruct s as [|b s]; [discriminate|]. destruct (Ascii.eqb a b); [|discriminate].
    intros H. exists s, c. simpl. auto.
  - destruct s as [|b s]; [discriminate|]. destruct (in_set neg rs b); [|discriminate].
    intros H. exists s, c. simpl. auto.
  - destruct (String.length s =? n); [|discriminate]. intros H. exists s, c. auto.
  - destruct s; [|discriminate]. intros H. exists "", c. auto.
  - intros H. apply IH1 in H. destruct H as (s1 & c1 & Hs1 & Hc1 & Hf1 & H).
    apply IH2 in H. destruct H as (s2 & c2 & Hs2 & Hc2 & Hf2 & H).
    exists s2, c2. split; [lia|]. split; [congruence|]. split; [|exact H].
    intros i Hi. rewrite Hf2, Hf1; auto; intros Hin; apply Hi, in_or_app; auto.
  - destruct (run n r1 s c k) as [res'|] eqn:E.
    + intros [= <-]. apply IH1 in E. destruct E as (s1 & c1 & Hs1 & Hc1 & Hf1 & E).
      exists s1, c1. split; [exact Hs1|]. split; [exact Hc1|]. split; [|exact E].
      intros i Hi. apply Hf1. intros Hin. apply Hi, in_or_app. auto.
    + intros H. apply IH2 in H. destruct H as (s1 & c1 & Hs1 & Hc1 & Hf1 & H).
      exists s1, c1. split; [exact Hs1|]. split; [exact Hc1|]. split; [|exact H].
      intros j Hj. apply Hf1. intros Hin. apply Hj, in_or_app. auto.
  - apply star_loop_frame. intros s0 c0 k' res'. apply IH1.
  - intros H. apply IH1 in H. destruct H as (s1 & c1 & Hs1 & Hc1 & Hf1 & H).
    eexists s1, _. split; [exact Hs1|]. split; [|split; [|exact H]].
    + now rewrite set_cap_length.
    + intros j Hj. rewrite set_cap_other by (intros ->; apply Hj; now left).
      apply Hf1. intros Hin. apply Hj. now right.
Qed.

Lemma run_sound n r s c k res :
  run n r s c k = Some res ->
  exists s' c', String.length s' <= String.length s /\ length c' = length c
                /\ k s' c' = Some res.
Proof.
  intros H. apply run_frame in H. destruct H as (s' & c' & Hs & Hc & _ & H).
  now exists s', c'.
Qed.

Lemma exec_here_sound re n s rest c :
  exec_here re n s = Some (rest, c) ->
  String.length rest <= String.length s /\ length c = S (numSubexp re).
Proof.
  unfold exec_here. intros H. apply run_sound in H.
  destruct H as (s' & c' & Hs & Hc & H). unfold finish in H. injection H as <- <-.
  split; [exact Hs|]. rewrite Hc. apply repeat_length.
Qed.

(** A match found by [search] starts after the skipped part and its
    rest is part of what follows. *)
Lemma search_sound re n s :
  forall skipped rest c,
    search re n s = Some (skipped, rest, c) ->
    exists here,
      s = skipped ++ here /\ exec_here re n here = Some (rest, c)
      /\ String.length rest <= String.length here /\ length c = S (numSubexp re).
Proof.
  induction s as [|a s IH]; intros skipped rest c; simpl.
  - destruct (exec_here re n "") as [[rest' c']|] eqn:E; [|discriminate].
    intros [= <- <- <-]. exists "". destruct (exec_here_sound _ _ _ E). auto.
  - destruct (exec_here re n (String a s)) as [[rest' c']|] eqn:E.
    + intros [= <- <- <-]. exists (String a s). destruct (exec_here_sound _ _ _ E). auto.
    + destruct (search re n s) as [[[sk r'] c']|] eqn:E'; [|discriminate].
      intros [= <- <- <-]. destruct (IH _ _ _ eq_refl) as (here & -> & H).
      now exists here.
Qed.

Lemma submatches_length c : length (submatches c) = length c.
Proof. apply length_map. Qed.

Lemma in_lits m (x : string) :
  ~ In (inr m) (lits x).
Proof.
  unfold lits. intros H. apply in_map_iff in H. now destruct H as (? & ? & _).
Qed.

(** Every match of a walk has one entry per group, and one for the
    whole match. *)
Lemma scan_lengths re n fuel :
  forall s prev m,
    In (inr m) (scan fuel re n s prev) -> length m = S (numSubexp re).
Proof.
  induction fuel as [|fuel IH]; intros s prev m; simpl.
  - intros H. now apply in_lits in H.
  - destruct (search re n s) as [[[skipped rest] c]|] eqn:E.
    + apply search_sound in E. destruct E as (here & _ & _ & _ & Hc).
      assert (Hm : length (submatches c) = S (numSubexp re))
        by now rewrite submatches_length.
      intros H. apply in_app_or in H. destruct H as [H|H]; [now apply in_lits in H|].
      destruct (String.length rest <? _).
      * destruct H as [[= <-]|H]; [exact Hm | eauto].
      * apply in_app_or in H. destruct H as [H|H].
        -- destruct skipped; [destruct prev|]; simpl in H;
             try tauto; destruct H as [[= <-]|[]]; exact Hm.
        -- destruct rest as [|a rest]; [destruct H|].
           destruct H as [[=]|H]. eauto.
    + intros H. now apply in_lits in H.
Qed.

Lemma matches_of_app es1 es2 :
  matches_of (es1 ++ es2) = (matches_of es1 ++ matches_of es2)%list.
Proof. apply flat_map_app. Qed.

Lemma matches_of_lits (x : string) :
  matches_of (lits x) = [].
Proof.
  unfold matches_of, lits. induction (list_ascii_of_string x); simpl; auto.
Qed.

Lemma in_matches_of m es : In m (matches_of es) -> In (inr m) es.
Proof.
  unfold matches_of. intros H. apply in_flat_map in H.
  destruct H as ([a|m'] & Hin & H); simpl in H; [tauto|].
  destruct H as [->|[]]. exact Hin.
Qed.

(** A walk without a match is the text, byte by byte. *)
Lemma walk_no_match re (s : string) :
  matches_of (walk re s) = [] ->
  walk re s = lits s.
Proof.
  unfold walk. simpl.
  destruct (search re (String.length s) s) as [[[skipped rest] c]|]; [|reflexivity].
  rewrite matches_of_app, matches_of_lits. simpl.
  destruct (String.length rest <? _); [discriminate|].
  rewrite matches_of_app. destruct skipped; discriminate.
Qed.

Lemma extend_orelse z (a b : result) :
  extend z (match a with Some v => Some v | None => b end)
  = match extend z a with Some v => Some v | None => extend z b end.
Proof. now destruct a as [[? ?]|]. Qed.

Section Local.

Variable b : ascii.
Variable z : string.
Hypothesis Hz : boundary b z.

Lemma star_loop_local iter iter' greedy k k' :
  (forall x c K K', agree z K K' -> iter (x ++ z) c K = extend z (iter' x c K')) ->
  (forall s c K res,
      iter' s c K = Some res ->
      exists s' c', String.length s' <= String.length s /\ length c' = length c
                    /\ K s' c' = Some res) ->
  agree z k k' ->
  forall fuel fuel' x c,
    String.length x <= fuel -> String.length x <= fuel' ->
    star_loop iter greedy k fuel (x ++ z) c
    = extend z (star_loop iter' greedy k' fuel' x c).
Proof.
  intros Hiter Hsound Hk.
  (* one more iteration, whatever the two amounts of fuel *)
  assert (Hagain : forall x c (loop loop' : string -> caps -> result),
             (forall x', String.length x' < String.length x ->
                         forall c', loop (x' ++ z) c' = extend z (loop' x' c')) ->
             iter (x ++ z) c
                  (fun s' c' => if String.length s' <? String.length (x ++ z)
                                then loop s' c' else None)
             = extend z (iter' x c
                               (fun s' c' => if String.length s' <? String.length x
                                             then loop' s' c' else None))).
  { intros x c loop loop' Hloop. apply Hiter. intros x' c'.
    rewrite !length_append.
    destruct (String.length x' <? String.length x) eqn:E.
    - apply Nat.ltb_lt in E.
      replace (String.length x' + String.length z <? String.length x + String.length z)
        with true by (symmetry; apply Nat.ltb_lt; lia).
      now apply Hloop.
    - apply Nat.ltb_ge in E.
      replace (String.length x' + String.length z <? String.length x + String.length z)
        with false by (symmetry; apply Nat.ltb_ge; lia).
      reflexivity. }
  (* with nothing left to consume an iteration fails *)
  assert (Hstuck : forall c (loop : string -> caps -> result),
             iter' "" c (fun s' c' => if String.length s' <? 0 then loop s' c' else None)
             = None).
  { intros c loop. destruct (iter' "" c _) as [res|] eqn:E; [|reflexivity].
    apply Hsound in E. destruct E as (s' & c' & _ & _ & E). discriminate. }
  induction fuel as [|fuel IH]; intros fuel' x c Hf Hf'.
  - apply length_zero in Hf as ->.
    destruct fuel' as [|fuel']; [exact (Hk "" c)|].
    cbn [star_loop]. rewrite Hstuck.
    change (k ("" ++ z) c
            = extend z (if greedy
                        then k' "" c
                        else match k' "" c with Some v => Some v | None => None end)).
    rewrite (Hk "" c). destruct greedy; [reflexivity|].
    now destruct (k' "" c) as [[? ?]|].
  - destruct fuel' as [|fuel'].
    + apply length_zero in Hf' as ->.
      cbn [star_loop].
      rewrite (Hagain "" c _ (fun _ _ => None)) by (simpl; lia).
      rewrite Hstuck. cbn [extend].
      rewrite (Hk "" c). destruct greedy; [reflexivity|].
      now destruct (extend z (k' "" c)).
    + cbn [star_loop].
      rewrite (Hagain x c _ (star_loop iter' greedy k' fuel'))
        by (intros x' Hx' c'; apply IH; lia).
      destruct greedy; rewrite extend_orelse, (Hk x c); reflexivity.
Qed.

(** An expression that avoids [b] matches on a text that goes on with
    [z] as it does on the text alone. *)
Lemma run_local r :
  avoids b r = true ->
  forall n n' x c k k',
    agree z k k' -> run n r (x ++ z) c k = extend z (run n' r x c k').
Proof.
  induction r as [|a|neg rs| | |r1 IH1 r2 IH2|r1 IH1 r2 IH2|greedy r1 IH1|i r1 IH1];
    simpl; intros Hr n n' x c k k' Hk; try discriminate.
  - apply Hk.
  - destruct x as [|d x]; simpl.
    + destruct z as [|e z']; [reflexivity|]. simpl in Hz. subst e.
      apply negb_true_iff in Hr. now rewrite Hr.
    + destruct (Ascii.eqb a d); [apply Hk|reflexivity].
  - destruct x as [|d x]; simpl.
    + destruct z as [|e z']; [reflexivity|]. simpl in Hz. subst e.
      apply negb_true_iff in Hr. now rewrite Hr.
    + destruct (in_set neg rs d); [apply Hk|reflexivity].
  - apply andb_prop in Hr. destruct Hr as [Hr1 Hr2].
    apply IH1; [exact Hr1|]. intros x' c'. now apply IH2.
  - apply andb_prop in Hr. destruct Hr as [Hr1 Hr2].
    rewrite extend_orelse.
    rewrite (IH1 Hr1 n n' x c k k' Hk), (IH2 Hr2 n n' x c k k' Hk). reflexivity.
  - apply star_loop_local.
    + intros x0 c0 K K' HK. now apply IH1.
    + intros s c0 K res. apply run_sound.
    + exact Hk.
    + rewrite length_append. lia.
    + lia.
  - apply IH1; [exact Hr|]. intros x' c'.
    rewrite (Hk x'). do 2 f_equal. f_equal.
    rewrite !length_append.
    replace (String.length x + String.length z - (String.length x' + String.length z))
      with (String.length x - String.length x') by lia.
    apply take_within. lia.
Qed.

End Local.

Lemma extend_nil (o : result) : extend "" o = o.
Proof. destruct o as [[rest c]|]; simpl; [now rewrite append_nil_r|reflexivity]. Qed.

Lemma lits_app (x y : string) : lits (x ++ y) = (lits x ++ lits y)%list.
Proof. unfold lits. induction x; simpl; congruence. Qed.

Lemma scan_S fuel re n s prev :
  scan (S fuel) re n s prev
  = match search re n s with
    | None => lits s
    | Some (skipped, rest, c) =>
        (lits skipped ++
         if String.length rest <? String.length (Str.drop (String.length skipped) s)
         then inr (submatches c) :: scan fuel re n rest true
         else
           (match skipped with
            | EmptyString => if prev then [] else [inr (submatches c)]
            | _ => [inr (submatches c)]
            end ++
            match rest with
            | EmptyString => []
            | String a rest' => inl a :: scan fuel re n rest' false
            end))%list
    end.
Proof. reflexivity. Qed.

Section Slash.

Variable re : Regexp.t.
Variable b : ascii.
Hypothesis Hre : avoids b (prog re) = true.

Lemma exec_here_local n n' x z :
  boundary b z -> exec_here re n (x ++ z) = extend z (exec_here re n' x).
Proof.
  intros Hz. unfold exec_here. apply run_local with (b := b); auto.
  intros x' c'. reflexivity.
Qed.

(** Without an anchor the length of the whole text plays no part. *)
Lemma exec_here_anywhere n n' x : exec_here re n x = exec_here re n' x.
Proof.
  rewrite <- (append_nil_r x) at 1.
  rewrite (@exec_here_local n n' x ""); [apply extend_nil|exact I].
Qed.

Lemma search_anywhere n n' s : search re n s = search re n' s.
Proof.
  induction s as [|a s IH]; simpl; rewrite (exec_here_anywhere n n'); [reflexivity|].
  now rewrite IH.
Qed.

(** The leftmost match in [x ++ b :: y] is the leftmost match in [x]
    or, when there is none, the leftmost match in [y]. *)
Lemma search_local n n1 n2 y x :
  search re n (x ++ String b y)
  = match search re n1 x with
    | Some (skipped, rest, c) => Some (skipped, rest ++ String b y, c)
    | None =>
        match search re n2 y with
        | Some (skipped, rest, c) => Some (x ++ String b skipped, rest, c)
        | None => None
        end
    end.
Proof.
  assert (Hz : boundary b (String b y)) by reflexivity.
  induction x as [|a x IH].
  - change (search re n ("" ++ String b y)) with
      (match exec_here re n ("" ++ String b y) with
       | Some (rest, c) => Some ("", rest, c)
       | None =>
           match search re n y with
           | Some (skipped, rest, c) => Some (String b skipped, rest, c)
           | None => None
           end
       end).
    rewrite (@exec_here_local n n1 "" _ Hz). simpl search at 2.
    destruct (exec_here re n1 "") as [[rest c]|]; simpl; [reflexivity|].
    now rewrite (search_anywhere n n2).
  - change (search re n (String a x ++ String b y)) with
      (match exec_here re n (String a x ++ String b y) with
       | Some (rest, c) => Some ("", rest, c)
       | None =>
           match search re n (x ++ String b y) with
           | Some (skipped, rest, c) => Some (String a skipped, rest, c)
           | None => None
           end
       end).
    rewrite (@exec_here_local n n1 (String a x) _ Hz), IH. simpl search at 3.
    destruct (exec_here re n1 (String a x)) as [[rest c]|]; simpl; [reflexivity|].
    destruct (search re n1 x) as [[[sk rest] c]|]; [reflexivity|].
    now destruct (search re n2 y) as [[[sk rest] c]|].
Qed.

(** Neither the fuel, once there is enough of it, nor the length of
    the whole text changes a walk. *)
Lemma scan_irrelevant fuel :
  forall fuel' n n' s prev,
    String.length s < fuel -> String.length s < fuel' ->
    scan fuel re n s prev = scan fuel' re n' s prev.
Proof.
  induction fuel as [|fuel IH]; intros [|fuel'] n n' s prev Hf Hf'; try lia.
  rewrite !scan_S, (search_anywhere n n').
  destruct (search re n' s) as [[[skipped rest] c]|] eqn:E; [|reflexivity].
  apply search_sound in E. destruct E as (here & -> & _ & Hrest & _).
  rewrite drop_append. rewrite length_append in Hf, Hf'.
  f_equal. destruct (String.length rest <? String.length here) eqn:Elt.
  - apply Nat.ltb_lt in Elt. f_equal. apply IH; lia.
  - f_equal. destruct rest as [|a rest]; [reflexivity|].
    simpl in Hrest. f_equal. apply IH; lia.
Qed.

Lemma scan_slash y fuel :
  forall fuel1 fuel2 n n1 n2 x prev,
    String.length (x ++ String b y) < fuel ->
    String.length x < fuel1 -> String.length y < fuel2 ->
    scan fuel re n (x ++ String b y) prev
    = (scan fuel1 re n1 x prev ++ inl b :: scan fuel2 re n2 y false)%list.
Proof.
  induction fuel as [|fuel IH]; intros [|fuel1] [|fuel2] n n1 n2 x prev Hf Hf1 Hf2; try lia.
  rewrite (scan_S fuel), (scan_S fuel1), (search_local n n1 n2).
  rewrite length_append in Hf. simpl in Hf.
  destruct (search re n1 x) as [[[skipped rest] c]|] eqn:E.
  - apply search_sound in E. destruct E as (here & -> & _ & Hrest & _).
    rewrite append_assoc, !drop_append, !length_append.
    rewrite length_append in Hf, Hf1.
    rewrite <- app_assoc. f_equal.
    destruct (String.length rest <? String.length here) eqn:Elt.
    + replace (String.length rest + String.length (String b y)
               <? String.length here + String.length (String b y)) with true
        by (symmetry; apply Nat.ltb_lt; apply Nat.ltb_lt in Elt; lia).
      apply Nat.ltb_lt in Elt. cbn [app]. f_equal.
      apply IH; [rewrite length_append; cbn [String.length]|..]; lia.
    + replace (String.length rest + String.length (String b y)
               <? String.length here + String.length (String b y)) with false
        by (symmetry; apply Nat.ltb_ge; apply Nat.ltb_ge in Elt; lia).
      rewrite <- app_assoc. f_equal.
      destruct rest as [|a rest]; cbn [append app].
      * f_equal. apply scan_irrelevant; lia.
      * cbn [String.length] in Hrest. f_equal.
        apply IH; [rewrite length_append; cbn [String.length]|..]; lia.
  - rewrite (scan_S fuel2).
    destruct (search re n2 y) as [[[skipped rest] c]|] eqn:E2.
    + apply search_sound in E2. destruct E2 as (here & -> & _ & Hrest & _).
      replace (x ++ String b (skipped ++ here)) with ((x ++ String b skipped) ++ here)
        by (now rewrite append_assoc).
      rewrite !drop_append.
      rewrite lits_app. change (lits (String b skipped)) with (inl b :: lits skipped).
      rewrite <- app_assoc. f_equal. cbn [app]. f_equal. f_equal.
      cbn [String.length] in Hf2. rewrite length_append in Hf, Hf2.
      destruct (String.length rest <? String.length here) eqn:Elt.
      * apply Nat.ltb_lt in Elt. f_equal. apply scan_irrelevant; lia.
      * f_equal.
        -- destruct x; destruct skipped; reflexivity.
        -- destruct rest as [|a rest]; [reflexivity|]. cbn [String.length] in Hrest.
           f_equal. apply scan_irrelevant; lia.
    + now rewrite lits_app.
Qed.

(** The walk over a text with a [b] in it is the walk over what comes
    before, the [b], and the walk over what comes after. *)
Lemma walk_slash x y :
  walk re (x ++ String b y) = (walk re x ++ inl b :: walk re y)%list.
Proof.
  unfold walk. apply scan_slash; lia.
Qed.

End Slash.

Lemma run_cat n r1 r2 s c k :
  run n (Cat r1 r2) s c k = run n r1 s c (fun s' c' => run n r2 s' c' k).
Proof. reflexivity. Qed.

Lemma run_cap n i r s c k :
  run n (Cap i r) s c k
  = run n r s c (fun s' c' =>
                   k s' (set_cap i (Str.take (String.length s - String.length s') s) c')).
Proof. reflexivity. Qed.

Lemma run_lit n a s c k : run n (Lit a) (String a s) c k = k s c.
Proof. simpl. now rewrite Ascii.eqb_refl. Qed.

Lemma run_set n neg rs a s c k :
  in_set neg rs a = true -> run n (Set_ neg rs) (String a s) c k = k s c.
Proof. simpl. now intros ->. Qed.

Lemma star_set_greedy n neg rs k :
  forall u v c fuel,
    all_in neg rs u = true -> stops neg rs v = true -> String.length u <= fuel ->
    star_loop (run n (Set_ neg rs)) true k fuel (u ++ v) c = greedy_try k u v c.
Proof.
  induction u as [|a u IH]; intros v c fuel Hu Hv Hfuel.
  - destruct fuel as [|fuel]; [reflexivity|].
    cbn [star_loop append greedy_try].
    destruct v as [|d v]; [reflexivity|]. simpl in Hv. apply negb_true_iff in Hv.
    simpl. now rewrite Hv.
  - destruct fuel as [|fuel]; [simpl in Hfuel; lia|].
    simpl in Hu. apply andb_prop in Hu. destruct Hu as [Ha Hu].
    cbn [star_loop append greedy_try].
    rewrite run_set by exact Ha.
    replace (String.length (u ++ v) <? String.length (String a (u ++ v))) with true
      by (symmetry; apply Nat.ltb_lt; simpl; lia).
    rewrite IH; auto. simpl in Hfuel. lia.
Qed.

(** [x+] for a class [x], on a run of bytes of the class. *)
Lemma run_plus_set n neg rs a u v c k :
  all_in neg rs (String a u) = true -> stops neg rs v = true ->
  run n (plus true (Set_ neg rs)) (String a u ++ v) c k = greedy_try k u v c.
Proof.
  intros Hu Hv. simpl in Hu. apply andb_prop in Hu. destruct Hu as [Ha Hu].
  unfold plus. rewrite run_cat. cbn [append]. rewrite run_set by exact Ha.
  change (run n (Star true (Set_ neg rs)) (u ++ v) c k)
    with (star_loop (run n (Set_ neg rs)) true k (String.length (u ++ v)) (u ++ v) c).
  apply star_set_greedy; auto. rewrite length_append. lia.
Qed.

Lemma run_plus_set_end n neg rs a u c k :
  all_in neg rs (String a u) = true ->
  run n (plus true (Set_ neg rs)) (String a u) c k = greedy_try k u "" c.
Proof.
  intros Hu. rewrite <- (append_nil_r (String a u)). now apply run_plus_set.
Qed.

Lemma run_alt_first n r1 r2 s c k res :
  run n r1 s c k = Some res -> run n (Alt r1 r2) s c k = Some res.
Proof. simpl. now intros ->. Qed.

Lemma greedy_try_first k u v c res :
  k v c = Some res -> greedy_try k u v c = Some res.
Proof.
  intros H. induction u as [|a u IH]; simpl; [exact H|]. now rewrite IH.
Qed.

Lemma greedy_try_snoc k a v c :
  forall u,
    greedy_try k (u ++ String a "") v c
    = match k v c with
      | Some res => Some res
      | None => greedy_try k u (String a v) c
      end.
Proof.
  induction u as [|d u IH]; cbn [append greedy_try].
  - reflexivity.
  - rewrite IH, append_assoc. cbn [append].
    now destruct (k v c).
Qed.

Lemma all_in_app neg rs u v :
  all_in neg rs (u ++ v) = all_in neg rs u && all_in neg rs v.
Proof.
  induction u as [|a u IH]; simpl; [reflexivity|]. now rewrite IH, andb_assoc.
Qed.

End RegexpFacts.

(** ** The default parser *)

Module ParserFacts.
Import Regexp StrFacts RegexpFacts.

Lemma render_lits (s : string) :
  render (lits s) = s.
Proof. unfold lits. induction s; simpl; congruence. Qed.

Lemma nth_error_nth (m : list string) (i : nat) :
  i < length m -> nth_error m i = Some (nth i m "").
Proof.
  revert i. induction m as [|x m IH]; intros [|i]; simpl; try lia; auto.
  intros H. apply IH. lia.
Qed.

Lemma collect_params_names (ms : list (list string)) :
  (forall m, In m ms -> 2 <= length m) ->
  collect_params ms = Some (map (fun m => nth 1 m "") ms).
Proof.
  induction ms as [|m ms IH]; cbn [collect_params map]; intros H; [reflexivity|].
  rewrite nth_error_nth by (apply H; now left).
  rewrite IH by (intros m' Hm'; apply H; now right). reflexivity.
Qed.

(** The closure with its counter replaces each match of the walk by
    what [placeholder_regexp] makes of that match. *)
Lemma replace_events_render (es : list (ascii + list string)) :
  (forall m, In (inr m) es -> 4 <= length m) ->
  forall before,
    replace_events (replacement (before ++ matches_of es))
                   (Z.of_nat (length before) - 1)%Z es
    = Some ((Z.of_nat (length before + length (matches_of es)) - 1)%Z, render es).
Proof.
  induction es as [|[a|m] es IH]; intros Hlen before.
  - simpl. now rewrite Nat.add_0_r.
  - simpl. rewrite IH by (intros m Hm; apply Hlen; now right). reflexivity.
  - assert (Hm : 4 <= length m) by (apply Hlen; now left).
    specialize (IH (fun m' Hm' => Hlen m' (or_intror Hm')) (before ++ [m])%list).
    rewrite <- app_assoc, length_app in IH. simpl in IH.
    replace (Z.of_nat (length before + 1) - 1)%Z with (Z.of_nat (length before)) in IH by lia.
    replace (length before + 1 + length (matches_of es))
      with (length before + S (length (matches_of es))) in IH by lia.
    cbn [replace_events matches_of flat_map app hd].
    fold (matches_of es).
    unfold replacement at 1.
    replace (Z.of_nat (length before) - 1 + 1)%Z with (Z.of_nat (length before)) by lia.
    destruct (Z.of_nat (length before) <? 0)%Z eqn:E; [apply Z.ltb_lt in E; lia|].
    rewrite Nat2Z.id, nth_error_app2, Nat.sub_diag by lia.
    change (nth_error (m :: matches_of es) 0) with (Some m). cbv iota.
    rewrite (@nth_error_nth m 3) by lia.
    cbn [render length]. unfold placeholder_regexp.
    destruct (negb (nth 3 m "" =? "")%string); rewrite IH; reflexivity.
Qed.

Lemma default_match_length (s : string) m :
  In (inr m) (walk defaultParserRegexp s) -> length m = 4.
Proof. apply scan_lengths. Qed.

(** [Parse] with the default parser, in closed form. *)
Lemma Parse_default (pattern : string) :
  Str.head pattern = Some "/"%char ->
  let strip := negb (pattern =? "/")%string &&
               match Str.last pattern with
               | Some d => Ascii.eqb d "/"
               | None => false
               end in
  let pattern' := if strip then Str.chop pattern else pattern in
  Parse NewParser pattern = Some (convert pattern' ++ "/?", names pattern', strip, None).
Proof.
  intros Hhead. unfold Parse. rewrite Hhead. simpl negb at 1. cbv iota.
  cbv zeta.
  set (strip := negb (pattern =? "/")%string && _).
  set (pattern' := if strip then Str.chop pattern else pattern).
  simpl reg_. unfold FindAllStringSubmatch, ReplaceAllStringFunc, convert, names, names_of.
  destruct (matches_of (walk defaultParserRegexp pattern')) as [|m ms] eqn:E.
  - rewrite (walk_no_match _ _ E), render_lits. reflexivity.
  - rewrite <- E.
    rewrite collect_params_names.
    + pose proof (@replace_events_render (walk defaultParserRegexp pattern')) as H.
      specialize (H (fun m Hm => eq_ind_r (fun n => 4 <= n) (le_n 4)
                                          (default_match_length _ _ Hm)) []).
      simpl in H. rewrite H. reflexivity.
    + intros m' Hm'. apply in_matches_of in Hm'.
      rewrite (default_match_length _ _ Hm'). lia.
Qed.

Lemma defaultParserRegexp_prog :
  prog defaultParserRegexp
  = Cat (Lit "<")
        (Cat (Cap 1 (plus true (Set_ true name_bytes)))
             (Cat (quest true (Cap 2 (Cat (Lit ":") (Cap 3 (plus true (Set_ true sub_bytes))))))
                  (Lit ">"))).
Proof. reflexivity. Qed.

Lemma search_here re n s rest c :
  exec_here re n s = Some (rest, c) -> search re n s = Some ("", rest, c).
Proof. intros H. destruct s; simpl; now rewrite H. Qed.

Lemma default_avoids_slash : avoids "/" (prog defaultParserRegexp) = true.
Proof. reflexivity. Qed.

Lemma in_range_one (a c : ascii) : in_range a (c, c) = Ascii.eqb c a.
Proof.
  unfold in_range. simpl fst. simpl snd.
  destruct (Ascii.eqb c a) eqn:E.
  - apply Ascii.eqb_eq in E. subst. now rewrite Nat.leb_refl.
  - apply Ascii.eqb_neq in E.
    destruct (nat_of_ascii c <=? nat_of_ascii a) eqn:E1; [|reflexivity].
    destruct (nat_of_ascii a <=? nat_of_ascii c) eqn:E2; [|reflexivity].
    apply Nat.leb_le in E1, E2. exfalso. apply E.
    rewrite <- (ascii_nat_embedding c), <- (ascii_nat_embedding a).
    f_equal. lia.
Qed.

Lemma name_bytes_mem (s : string) :
  Str.mem "/" s = false -> Str.mem ":" s = false -> all_in true name_bytes s = true.
Proof.
  induction s as [|a s IH]; cbn [Str.mem all_in]; [reflexivity|].
  intros H1 H2. apply orb_false_elim in H1, H2.
  destruct H1 as [H1 H1'], H2 as [H2 H2'].
  rewrite IH by assumption. unfold in_set, name_bytes. cbn [existsb].
  now rewrite !in_range_one, H1, H2.
Qed.

Lemma sub_bytes_mem (s : string) :
  Str.mem "/" s = false -> all_in true sub_bytes s = true.
Proof.
  induction s as [|a s IH]; cbn [Str.mem all_in]; [reflexivity|].
  intros H1. apply orb_false_elim in H1. destruct H1 as [H1 H1'].
  rewrite IH by assumption. unfold in_set, sub_bytes. cbn [existsb].
  now rewrite !in_range_one, H1.
Qed.

(** A match of the default expression starts with [<]. *)
Lemma exec_here_needs_open n (s : string) :
  Str.head s <> Some "<"%char -> exec_here defaultParserRegexp n s = None.
Proof.
  intros H. unfold exec_here. rewrite run_cap, defaultParserRegexp_prog, run_cat.
  destruct s as [|c s]; [reflexivity|].
  cbn [run]. destruct (Ascii.eqb "<" c) eqn:E; [|reflexivity].
  apply Ascii.eqb_eq in E. subst c. now elim H.
Qed.

Lemma search_past_literal n (lit s : string) :
  Str.mem "<" lit = false ->
  search defaultParserRegexp n (lit ++ s)
  = match search defaultParserRegexp n s with
    | Some (skipped, rest, c) => Some (lit ++ skipped, rest, c)
    | None => None
    end.
Proof.
  induction lit as [|a lit IH]; cbn [append Str.mem]; intros H.
  - now destruct (search defaultParserRegexp n s) as [[[? ?] ?]|].
  - apply orb_false_elim in H. destruct H as [Ha H].
    cbn [search]. rewrite exec_here_needs_open.
    + rewrite (IH H). now destruct (search defaultParserRegexp n s) as [[[? ?] ?]|].
    + cbn [Str.head]. intros [= E]. subst a. now rewrite Ascii.eqb_refl in Ha.
Qed.

Lemma search_literal n (lit : string) :
  Str.mem "<" lit = false -> search defaultParserRegexp n lit = None.
Proof.
  intros H. rewrite <- (append_nil_r lit), (search_past_literal n lit "" H).
  reflexivity.
Qed.

(** A greedy loop that can take [u ++ w] and whose continuation fails
    wherever it is tried inside [w] gives back all of [w]. *)
Lemma greedy_try_back k v c :
  forall w u,
    (forall w1 w2, w = w1 ++ w2 -> w1 <> "" -> k (w2 ++ v) c = None) ->
    greedy_try k (u ++ w) v c = greedy_try k u (w ++ v) c.
Proof.
  induction w as [|a w IH]; intros u Hfail.
  - now rewrite append_nil_r.
  - replace (u ++ String a w) with ((u ++ String a "") ++ w)
      by (now rewrite append_assoc).
    rewrite IH.
    + rewrite greedy_try_snoc.
      rewrite (Hfail (String a "") w eq_refl) by discriminate. reflexivity.
    + intros w1 w2 -> Hw1. apply (Hfail (String a w1) w2); [reflexivity|discriminate].
Qed.

Lemma exec_placeholder_then n (name sub lit : string) :
  name <> "" -> all_in true name_bytes name = true ->
  sub <> "" -> all_in true sub_bytes sub = true ->
  all_in true sub_bytes lit = true -> Str.mem ">" lit = false ->
  let seg := "<" ++ name ++ ":" ++ sub ++ ">" in
  exec_here defaultParserRegexp n (seg ++ lit)
  = Some (lit, [Some seg; Some name; Some (":" ++ sub); Some sub]).
Proof.
  intros Hname Hname_in Hsub Hsub_in Hlit_in Hlit seg.
  destruct name as [|a name]; [congruence|].
  destruct sub as [|d sub]; [congruence|].
  unfold exec_here. rewrite run_cap, defaultParserRegexp_prog.
  change (numSubexp defaultParserRegexp) with 3. cbn [repeat].
  unfold seg. do 3 (rewrite ?append_assoc; cbn [append]).
  rewrite run_cat, run_lit.
  rewrite run_cat, run_cap.
  change (String a (name ++ String ":" (String d (sub ++ String ">" lit))))
    with (String a name ++ String ":" (String d (sub ++ String ">" lit))).
  rewrite run_plus_set by (auto; reflexivity).
  erewrite greedy_try_first; [reflexivity|].
  rewrite take_matched.
  rewrite run_cat. unfold quest. erewrite run_alt_first; [reflexivity|].
  rewrite run_cap, run_cat, run_lit, run_cap.
  rewrite run_plus_set_end
    by (change (String d (sub ++ String ">" lit)) with (String d sub ++ String ">" lit);
        rewrite all_in_app, Hsub_in; cbn [all_in]; rewrite Hlit_in; reflexivity).
  rewrite greedy_try_back.
  - erewrite greedy_try_first; [reflexivity|].
    rewrite append_nil_r. cbv beta. cbn [run]. rewrite Ascii.eqb_refl.
    change (String ":" (String d (sub ++ String ">" lit)))
      with (String ":" (String d sub) ++ String ">" lit).
    change (String d (sub ++ String ">" lit)) with (String d sub ++ String ">" lit).
    rewrite !take_matched.
    match goal with
    | |- context [Str.take _ ?t] =>
        replace t with (seg ++ lit)
          by (unfold seg; do 3 (rewrite ?append_assoc; cbn [append]); reflexivity)
    end.
    rewrite take_matched. reflexivity.
  - intros w1 w2 Hw Hw1. destruct w1 as [|x w1]; [congruence|].
    cbn [append] in Hw. injection Hw as _ ->.
    rewrite mem_append in Hlit. apply orb_false_elim in Hlit. destruct Hlit as [_ Hw2].
    rewrite append_nil_r. cbv beta. cbn [run].
    destruct w2 as [|y w2]; [reflexivity|].
    cbn [Str.mem] in Hw2. apply orb_false_elim in Hw2. destruct Hw2 as [Hy _].
    now rewrite Hy.
Qed.

(** The walk over a segment made of literal text, a placeholder with
    a sub-expression, and literal text. *)
Lemma walk_placeholder_between (lit1 name sub lit2 : string) :
  Str.mem "<" lit1 = false ->
  name <> "" -> all_in true name_bytes name = true ->
  sub <> "" -> all_in true sub_bytes sub = true ->
  Str.mem "/" lit2 = false -> Str.mem "<" lit2 = false -> Str.mem ">" lit2 = false ->
  let seg := "<" ++ name ++ ":" ++ sub ++ ">" in
  walk defaultParserRegexp (lit1 ++ seg ++ lit2)
  = (lits lit1 ++ inr [seg; name; (":" ++ sub)%string; sub] :: lits lit2)%list.
Proof.
  intros Hlit1 Hname Hname_in Hsub Hsub_in Hlit2 Hopen Hclose seg.
  unfold walk. rewrite scan_S.
  rewrite (search_past_literal _ lit1 _ Hlit1).
  rewrite (search_here _ _ _
             (@exec_placeholder_then _ _ _ _ Hname Hname_in Hsub Hsub_in
                                     (sub_bytes_mem _ Hlit2) Hclose)).
  fold seg. rewrite append_nil_r, drop_append. f_equal.
  replace (String.length lit2 <? String.length (seg ++ lit2)) with true
    by (symmetry; apply Nat.ltb_lt; rewrite length_append; unfold seg;
        cbn [append String.length]; lia).
  f_equal.
  destruct (String.length (lit1 ++ seg ++ lit2)) as [|fuel]; [reflexivity|].
  rewrite scan_S. now rewrite (search_literal _ _ Hopen).
Qed.


Lemma render_app es1 es2 : render (es1 ++ es2) = render es1 ++ render es2.
Proof.
  induction es1 as [|[a|m] es1 IH]; simpl; [reflexivity| |]; rewrite IH;
    [reflexivity|now rewrite append_assoc].
Qed.

Lemma names_of_app es1 es2 : names_of (es1 ++ es2) = (names_of es1 ++ names_of es2)%list.
Proof. unfold names_of. now rewrite matches_of_app, map_app. Qed.

Lemma names_of_inl a es : names_of (inl a :: es) = names_of es.
Proof. reflexivity. Qed.

Lemma names_of_inr m es : names_of (inr m :: es) = nth 1 m "" :: names_of es.
Proof. reflexivity. Qed.

Lemma names_of_lits (x : string) : names_of (lits x) = [].
Proof. unfold names_of. now rewrite matches_of_lits. Qed.

(** The walk over what follows a segment that ends the text or is
    followed by a slash. *)
Lemma walk_segment_then (seg post : string) :
  post = "" \/ Str.head post = Some "/"%char ->
  walk defaultParserRegexp (seg ++ post)
  = (walk defaultParserRegexp seg ++ walk defaultParserRegexp post)%list.
Proof.
  intros [->|H].
  - rewrite append_nil_r. change (walk defaultParserRegexp "") with (@nil (ascii + list string)).
    now rewrite app_nil_r.
  - destruct post as [|c y]; [discriminate|]. injection H as ->.
    rewrite (@walk_slash _ _ default_avoids_slash seg y).
    change (String "/" y) with ("" ++ String "/" y).
    now rewrite (@walk_slash _ _ default_avoids_slash "" y).
Qed.

End ParserFacts.

(** ** The parser *)

Section ParserClaims.
Import Regexp StrFacts RegexpFacts ParserFacts.

(** C5.  With the default parser [Parse] never panics; it returns an
    error exactly when the pattern is empty or does not begin with [/],
    and the error is then the one that quotes the pattern.  For a
    pattern that begins with [/] it returns an expression, the
    parameters and the trailing slashes flag, and no error. *)
Theorem Parse_fails_iff (pattern : string) :
  exists regexp params hasTrailingSlashes err,
    Parse NewParser pattern = Some (regexp, params, hasTrailingSlashes, err)
    /\ (err <> None <-> pattern = "" \/ Str.head pattern <> Some "/"%char)
    /\ (err <> None -> err = Some (InvalidPattern pattern)).
Proof.
  destruct (Str.head pattern) as [c|] eqn:Hhead.
  - destruct (Ascii.eqb c "/") eqn:Hc.
    + apply Ascii.eqb_eq in Hc. subst c.
      eexists _, _, _, None. split; [now apply Parse_default|].
      split; [|congruence].
      split; [congruence|]. intros [->|H]; [discriminate|congruence].
    + exists "", [], false, (Some (InvalidPattern pattern)).
      unfold Parse. rewrite Hhead, Hc. simpl.
      split; [reflexivity|]. split; [|reflexivity].
      split; [|discriminate]. intros _. right. intros [= ->].
      now rewrite Ascii.eqb_refl in Hc.
  - exists "", [], false, (Some (InvalidPattern pattern)).
    unfold Parse. rewrite Hhead.
    split; [reflexivity|]. split; [|reflexivity].
    split; [|discriminate]. intros _. left. now destruct pattern.
Qed.


(** C4, amended.  Take a pattern with a placeholder [<name:sub>] in a
    path segment that has no [<] before the placeholder and no [<] or
    [>] after it; the segment follows a [/] and ends with the pattern
    or at the next [/].  Let [name] be non-empty without [/] and [:],
    and [sub] non-empty without [/].  Then the default parser
    recognizes the placeholder: [name] is in the parameters, after the
    names found before the segment and before the names found after
    it, and the expression has [(sub)], with [sub] as it is, where the
    placeholder was. *)
Theorem Parse_placeholder (pre lit1 name sub lit2 post : string) :
  (pre = "" \/ Str.head pre = Some "/"%char) ->
  Str.mem "<" lit1 = false ->
  name <> "" -> Str.mem "/" name = false -> Str.mem ":" name = false ->
  sub <> "" -> Str.mem "/" sub = false ->
  Str.mem "/" lit2 = false -> Str.mem "<" lit2 = false -> Str.mem ">" lit2 = false ->
  (post = "" \/ Str.head post = Some "/"%char) ->
  let hasTrailingSlashes :=
    match Str.last post with
    | Some c => Ascii.eqb c "/"
    | None => false
    end in
  let post' := if hasTrailingSlashes then Str.chop post else post in
  Parse NewParser (pre ++ "/" ++ lit1 ++ "<" ++ name ++ ":" ++ sub ++ ">" ++ lit2 ++ post)
  = Some (convert pre ++ "/" ++ lit1 ++ "(" ++ sub ++ ")" ++ lit2 ++ convert post' ++ "/?",
          (names pre ++ name :: names post')%list,
          hasTrailingSlashes, None).
Proof.
  intros Hpre Hlit1 Hname Hname1 Hname2 Hsub Hsub1 Hlit2 Hopen Hclose Hpost hts post'.
  set (seg := "<" ++ name ++ ":" ++ sub ++ ">").
  set (mid := lit1 ++ seg ++ lit2).
  assert (Hpattern : pre ++ "/" ++ lit1 ++ "<" ++ name ++ ":" ++ sub ++ ">" ++ lit2 ++ post
                     = (pre ++ "/" ++ mid) ++ post).
  { unfold mid, seg. do 6 (rewrite ?append_assoc; cbn [append]). reflexivity. }
  rewrite Hpattern.
  assert (Hwalk : forall post',
             post' = "" \/ Str.head post' = Some "/"%char ->
             walk defaultParserRegexp ((pre ++ "/" ++ mid) ++ post')
             = (walk defaultParserRegexp pre
                     ++ inl "/"%char
                     :: (lits lit1 ++ inr [seg; name; (":" ++ sub)%string; sub] :: lits lit2)
                     ++ walk defaultParserRegexp post')%list).
  { intros p Hp. rewrite !append_assoc. cbn [append].
    rewrite (@walk_slash _ _ default_avoids_slash pre (mid ++ p)).
    rewrite (walk_segment_then mid Hp).
    unfold mid, seg.
    rewrite (@walk_placeholder_between lit1 name sub lit2 Hlit1 Hname
                                       (name_bytes_mem _ Hname1 Hname2)
                                       Hsub (sub_bytes_mem _ Hsub1) Hlit2 Hopen Hclose).
    reflexivity. }
  assert (Hlast : match Str.last ((pre ++ "/" ++ mid) ++ post) with
                  | Some d => Ascii.eqb d "/"
                  | None => false
                  end = hts).
  { unfold hts. destruct post as [|c y].
    - replace ((pre ++ "/" ++ mid) ++ "")
        with ((pre ++ "/" ++ lit1 ++ "<" ++ name ++ ":" ++ sub) ++ ">" ++ lit2)
        by (unfold mid, seg; do 6 (rewrite ?append_assoc; cbn [append]);
            now rewrite append_nil_r).
      rewrite last_append by discriminate.
      cbn [append]. simpl Str.last.
      destruct lit2 as [|a l]; [reflexivity|].
      pose proof (last_no_slash _ Hlit2) as Hno.
      destruct (Str.last (String a l)) as [e|]; [|reflexivity].
      destruct (Ascii.eqb e "/") eqn:E; [|reflexivity].
      apply Ascii.eqb_eq in E. congruence.
    - now rewrite last_append by discriminate. }
  assert (Hstrip : negb ((pre ++ "/" ++ mid) ++ post =? "/")%string &&
                   match Str.last ((pre ++ "/" ++ mid) ++ post) with
                   | Some d => Ascii.eqb d "/"
                   | None => false
                   end = hts).
  { rewrite Hlast.
    replace ((pre ++ "/" ++ mid) ++ post =? "/")%string with false; [reflexivity|].
    symmetry. apply String.eqb_neq. intros H.
    apply (f_equal String.length) in H. unfold mid, seg in H.
    do 4 (rewrite ?length_append in H; cbn [String.length] in H). lia. }
  assert (Hpost' : post' = "" \/ Str.head post' = Some "/"%char).
  { unfold post'. destruct hts; [|exact Hpost].
    destruct Hpost as [->|H]; [now left|].
    destruct post as [|c [|c' y]]; [discriminate|now left|right; exact H]. }
  rewrite Parse_default.
  - rewrite Hstrip.
    replace (if hts then Str.chop ((pre ++ "/" ++ mid) ++ post)
             else (pre ++ "/" ++ mid) ++ post)
      with ((pre ++ "/" ++ mid) ++ post').
    + unfold convert, names. rewrite (Hwalk _ Hpost').
      rewrite !render_app, !names_of_app. cbn [render].
      rewrite !render_app, !render_lits. cbn [render]. rewrite render_lits.
      rewrite names_of_inl, !names_of_app, names_of_inr, !names_of_lits.
      cbn [app nth].
      unfold placeholder_regexp. cbn [nth].
      replace (sub =? "")%string with false by (symmetry; now apply String.eqb_neq).
      cbn [negb].
      do 6 (rewrite ?append_assoc; cbn [append]). reflexivity.
    + unfold post'. destruct hts eqn:Ehts; [|reflexivity].
      rewrite chop_append; [reflexivity|].
      intros ->. unfold hts in Ehts. discriminate.
  - destruct Hpre as [->|H]; [reflexivity|].
    destruct pre; [discriminate|exact H].
Qed.

Lemma Parse_placeholder_witness :
  ("/posts" = "" \/ Str.head "/posts" = Some "/"%char)
  /\ Str.mem "<" "y" = false
  /\ "year" <> "" /\ Str.mem "/" "year" = false /\ Str.mem ":" "year" = false
  /\ "\d{4}" <> "" /\ Str.mem "/" "\d{4}" = false
  /\ Str.mem "/" ".html" = false /\ Str.mem "<" ".html" = false
  /\ Str.mem ">" ".html" = false
  /\ ("/<title>/" = "" \/ Str.head "/<title>/" = Some "/"%char)
  /\ Parse NewParser "/posts/y<year:\d{4}>.html/<title>/"
     = Some ("/posts/y(\d{4}).html/([^/]+)/?", ["year"; "title"], true, None).
Proof.
  split; [right; reflexivity|].
  split; [reflexivity|].
  split; [discriminate|]. split; [reflexivity|]. split; [reflexivity|].
  split; [discriminate|]. split; [reflexivity|].
  split; [reflexivity|]. split; [reflexivity|]. split; [reflexivity|].
  split; [right; reflexivity|].
  refine (@Parse_placeholder "/posts" "y" "year" "\d{4}" ".html" "/<title>/"
                             _ _ _ _ _ _ _ _ _ _ _);
    [right; reflexivity | reflexivity
     | discriminate | reflexivity | reflexivity
     | discriminate | reflexivity
     | reflexivity | reflexivity | reflexivity
     | right; reflexivity].
Defined.

(** C4, at an input where it fails.  In [/files/<p:a/b>] the text
    between the brackets has a [/] after the colon.  The parser finds
    no placeholder there: no parameter, and the text stays as it is in
    the expression. *)
Lemma slash_in_subexpression_is_not_a_placeholder :
  Parse NewParser "/files/<p:a/b>" = Some ("/files/<p:a/b>/?", [], false, None)
  /\ Regexp.FindStringSubmatch defaultParserRegexp "/files/<p:a/b>" = None.
Proof.
  vm_compute. split; reflexivity.
Qed.

End ParserClaims.

(** ** The index protocol *)

Section IndexProtocol.
Import Regexp StrFacts RegexpFacts.

(** A success of the alternatives is a success of one of them. *)
Lemma selector_chain_frame n sel :
  forall s c k res,
    run n (selector_chain sel) s c k = Some res ->
    sel <> [] ->
    exists g r s' c',
      In (g, r) sel
      /\ length c' = length c
      /\ (forall i, ~ In i (groups_in r) -> nth_error c' i = nth_error c i)
      /\ k s' (set_cap g (Str.take (String.length s - String.length s') s) c') = Some res.
Proof.
  assert (Hone : forall g r s c k res,
             run n (Cap g r) s c k = Some res ->
             exists s' c',
               length c' = length c
               /\ (forall i, ~ In i (groups_in r) -> nth_error c' i = nth_error c i)
               /\ k s' (set_cap g (Str.take (String.length s - String.length s') s) c')
                  = Some res).
  { intros g r s c k res H. cbn [run] in H. apply run_frame in H.
    destruct H as (s' & c' & _ & Hc & Hf & H). exists s', c'. auto. }
  induction sel as [|[g r] sel IH]; intros s c k res Hrun Hne; [congruence|].
  destruct sel as [|e sel].
  - apply Hone in Hrun. destruct Hrun as (s' & c' & H).
    exists g, r, s', c'. split; [now left|exact H].
  - change (selector_chain ((g, r) :: e :: sel))
      with (Alt (Cap g r) (selector_chain (e :: sel))) in Hrun.
    change (run n (Alt (Cap g r) (selector_chain (e :: sel))) s c k)
      with (match run n (Cap g r) s c k with
            | Some v => Some v
            | None => run n (selector_chain (e :: sel)) s c k
            end) in Hrun.
    destruct (run n (Cap g r) s c k) as [res'|] eqn:E.
    + injection Hrun as <-. apply Hone in E. destruct E as (s' & c' & H).
      exists g, r, s', c'. split; [now left|exact H].
    + apply IH in Hrun; [|discriminate].
      destruct Hrun as (g' & r' & s' & c' & Hin & H).
      exists g', r', s', c'. split; [now right|exact H].
Qed.

(** The scan of [ServeHTTP] on submatches that are empty before [g]. *)
Lemma first_nonempty_at (l : list string) :
  forall k g,
    k <= g ->
    (forall j, k <= j < g -> nth_error l (j - k) = Some "") ->
    (exists v, nth_error l (g - k) = Some v /\ v <> "") ->
    first_nonempty l k = g.
Proof.
  induction l as [|m l IH]; intros k g Hk Hempty (v & Hv & Hne).
  - destruct (g - k); discriminate.
  - simpl. destruct (Nat.eq_dec k g) as [->|Hkg].
    + rewrite Nat.sub_diag in Hv. injection Hv as ->.
      apply String.eqb_neq in Hne. now rewrite Hne.
    + pose proof (Hempty k ltac:(lia)) as H0. rewrite Nat.sub_diag in H0.
      injection H0 as ->. simpl. apply IH; [lia| |].
      * intros j Hj. specialize (Hempty j ltac:(lia)).
        replace (j - k) with (S (j - S k)) in Hempty by lia. exact Hempty.
      * exists v. split; [|exact Hne].
        replace (g - k) with (S (g - S k)) in Hv by lia. exact Hv.
Qed.

Lemma nth_error_tl {A} (l : list A) j : nth_error (tl l) j = nth_error l (S j).
Proof. destruct l; [now destruct j|reflexivity]. Qed.

Lemma nth_error_repeat {A} (x : A) n j : j < n -> nth_error (repeat x n) j = Some x.
Proof.
  revert j. induction n as [|n IH]; intros [|j] H; simpl; try lia; auto.
  apply IH. lia.
Qed.

(** An expression that starts with [^] matches at the start only. *)
Lemma anchored_search re X (path : string) skipped rest c :
  prog re = Cat Bol X ->
  search re (String.length path) path = Some (skipped, rest, c) ->
  skipped = "" /\ exec_here re (String.length path) path = Some (rest, c).
Proof.
  intros Hprog Hsearch. apply search_sound in Hsearch.
  destruct Hsearch as (here & -> & Hexec & _).
  assert (Hlen : String.length here = String.length (skipped ++ here)).
  { unfold exec_here in Hexec. rewrite Hprog in Hexec. cbn [run] in Hexec.
    destruct (String.length here =? String.length (skipped ++ here)) eqn:E;
      [|discriminate].
    now apply Nat.eqb_eq in E. }
  rewrite length_append in Hlen.
  assert (skipped = "") as -> by (apply length_zero; lia).
  auto.
Qed.

(** X11.  The index protocol: when the groups of the combined expression are
    laid out like the slots, the first non-empty submatch of a match of
    a non-empty path is the group around the alternative that matched,
    and its index is a slot that holds a route. *)
Lemma scan_finds_route (l : list (option route)) (re : Regexp.t)
        (sel : list (nat * regex)) (path : string) (ms : list string) :
  laid_out l re sel ->
  path <> "" ->
  FindStringSubmatch re path = Some ms ->
  exists g r rt,
    In (g, r) sel /\ first_nonempty (tl ms) 1 = g /\ nth_error l g = Some (Some rt).
Proof.
  intros [Hprog Hsel] Hpath Hfind. unfold FindStringSubmatch in Hfind.
  destruct (search re (String.length path) path) as [[[skipped rest] c]|] eqn:Hsearch;
    [|discriminate].
  injection Hfind as <-.
  destruct (anchored_search _ _ Hprog Hsearch) as [_ Hexec].
  unfold exec_here in Hexec. rewrite Hprog in Hexec. cbn [run] in Hexec.
  rewrite Nat.eqb_refl in Hexec.
  destruct sel as [|e sel'] eqn:Esel.
  { cbn [selector_chain run] in Hexec. destruct path; [congruence|discriminate]. }
  rewrite <- Esel in *.
  apply selector_chain_frame in Hexec; [|rewrite Esel; discriminate].
  destruct Hexec as (g & r & s' & c' & Hin & Hlen & Hframe & Hexec).
  destruct s' as [|a s']; [|discriminate].
  unfold finish in Hexec. injection Hexec as _ <-.
  cbn [String.length]. rewrite Nat.sub_0_r, take_all.
  rewrite Forall_forall in Hsel. destruct (Hsel _ Hin) as (Hg & Hinside & rt & Hrt).
  cbn [fst snd] in Hg, Hinside, Hrt. rewrite Forall_forall in Hinside.
  rewrite repeat_length in Hlen.
  exists g, r, rt. split; [exact Hin|]. split; [|exact Hrt].
  apply first_nonempty_at; [lia| |].
  - intros j Hj. rewrite nth_error_tl.
    replace (S (j - 1)) with j by lia.
    unfold submatches. rewrite nth_error_map.
    match goal with
    | |- context [nth_error ?X j] => change X with (set_cap 0 path (set_cap g path c'))
    end.
    rewrite set_cap_other, set_cap_other, Hframe by lia || (intros Hi; apply Hinside in Hi; lia).
    now rewrite nth_error_repeat by lia.
  - exists path. split; [|exact Hpath]. rewrite nth_error_tl.
    replace (S (g - 1)) with g by lia.
    unfold submatches. rewrite nth_error_map.
    match goal with
    | |- context [nth_error ?X g] => change X with (set_cap 0 path (set_cap g path c'))
    end.
    rewrite set_cap_other by lia. now rewrite set_cap_same by lia.
Qed.

(** The table of [users_router] is laid out that way. *)
Lemma users_router_laid_out (h1 h2 h3 : Handler) :
  match users_router h1 h2 h3 with
  | Some r =>
      match Map.lookup "GET" (routes r), Map.lookup "GET" (combinedRegexps r) with
      | Some l, Some re =>
          match prog re with
          | Cat Bol (Cat X Eol) => laid_out l re (alternatives X)
          | _ => False
          end
      | _, _ => False
      end
  | None => False
  end.
Proof.
  vm_compute. split; [reflexivity|].
  repeat constructor; eexists; reflexivity.
Qed.

End IndexProtocol.

(** ** Preparing again *)

Section Again.

Variable mw : list Middleware.

Let prep := map (option_map (prepare_route mw)).

Lemma prepare_route_again (rt : route) :
  prepare_route mw (prepare_route mw rt) = prepare_route mw rt.
Proof. reflexivity. Qed.

Lemma prep_again (l : list (option route)) : prep (prep l) = prep l.
Proof.
  unfold prep. rewrite map_map. apply map_ext. now intros [rt|].
Qed.

(** Over settled methods the loop changes nothing (and does not panic). *)
Lemma prepare_methods_settled methods rts res :
  Forall (settled mw rts res) methods ->
  prepare_methods mw methods rts res = Some (rts, res).
Proof.
  induction 1 as [|method methods (l & re & Hl & Hprep & Hre & Hres) _ IH]; simpl;
    [reflexivity|].
  rewrite Hl, Hprep, Hre.
  now rewrite (MapFacts.insert_same _ _ Hl), (MapFacts.insert_same _ _ Hres).
Qed.

(** The loop leaves the other methods alone. *)
Lemma prepare_methods_others methods :
  forall rts res rts' res' k,
    prepare_methods mw methods rts res = Some (rts', res') ->
    ~ In k methods ->
    Map.lookup k rts' = Map.lookup k rts /\ Map.lookup k res' = Map.lookup k res.
Proof.
  induction methods as [|method methods IH]; simpl; intros rts res rts' res' k Hrun Hk.
  - injection Hrun as <- <-. now split.
  - destruct (Regexp.Compile _) as [re|]; [|discriminate].
    apply IH with (k := k) in Hrun; [|tauto].
    destruct Hrun as [H1 H2].
    rewrite H1, H2.
    split; apply MapFacts.lookup_insert_ne; intros ->; apply Hk; now left.
Qed.

Lemma prepare_methods_keys methods :
  forall rts res rts' res',
    prepare_methods mw methods rts res = Some (rts', res') ->
    (forall k, In k methods -> In k (map fst rts)) ->
    map fst rts' = map fst rts.
Proof.
  induction methods as [|method methods IH]; simpl; intros rts res rts' res' Hrun Hin.
  - now injection Hrun as <- <-.
  - destruct (Regexp.Compile _) as [re|]; [|discriminate].
    assert (Hkeys : map fst (Map.insert method
                                        (map (option_map (prepare_route mw))
                                             match Map.lookup method rts with
                                             | Some l => l
                                             | None => []
                                             end) rts) = map fst rts).
    { apply MapFacts.insert_keys, MapFacts.lookup_in_keys, Hin. now left. }
    apply IH in Hrun.
    + now rewrite Hrun.
    + intros k Hk. rewrite Hkeys. apply Hin. now right.
Qed.

(** After the loop every method it went over is settled. *)
Lemma prepare_methods_settles methods :
  forall rts res rts' res',
    NoDup methods ->
    prepare_methods mw methods rts res = Some (rts', res') ->
    Forall (settled mw rts' res') methods.
Proof.
  induction methods as [|method methods IH]; simpl; intros rts res rts' res' Hnd Hrun;
    [constructor|].
  inversion Hnd as [|? ? Hnotin Hnd']; subst.
  destruct (Regexp.Compile _) as [re|] eqn:Hre; [|discriminate].
  constructor.
  - destruct (prepare_methods_others _ _ _ method Hrun Hnotin) as [H1 H2].
    rewrite MapFacts.lookup_insert in H1. rewrite MapFacts.lookup_insert in H2.
    eexists _, re. repeat split; [exact H1 | apply prep_again | exact Hre | exact H2].
  - eapply IH; eauto.
Qed.

End Again.

Lemma each_group_again {A} (f : A -> option A) (gs gs' : list (string * A)) :
  Forall (fun e => forall g', f (snd e) = Some g' -> f g' = Some g') gs ->
  each_group f gs = Some gs' ->
  each_group f gs' = Some gs'.
Proof.
  intros Hall. revert gs'.
  induction Hall as [|[prefix g] gs Hg _ IH]; simpl; intros gs' Hrun.
  - now injection Hrun as <-.
  - destruct (f g) as [g'|] eqn:Eg; [|discriminate].
    destruct (each_group f gs) as [gs1|] eqn:Egs; [|discriminate].
    injection Hrun as <-. simpl.
    now rewrite (Hg _ Eg), (IH _ eq_refl).
Qed.

Lemma prepare_again (r : Router) :
  forall inherited r', prepare inherited r = Some r' -> prepare inherited r' = Some r'.
Proof.
  induction r as [mw res gs rts ps ph oh mh nf pol IH] using Router_groups_ind.
  intros inherited r'. simpl.
  destruct (prepare_methods _ _ _ _) as [[rts1 res1]|] eqn:Hloop; [|discriminate].
  destruct (each_group _ gs) as [gs1|] eqn:Hgroups; [|discriminate].
  intros [= <-]. simpl.
  assert (Hkeys : keys rts1 = keys rts).
  { unfold keys. f_equal. eapply prepare_methods_keys; eauto.
    intros k Hk. unfold keys in Hk. now apply nodup_In in Hk. }
  rewrite Hkeys.
  rewrite prepare_methods_settled.
  - rewrite (@each_group_again _ (prepare (inherited ++ mw)) gs gs1);
      [reflexivity | | exact Hgroups].
    eapply Forall_impl; [|exact IH]. intros e He g'. apply He.
  - eapply prepare_methods_settles; eauto. apply NoDup_nodup.
Qed.

(** C10.  Preparing a prepared router gives the same router back: the
    same combined expressions, the same routes with the same final
    handlers, which are built from the handler and the middleware of the
    route and never from an earlier final handler.  When the first
    preparation panics there is no second one. *)
Theorem Prepare_idempotent (r : Router) :
  Prepare r >>= Prepare = Prepare r.
Proof.
  unfold bind. destruct (Prepare r) as [r'|] eqn:E; [|reflexivity].
  exact (prepare_again r [] E).
Qed.

Lemma chain_app (a b : list Middleware) (h : Handler) :
  chain (a ++ b) h = chain a (chain b h).
Proof. unfold chain. apply fold_right_app. Qed.

Lemma lookup_some_key {A} (k : string) (m : list (string * A)) v :
  Map.lookup k m = Some v -> In k (map fst m).
Proof.
  induction m as [|[k' v'] m IH]; simpl; [discriminate|].
  destruct (k =? k')%string eqn:E; [|auto].
  apply String.eqb_eq in E. auto.
Qed.

(** After the loop of [prepare] every route of every method has the
    chain of that preparation as its final handler. *)
Lemma prepared_final_handler mw rts res rts' res' method l i rt :
  prepare_methods mw (keys rts) rts res = Some (rts', res') ->
  Map.lookup method rts' = Some l ->
  nth_error l i = Some (Some rt) ->
  finalHandler rt = Some (chain mw (chain (middleware rt) (handler rt))).
Proof.
  intros Hloop Hl Hrt.
  assert (Hkeys : map fst rts' = map fst rts).
  { eapply prepare_methods_keys; eauto.
    intros k Hk. unfold keys in Hk. now apply nodup_In in Hk. }
  pose proof (prepare_methods_settles _ _ _ (NoDup_nodup string_dec _) Hloop) as Hall.
  rewrite Forall_forall in Hall.
  destruct (Hall method) as (l0 & re & Hl0 & Hprep & _).
  { unfold keys. apply nodup_In. rewrite <- Hkeys. eapply lookup_some_key; eauto. }
  rewrite Hl in Hl0. injection Hl0 as <-.
  rewrite <- Hprep in Hrt. rewrite nth_error_map in Hrt.
  destruct (nth_error l i) as [[rt0|]|]; try discriminate.
  simpl in Hrt. injection Hrt as <-. reflexivity.
Qed.

Lemma each_group_lookup {A B} (f : A -> option B) gs gs' prefix g' :
  each_group f gs = Some gs' ->
  Map.lookup prefix gs' = Some g' ->
  exists g, Map.lookup prefix gs = Some g /\ f g = Some g'.
Proof.
  revert gs'. induction gs as [|[p g] gs IH]; simpl; intros gs' Hrun.
  - injection Hrun as <-. discriminate.
  - destruct (f g) as [g1|] eqn:Eg; [|discriminate].
    destruct (each_group f gs) as [gs1|] eqn:Egs; [|discriminate].
    injection Hrun as <-. simpl.
    destruct (prefix =? p)%string.
    + intros [= <-]. now exists g.
    + now apply IH.
Qed.

(** C7.  In a prepared node every route has, stored as its final
    handler, the chain inherited from the ancestors around the
    middleware of the node around the middleware of the route around
    the handler, each list with its first element outermost; a group
    is prepared with the chain of its parent as what it inherits.  So
    with root middleware [M1], group middleware [M2] and route
    middleware [M3] around the handler [H], preparation stores
    [M1 (M2 (M3 H))], and serving a matching request is a call of that
    stored handler: [M1] runs first, then [M2], then [M3], then [H]. *)
Theorem middleware_order :
  (forall inherited r r',
      prepare inherited r = Some r' ->
      Middleware_ r' = Middleware_ r
      /\ (forall method l i rt,
             Map.lookup method (routes r') = Some l ->
             nth_error l i = Some (Some rt) ->
             finalHandler rt
             = Some (chain inherited
                           (chain (Middleware_ r) (chain (middleware rt) (handler rt)))))
      /\ (forall prefix group',
             Map.lookup prefix (groups r') = Some group' ->
             exists group,
               Map.lookup prefix (groups r) = Some group
               /\ prepare (inherited ++ Middleware_ r) group = Some group'))
  /\ (forall (M1 M2 M3 : Middleware) (H : Handler) (w : ResponseWriter),
         let req := NewRequest "GET" "/v1/users" in
         option_map (fun r => match Map.lookup "v1" (groups r) with
                              | Some v1 =>
                                  match Map.lookup "GET" (routes v1) with
                                  | Some [None; Some rt] =>
                                      option_map (fun f => f w req) (finalHandler rt)
                                  | _ => None
                                  end
                              | None => None
                              end) (layered_router M1 M2 M3 H)
         = Some (Some (M1 (M2 (M3 H)) w req))
         /\ dispatch (layered_router M1 M2 M3 H) w req = Some (M1 (M2 (M3 H)) w req)
         /\ dispatch (layered_router (tracing "M1,") (tracing "M2,") (tracing "M3,")
                                     (helloHandler "H"))
                     http.NewRecorder req
            = Some (Returned {| Code := 200; wroteHeader := true; Header := [];
                                Body := "M1,M2,M3,H" |})).
Proof.
  split.
  - intros inherited [mw res gs rts ps ph oh mh nf pol] r'. simpl.
    destruct (prepare_methods _ _ _ _) as [[rts1 res1]|] eqn:Hloop; [|discriminate].
    destruct (each_group _ gs) as [gs1|] eqn:Hgroups; [|discriminate].
    intros [= <-]. simpl. split; [reflexivity|]. split.
    + intros method l i rt Hl Hrt. rewrite <- chain_app.
      eapply prepared_final_handler; eauto.
    + intros prefix group'. now apply each_group_lookup.
  - intros M1 M2 M3 H w. vm_compute. repeat split; reflexivity.
Qed.

Lemma middleware_order_witness :
  prepare [] demo_layers = Some demo_layers_prepared
  /\ Middleware_ demo_layers_prepared = Middleware_ demo_layers.
Proof.
  split; [reflexivity|].
  exact (proj1 (proj1 middleware_order [] demo_layers demo_layers_prepared eq_refl)).
Defined.

(** ** Dispatch on concrete tables *)

(** C1. With GET routes [/users], [/users/<id:\d+>] and
    [/users/<id:\d+>/posts/<title>] registered in this order and the
    router prepared, GET [/users/22/posts/hello] runs the third handler
    with [id = 22] and [title = hello], GET [/users/11] the second with
    [id = 11], GET [/users] the first with no parameters.  In each case
    the route is the one at the index of the first non-empty submatch
    (counted from 1) and the parameters are the submatches after it. *)
Theorem combined_matcher_resolution (h1 h2 h3 : Handler) (w : ResponseWriter) :
  let built := users_router h1 h2 h3 in
  let get := NewRequest "GET" in
  (dispatch built w (get "/users/22/posts/hello")
   = Some (h3 w (with_params [("id", "22"); ("title", "hello")] (get "/users/22/posts/hello")))
   /\ dispatch built w (get "/users/11")
      = Some (h2 w (with_params [("id", "11")] (get "/users/11")))
   /\ dispatch built w (get "/users") = Some (h1 w (get "/users")))
  /\ (option_map (fun r => scan_of r "GET" "/users/22/posts/hello") built
      = Some (Some (["/users/22/posts/hello"; ""; ""; ""; "/users/22/posts/hello"; "22"; "hello"], 4))
      /\ option_map (fun r => scan_of r "GET" "/users/11") built
         = Some (Some (["/users/11"; ""; "/users/11"; "11"; ""; ""; ""], 2))
      /\ option_map (fun r => scan_of r "GET" "/users") built
         = Some (Some (["/users"; "/users"; ""; ""; ""; ""; ""], 1)))
  /\ option_map (fun r => map (slot_at r "GET") [0; 1; 2; 3; 4; 5; 6; 7]) built
     = Some [Nil;
             Route "/users/?" [];
             Route "/users/(\d+)/?" ["id"]; Nil;
             Route "/users/(\d+)/posts/([^/]+)/?" ["id"; "title"]; Nil; Nil;
             OutOfRange].
Proof.
  vm_compute. repeat split; reflexivity.
Qed.

(** C2, at an input where it fails.  With GET [/x/<id:(a|b)>] and GET
    [/y] registered, the route list has the four slots [nil, route,
    nil, route], but the combined expression has four groups besides
    group 0, the last of them the selector of [/y]: on GET [/y] the
    first non-empty submatch has index 4, which is past the end of the
    list, and [ServeHTTP] panics. *)
Theorem choice_subexpression_breaks_scan (h1 h2 : Handler) (w : ResponseWriter) :
  let built := choice_router h1 h2 in
  option_map (fun r => scan_of r "GET" "/y") built = Some (Some (["/y"; ""; ""; ""; "/y"], 4))
  /\ option_map (fun r => map (slot_at r "GET") [0; 1; 2; 3; 4]) built
     = Some [Nil; Route "/x/((a|b))/?" ["id"]; Nil; Route "/y/?" []; OutOfRange]
  /\ dispatch built w (NewRequest "GET" "/y") = Some (Panicked index_out_of_range w).
Proof.
  vm_compute. repeat split; reflexivity.
Qed.

(** C3, at an input where it fails.  Under the strict policy, with GET
    [/users] registered, GET [/users/] is answered with a redirect to
    [/users], and then the handler of the route runs all the same, on
    the response that already carries the redirect. *)
Theorem strict_strip_runs_handler (h : Handler) (w : ResponseWriter) :
  dispatch (strict_router h) w (NewRequest "GET" "/users/")
  = Some (h (http.Redirect w "/users" 301) (NewRequest "GET" "/users")).
Proof.
  vm_compute. reflexivity.
Qed.

(** C6. With a root route [/], a group [v1] with route [/] and a group
    [v2] with routes [/] and [/users], the path [/v2/users] resolves to
    the node of [v2] with [/users] left, and GET [/v2/users] runs the
    [/users] handler of [v2]; the table of the root has no match for
    either path. *)
Theorem group_resolution (h0 h1 h2 h3 : Handler) (w : ResponseWriter) :
  let built := groups_router h0 h1 h2 h3 in
  option_map (fun r => let '(node, rest) := fetchGroup r "/v2/users" in (Some node, rest)) built
  = option_map (fun r => (Map.lookup "v2" (groups r), "/users")) built
  /\ dispatch built w (NewRequest "GET" "/v2/users") = Some (h3 w (NewRequest "GET" "/v2/users"))
  /\ option_map (fun r => (retrieveMethods r "/v2/users", retrieveMethods r "/users")) built
     = Some ([], []).
Proof.
  vm_compute. repeat split; reflexivity.
Qed.

(** C8. With POST [/users] as the only route, GET [/users] is answered
    405 with [Allow: POST], and OPTIONS [/users] with the default 200,
    [Allow: POST] and an empty body. *)
Theorem method_fallback (h : Handler) (w : ResponseWriter) :
  let built := post_router h in
  (dispatch built w (NewRequest "GET" "/users")
   = Some (Returned (http.Error (http.SetHeader "Allow" "POST" w) "Method Not Allowed" 405))
   /\ dispatch built w (NewRequest "OPTIONS" "/users")
      = Some (Returned (http.SetHeader "Allow" "POST" w)))
  /\ (dispatch built http.NewRecorder (NewRequest "GET" "/users")
      = Some (Returned {| Code := 405; wroteHeader := true;
                          Header := [("Allow", "POST");
                                     ("Content-Type", "text/plain; charset=utf-8");
                                     ("X-Content-Type-Options", "nosniff")];
                          Body := "Method Not Allowed" ++ String "010" "" |})
      /\ dispatch built http.NewRecorder (NewRequest "OPTIONS" "/users")
         = Some (Returned {| Code := 200; wroteHeader := false;
                             Header := [("Allow", "POST")]; Body := "" |})).
Proof.
  vm_compute. repeat split; reflexivity.
Qed.

(** ** Falling through to not found *)

Lemma no_method_no_match (router : Router) (path method : string) re :
  retrieveMethods router path = [] ->
  Map.lookup method (combinedRegexps router) = Some re ->
  Regexp.FindStringSubmatch re path = None.
Proof.
  unfold retrieveMethods.
  induction (combinedRegexps router) as [|[k re'] m IH]; simpl; [discriminate|].
  intros Hnil. apply app_eq_nil in Hnil. destruct Hnil as [Hk Hm].
  destruct (method =? k)%string.
  - intros [= ->]. unfold Regexp.MatchString, Regexp.FindStringSubmatch in *.
    destruct (Regexp.search re (String.length path) path); [discriminate|reflexivity].
  - now apply IH.
Qed.

(** C9, at an input where it fails.  On a router whose only route is
    POST [/users], no method is allowed for [/nothing]; an OPTIONS
    request for it is not answered as not found: the reply is the
    default 200 and it has an [Allow] header, the empty one. *)
Lemma options_is_never_not_found :
  let req := NewRequest "OPTIONS" "/nothing" in
  let w := http.NewRecorder in
  retrieveMethods (fst (fetchGroup demo_router (URLPath req)))
                  (snd (fetchGroup demo_router (URLPath req))) = []
  /\ NotFoundHandler demo_router = None
  /\ ServeHTTP demo_router w req <> Returned (http.NotFound w)
  /\ ServeHTTP demo_router w req
     = Returned {| Code := 200; wroteHeader := false; Header := [("Allow", "")]; Body := "" |}.
Proof.
  vm_compute. repeat split; try reflexivity. discriminate.
Qed.

(** C9, amended.  For a request whose method is not OPTIONS and whose
    path no method is allowed for in the node it resolves to,
    [ServeHTTP] does the not found handling: the call of
    [NotFoundHandler] if there is one (under the deferred recovery),
    else the 404 of [http.NotFound], which leaves [Allow] as it was. *)
Theorem not_found_handling (r : Router) (w : ResponseWriter) (req : Request)
        (router : Router) (path : string) :
  fetchGroup r (URLPath req) = (router, path) ->
  retrieveMethods router path = [] ->
  Method req <> http.MethodOptions ->
  ServeHTTP r w req
  = match NotFoundHandler r with
    | Some h => recovered r req (h w req)
    | None => Returned (http.NotFound w)
    end
  /\ Map.lookup "Allow" (Header (http.NotFound w)) = Map.lookup "Allow" (Header w)
  /\ Code (http.NotFound w) = (if wroteHeader w then Code w else 404).
Proof.
  intros Hfetch Hnone Hmethod. split; [|split].
  - unfold ServeHTTP, serve. rewrite Hfetch.
    assert (Hmatch : match Map.lookup (Method req) (combinedRegexps router) with
                     | Some re => Regexp.FindStringSubmatch re path
                     | None => None
                     end = None).
    { destruct (Map.lookup (Method req) (combinedRegexps router)) eqn:E; [|reflexivity].
      eapply no_method_no_match; eauto. }
    rewrite Hmatch. unfold fallback. rewrite Hnone.
    destruct (Method req =? http.MethodOptions)%string eqn:E.
    + apply String.eqb_eq in E. contradiction.
    + simpl. destruct (NotFoundHandler r); [reflexivity|].
      unfold recovered. now destruct (PanicHandler r).
  - unfold http.NotFound, http.Error, http.Write, http.WriteHeader, http.SetHeader; simpl.
    destruct (wroteHeader w); simpl;
      rewrite MapFacts.lookup_insert_ne by discriminate;
      now rewrite MapFacts.lookup_insert_ne by discriminate.
  - unfold http.NotFound, http.Error, http.Write, http.WriteHeader, http.SetHeader; simpl.
    now destruct (wroteHeader w).
Qed.

Lemma not_found_handling_witness :
  let req := NewRequest "GET" "/nothing" in
  let w := http.NewRecorder in
  (fetchGroup demo_router (URLPath req) = (demo_router, "/nothing")
   /\ retrieveMethods demo_router "/nothing" = []
   /\ Method req <> http.MethodOptions)
  /\ ServeHTTP demo_router w req = Returned (http.NotFound w).
Proof.
  split.
  - split; [reflexivity | split; [reflexivity | discriminate]].
  - refine (proj1 (not_found_handling demo_router http.NewRecorder
                                       (NewRequest "GET" "/nothing")
                                       (router := demo_router) (path := "/nothing")
                                       _ _ _));
      [reflexivity | reflexivity | discriminate].
Defined.

(** ** More about the parser *)

Section ParserMore.
Import Regexp StrFacts RegexpFacts ParserFacts.

Lemma append_inv_r (a b c : string) : a ++ c = b ++ c -> a = b.
Proof.
  revert b. induction a as [|x a IH]; intros [|y b] H.
  - reflexivity.
  - apply (f_equal String.length) in H. cbn [append String.length] in H.
    rewrite length_append in H. lia.
  - apply (f_equal String.length) in H. cbn [append String.length] in H.
    rewrite length_append in H. lia.
  - cbn [append] in H. injection H as -> H. f_equal. now apply IH.
Qed.

Lemma mem_chop c (s : string) : Str.mem c s = false -> Str.mem c (Str.chop s) = false.
Proof.
  induction s as [|a s IH]; [reflexivity|].
  cbn [Str.mem]. intros H. apply orb_false_elim in H. destruct H as [Ha H].
  destruct s as [|b s]; [reflexivity|].
  change (Str.chop (String a (String b s))) with (String a (Str.chop (String b s))).
  cbn [Str.mem]. rewrite Ha. now apply IH.
Qed.

Lemma head_append (a b : string) : a <> "" -> Str.head (a ++ b) = Str.head a.
Proof. destruct a; [congruence|reflexivity]. Qed.

(** What [Parse] does to a pattern that begins with [/], for any
    expression: the trailing slash, then the conversion. *)
Lemma Parse_unfold (p : Parser) (pattern : string) :
  Str.head pattern = Some "/"%char ->
  Parse p pattern
  = match
      match FindAllStringSubmatch (reg_ p) (trimmed pattern) with
      | Some matches =>
          match collect_params matches,
                ReplaceAllStringFunc (reg_ p) (trimmed pattern) (replacement matches) (-1)%Z with
          | Some params, Some (_, regexp) => Some (regexp, params)
          | _, _ => None
          end
      | None => Some (trimmed pattern, [])
      end
    with
    | Some (regexp, params) =>
        Some (regexp ++ "/?", params,
              negb (pattern =? "/")%string &&
              match Str.last pattern with
              | Some d => Ascii.eqb d "/"
              | None => false
              end, None)
    | None => None
    end.
Proof.
  intros H. unfold Parse, trimmed. rewrite H. reflexivity.
Qed.

Lemma trimmed_default (pattern : string) :
  Str.head pattern = Some "/"%char ->
  Parse NewParser pattern
  = Some (convert (trimmed pattern) ++ "/?", names (trimmed pattern),
          negb (pattern =? "/")%string &&
          match Str.last pattern with
          | Some d => Ascii.eqb d "/"
          | None => false
          end, None).
Proof. intros H. now rewrite Parse_default. Qed.

(** A pattern that ends with a slash, other than [/], and what is
    left of it. *)
Lemma trimmed_slash (pattern : string) :
  pattern <> "" -> trimmed (pattern ++ "/") = pattern.
Proof.
  intros H. unfold trimmed.
  replace (pattern ++ "/" =? "/")%string with false.
  - rewrite last_append by discriminate. cbn [Str.last Ascii.eqb negb andb].
    change (Ascii.eqb "/" "/") with true. cbn [andb].
    rewrite chop_append by discriminate. apply append_nil_r.
  - symmetry. apply String.eqb_neq. intros E. apply (f_equal String.length) in E.
    rewrite length_append in E. destruct pattern; [congruence|]. simpl in E. lia.
Qed.

Lemma trimmed_same (pattern : string) :
  pattern = "/" \/ Str.last pattern <> Some "/"%char -> trimmed pattern = pattern.
Proof.
  unfold trimmed. intros [->|H]; [reflexivity|].
  destruct (Str.last pattern) as [d|]; [|now rewrite andb_false_r].
  destruct (Ascii.eqb d "/") eqn:E; [|now rewrite andb_false_r].
  apply Ascii.eqb_eq in E. congruence.
Qed.

(** X3.  A pattern and the pattern with a slash after it give the same
    expression and the same parameters, for any expression of the
    parser; only the flag tells them apart. *)
Theorem Parse_trailing_slash (p : Parser) (pattern : string) :
  Str.head pattern = Some "/"%char ->
  pattern = "/" \/ Str.last pattern <> Some "/"%char ->
  Parse p (pattern ++ "/")
  = match Parse p pattern with
    | Some (regexp, params, _, err) => Some (regexp, params, true, err)
    | None => None
    end
  /\ match Parse p pattern with
     | Some (_, _, hasTrailingSlashes, _) => hasTrailingSlashes = false
     | None => True
     end.
Proof.
  intros Hhead Hlast.
  assert (Hne : pattern <> "") by (intros ->; discriminate).
  assert (Hflag : negb (pattern =? "/")%string &&
                  match Str.last pattern with
                  | Some d => Ascii.eqb d "/"
                  | None => false
                  end = false).
  { destruct Hlast as [->|H]; [reflexivity|].
    destruct (Str.last pattern) as [d|]; [|now rewrite andb_false_r].
    destruct (Ascii.eqb d "/") eqn:E; [|now rewrite andb_false_r].
    apply Ascii.eqb_eq in E. congruence. }
  rewrite (Parse_unfold p (pattern ++ "/")) by (now rewrite head_append).
  rewrite (Parse_unfold p pattern) by exact Hhead.
  rewrite trimmed_slash, (trimmed_same Hlast), Hflag by exact Hne.
  replace (pattern ++ "/" =? "/")%string with false.
  - rewrite last_append by discriminate. cbn [Str.last negb andb].
    change (Ascii.eqb "/" "/") with true.
    destruct (FindAllStringSubmatch (reg_ p) pattern) as [matches|].
    + destruct (collect_params matches) as [params|]; [|split; [reflexivity|exact I]].
      destruct (ReplaceAllStringFunc _ _ _ _) as [[i regexp]|];
        split; reflexivity || exact I.
    + split; reflexivity.
  - symmetry. apply String.eqb_neq. intros E. apply (f_equal String.length) in E.
    rewrite length_append in E. destruct pattern; [congruence|]. simpl in E. lia.
Qed.

Lemma Parse_trailing_slash_witness :
  Str.head "/users/<name>" = Some "/"%char
  /\ ("/users/<name>" = "/" \/ Str.last "/users/<name>" <> Some "/"%char)
  /\ Parse NewParser ("/users/<name>" ++ "/")
     = match Parse NewParser "/users/<name>" with
       | Some (regexp, params, _, err) => Some (regexp, params, true, err)
       | None => None
       end.
Proof.
  split; [reflexivity|]. split; [right; discriminate|].
  refine (proj1 (@Parse_trailing_slash NewParser "/users/<name>" _ _));
    [reflexivity | right; discriminate].
Defined.

(** A walk over text without [<] finds nothing. *)
Lemma walk_literal (lit : string) :
  Str.mem "<" lit = false -> walk defaultParserRegexp lit = lits lit.
Proof.
  intros H. unfold walk. rewrite scan_S. now rewrite (search_literal _ _ H).
Qed.

Lemma trimmed_no_open (pattern : string) :
  Str.mem "<" pattern = false -> Str.mem "<" (trimmed pattern) = false.
Proof.
  intros H. unfold trimmed. destruct (_ && _); [now apply mem_chop|exact H].
Qed.

Lemma convert_literal (lit : string) :
  Str.mem "<" lit = false -> convert lit = lit /\ names lit = [].
Proof.
  intros H. unfold convert, names.
  now rewrite (walk_literal _ H), render_lits, names_of_lits.
Qed.

(** X1.  A pattern without [<] has no parameters and is its own
    expression, up to the trailing slash. *)
Theorem Parse_literal (pattern : string) :
  Str.head pattern = Some "/"%char ->
  Str.mem "<" pattern = false ->
  Parse NewParser pattern
  = Some (trimmed pattern ++ "/?", [],
          negb (pattern =? "/")%string &&
          match Str.last pattern with
          | Some d => Ascii.eqb d "/"
          | None => false
          end, None).
Proof.
  intros Hhead Hlit. rewrite trimmed_default by exact Hhead.
  destruct (convert_literal _ (trimmed_no_open _ Hlit)) as [-> ->]. reflexivity.
Qed.

Lemma Parse_literal_witness :
  Str.head "/users/all/" = Some "/"%char
  /\ Str.mem "<" "/users/all/" = false
  /\ Parse NewParser "/users/all/" = Some ("/users/all/?", [], true, None).
Proof.
  split; [reflexivity|]. split; [reflexivity|].
  apply (@Parse_literal "/users/all/"); reflexivity.
Defined.

Lemma convert_slash (x y : string) :
  convert (x ++ String "/" y) = convert x ++ String "/" (convert y).
Proof.
  unfold convert. rewrite (@walk_slash _ _ default_avoids_slash x y).
  now rewrite render_app.
Qed.

Lemma names_slash (x y : string) :
  names (x ++ String "/" y) = (names x ++ names y)%list.
Proof.
  unfold names. rewrite (@walk_slash _ _ default_avoids_slash x y).
  now rewrite names_of_app, names_of_inl.
Qed.

Lemma Parse_ok_head (p : Parser) (pattern : string) res :
  Parse p pattern = Some (res, None) -> Str.head pattern = Some "/"%char.
Proof.
  unfold Parse. destruct (Str.head pattern) as [c|]; [|discriminate].
  destruct (Ascii.eqb c "/") eqn:E; [|discriminate].
  apply Ascii.eqb_eq in E. now subst.
Qed.

(** X4.  Patterns are converted path segment by path segment: the
    expression of two patterns put one after the other is made of
    their two expressions, and the parameters are those of the first
    followed by those of the second. *)
Theorem Parse_concat (p1 p2 r1 r2 : string) (n1 n2 : list string) (ts : bool) :
  Parse NewParser p1 = Some (r1 ++ "/?", n1, false, None) ->
  Parse NewParser p2 = Some (r2 ++ "/?", n2, ts, None) ->
  p2 <> "/" ->
  Parse NewParser (p1 ++ p2) = Some (r1 ++ r2 ++ "/?", (n1 ++ n2)%list, ts, None).
Proof.
  intros H1 H2 Hp2.
  pose proof (Parse_ok_head _ _ H1) as Hh1.
  pose proof (Parse_ok_head _ _ H2) as Hh2.
  rewrite trimmed_default in H1, H2 by assumption.
  injection H1 as Hr1 Hn1 Hs1. injection H2 as Hr2 Hn2 Hs2.
  apply append_inv_r in Hr1, Hr2.
  assert (Ht1 : trimmed p1 = p1) by (unfold trimmed; now rewrite Hs1).
  rewrite Ht1 in *.
  destruct p2 as [|c y]; [discriminate|]. injection Hh2 as ->.
  assert (Hy : y <> "") by (intros ->; congruence).
  assert (Hne1 : p1 <> "") by (intros ->; discriminate).
  assert (Hts : ts = match Str.last y with
                     | Some d => Ascii.eqb d "/"
                     | None => false
                     end).
  { rewrite <- Hs2. replace (String "/" y =? "/")%string with false.
    - change (String "/" y) with ("/" ++ y). now rewrite last_append.
    - symmetry. apply String.eqb_neq. congruence. }
  assert (Ht2 : trimmed (String "/" y) = String "/" (if ts then Str.chop y else y)).
  { unfold trimmed. rewrite Hs2. destruct ts; [|reflexivity].
    change (String "/" y) with ("/" ++ y). now rewrite chop_append. }
  rewrite Ht2 in *.
  assert (Hlast : negb (p1 ++ String "/" y =? "/")%string &&
                  match Str.last (p1 ++ String "/" y) with
                  | Some d => Ascii.eqb d "/"
                  | None => false
                  end = ts).
  { replace (p1 ++ String "/" y =? "/")%string with false.
    - replace (p1 ++ String "/" y) with ((p1 ++ "/") ++ y)
        by (now rewrite append_assoc).
      rewrite last_append by exact Hy. now rewrite Hts.
    - symmetry. apply String.eqb_neq. intros E. apply (f_equal String.length) in E.
      rewrite length_append in E. destruct p1; [congruence|].
      cbn [String.length] in E. lia. }
  assert (Ht : trimmed (p1 ++ String "/" y)
               = p1 ++ String "/" (if ts then Str.chop y else y)).
  { unfold trimmed. rewrite Hlast. destruct ts; [|reflexivity].
    replace (p1 ++ String "/" y) with ((p1 ++ "/") ++ y) by (now rewrite append_assoc).
    rewrite chop_append by exact Hy. now rewrite append_assoc. }
  rewrite trimmed_default by (now rewrite head_append).
  rewrite Hlast, Ht, convert_slash, names_slash.
  change (String "/" (if ts then Str.chop y else y))
    with ("" ++ String "/" (if ts then Str.chop y else y)) in Hr2, Hn2.
  rewrite convert_slash in Hr2. rewrite names_slash in Hn2.
  change (convert "") with "" in Hr2. change (names "") with (@nil string) in Hn2.
  cbn [append app] in Hr2, Hn2.
  rewrite <- Hr1, <- Hr2, <- Hn1, <- Hn2.
  now rewrite !append_assoc.
Qed.

Lemma Parse_concat_witness :
  Parse NewParser "/users/<id:\d+>" = Some ("/users/(\d+)" ++ "/?", ["id"], false, None)
  /\ Parse NewParser "/posts/<title>/" = Some ("/posts/([^/]+)" ++ "/?", ["title"], true, None)
  /\ "/posts/<title>/" <> "/"
  /\ Parse NewParser ("/users/<id:\d+>" ++ "/posts/<title>/")
     = Some ("/users/(\d+)" ++ "/posts/([^/]+)" ++ "/?", (["id"] ++ ["title"])%list, true, None).
Proof.
  split; [reflexivity|]. split; [reflexivity|]. split; [discriminate|].
  apply (@Parse_concat "/users/<id:\d+>" "/posts/<title>/"); [reflexivity|reflexivity|discriminate].
Defined.

End ParserMore.

Section BarePlaceholder.
Import Regexp StrFacts RegexpFacts ParserFacts.

Lemma exec_bare_placeholder_then n (name lit : string) :
  name <> "" -> all_in true name_bytes name = true ->
  all_in true name_bytes lit = true -> Str.mem ">" lit = false ->
  let seg := "<" ++ name ++ ">" in
  exec_here defaultParserRegexp n (seg ++ lit)
  = Some (lit, [Some seg; Some name; None; None]).
Proof.
  intros Hname Hname_in Hlit_in Hlit seg.
  destruct name as [|a name]; [congruence|].
  unfold exec_here. rewrite run_cap, defaultParserRegexp_prog.
  change (numSubexp defaultParserRegexp) with 3. cbn [repeat].
  unfold seg. do 3 (rewrite ?append_assoc; cbn [append]).
  rewrite run_cat, run_lit.
  rewrite run_cat, run_cap.
  assert (Hclose : all_in true name_bytes (String ">" lit) = true).
  { cbn [all_in]. now rewrite Hlit_in. }
  replace (String a (name ++ String ">" lit)) with (String a (name ++ String ">" lit) ++ "")
    by apply append_nil_r.
  rewrite run_plus_set
    by (try reflexivity;
        change (String a (name ++ String ">" lit)) with (String a name ++ String ">" lit);
        now rewrite all_in_app, Hname_in, Hclose).
  rewrite greedy_try_back.
  - erewrite greedy_try_first; [reflexivity|].
    rewrite !append_nil_r. cbv beta.
    rewrite run_cat. unfold quest. cbn [run].
    change (Ascii.eqb ":" ">") with false. cbv iota.
    rewrite Ascii.eqb_refl.
    change (String a (name ++ String ">" lit)) with (String a name ++ String ">" lit).
    rewrite take_matched.
    unfold finish. f_equal. f_equal.
    cbn [set_cap]. f_equal. f_equal.
    replace (String "<" (String a name ++ String ">" lit))
      with (String "<" (String a name ++ ">") ++ lit)
      by (cbn [append]; now rewrite append_assoc).
    rewrite take_matched. cbn [append]. reflexivity.
  - intros w1 w2 Hw Hw1. destruct w1 as [|x w1]; [congruence|].
    cbn [append] in Hw. injection Hw as _ ->.
    rewrite mem_append in Hlit. apply orb_false_elim in Hlit. destruct Hlit as [_ Hw2].
    rewrite all_in_app in Hlit_in. apply andb_prop in Hlit_in. destruct Hlit_in as [_ Hin2].
    rewrite append_nil_r. cbv beta. rewrite run_cat. unfold quest.
    destruct w2 as [|y w2]; [reflexivity|].
    cbn [Str.mem] in Hw2. apply orb_false_elim in Hw2. destruct Hw2 as [Hy _].
    cbn [all_in] in Hin2. apply andb_prop in Hin2. destruct Hin2 as [Hy' _].
    unfold in_set, name_bytes in Hy'. cbn [existsb] in Hy'.
    rewrite !in_range_one in Hy'. cbn [xorb] in Hy'.
    apply negb_true_iff in Hy'. apply orb_false_elim in Hy'. destruct Hy' as [_ Hy'].
    apply orb_false_elim in Hy'. destruct Hy' as [Hy' _].
    cbn [run]. rewrite Hy'. now rewrite Hy.
Qed.

(** The walk over a segment made of literal text, a placeholder
    without a sub-expression, and literal text. *)
Lemma walk_bare_placeholder_between (lit1 name lit2 : string) :
  Str.mem "<" lit1 = false ->
  name <> "" -> all_in true name_bytes name = true ->
  all_in true name_bytes lit2 = true ->
  Str.mem "<" lit2 = false -> Str.mem ">" lit2 = false ->
  let seg := "<" ++ name ++ ">" in
  walk defaultParserRegexp (lit1 ++ seg ++ lit2)
  = (lits lit1 ++ inr [seg; name; ""; ""] :: lits lit2)%list.
Proof.
  intros Hlit1 Hname Hname_in Hlit2 Hopen Hclose seg.
  unfold walk. rewrite scan_S.
  rewrite (search_past_literal _ lit1 _ Hlit1).
  rewrite (search_here _ _ _
             (@exec_bare_placeholder_then _ _ _ Hname Hname_in Hlit2 Hclose)).
  fold seg. rewrite append_nil_r, drop_append. f_equal.
  replace (String.length lit2 <? String.length (seg ++ lit2)) with true
    by (symmetry; apply Nat.ltb_lt; rewrite length_append; unfold seg;
        cbn [append String.length]; lia).
  f_equal.
  destruct (String.length (lit1 ++ seg ++ lit2)) as [|fuel]; [reflexivity|].
  rewrite scan_S. now rewrite (search_literal _ _ Hopen).
Qed.

(** [Parse] around one path segment [mid] that does not end with a
    slash: what comes before and after is converted on its own. *)
Lemma Parse_around (pre mid post : string) :
  (pre = "" \/ Str.head pre = Some "/"%char) ->
  mid <> "" -> Str.last mid <> Some "/"%char ->
  (post = "" \/ Str.head post = Some "/"%char) ->
  let hasTrailingSlashes :=
    match Str.last post with
    | Some c => Ascii.eqb c "/"
    | None => false
    end in
  let post' := if hasTrailingSlashes then Str.chop post else post in
  Parse NewParser ((pre ++ "/" ++ mid) ++ post)
  = Some (convert pre ++ "/" ++ render (walk defaultParserRegexp mid ++
                                        walk defaultParserRegexp post') ++ "/?",
          (names pre ++ names_of (walk defaultParserRegexp mid ++
                                  walk defaultParserRegexp post'))%list,
          hasTrailingSlashes, None).
Proof.
  intros Hpre Hmid Hmidlast Hpost hts post'.
  assert (Hlast : match Str.last ((pre ++ "/" ++ mid) ++ post) with
                  | Some d => Ascii.eqb d "/"
                  | None => false
                  end = hts).
  { unfold hts. destruct post as [|c y].
    - rewrite append_nil_r.
      replace (pre ++ "/" ++ mid) with ((pre ++ "/") ++ mid) by (now rewrite append_assoc).
      rewrite last_append by exact Hmid. cbn [Str.last].
      destruct (Str.last mid) as [e|]; [|reflexivity].
      destruct (Ascii.eqb e "/") eqn:E; [|reflexivity].
      apply Ascii.eqb_eq in E. congruence.
    - now rewrite last_append by discriminate. }
  assert (Hstrip : negb ((pre ++ "/" ++ mid) ++ post =? "/")%string &&
                   match Str.last ((pre ++ "/" ++ mid) ++ post) with
                   | Some d => Ascii.eqb d "/"
                   | None => false
                   end = hts).
  { rewrite Hlast.
    replace ((pre ++ "/" ++ mid) ++ post =? "/")%string with false; [reflexivity|].
    symmetry. apply String.eqb_neq. intros H.
    apply (f_equal String.length) in H.
    do 3 (rewrite ?length_append in H; cbn [String.length] in H).
    destruct mid; [congruence|]. cbn [String.length] in H. lia. }
  assert (Hpost' : post' = "" \/ Str.head post' = Some "/"%char).
  { unfold post'. destruct hts; [|exact Hpost].
    destruct Hpost as [->|H]; [now left|].
    destruct post as [|c [|c' y]]; [discriminate|now left|right; exact H]. }
  rewrite trimmed_default
    by (destruct Hpre as [->|H]; [reflexivity|]; destruct pre; [discriminate|exact H]).
  rewrite Hstrip.
  replace (trimmed ((pre ++ "/" ++ mid) ++ post)) with ((pre ++ "/" ++ mid) ++ post').
  - rewrite !append_assoc. cbn [append].
    rewrite convert_slash, names_slash. unfold convert at 2, names at 2.
    rewrite (walk_segment_then mid Hpost').
    now rewrite !append_assoc.
  - unfold trimmed. rewrite Hstrip. unfold post'. destruct hts eqn:Ehts; [|reflexivity].
    rewrite chop_append; [reflexivity|].
    intros ->. unfold hts in Ehts. discriminate.
Qed.

(** X2.  A placeholder [<name>] without a sub-expression, in a path
    segment with no [<] before it and no [<], [>] or [:] after it:
    the name is a parameter, in its place among the names found before
    and after the segment, and the expression has [([^/]+)] where the
    placeholder was. *)
Theorem Parse_bare_placeholder (pre lit1 name lit2 post : string) :
  (pre = "" \/ Str.head pre = Some "/"%char) ->
  Str.mem "<" lit1 = false ->
  name <> "" -> Str.mem "/" name = false -> Str.mem ":" name = false ->
  Str.mem "/" lit2 = false -> Str.mem ":" lit2 = false ->
  Str.mem "<" lit2 = false -> Str.mem ">" lit2 = false ->
  (post = "" \/ Str.head post = Some "/"%char) ->
  let hasTrailingSlashes :=
    match Str.last post with
    | Some c => Ascii.eqb c "/"
    | None => false
    end in
  let post' := if hasTrailingSlashes then Str.chop post else post in
  Parse NewParser (pre ++ "/" ++ lit1 ++ "<" ++ name ++ ">" ++ lit2 ++ post)
  = Some (convert pre ++ "/" ++ lit1 ++ "([^/]+)" ++ lit2 ++ convert post' ++ "/?",
          (names pre ++ name :: names post')%list,
          hasTrailingSlashes, None).
Proof.
  intros Hpre Hlit1 Hname Hname1 Hname2 Hlit2 Hcolon Hopen Hclose Hpost hts post'.
  set (seg := "<" ++ name ++ ">").
  set (mid := lit1 ++ seg ++ lit2).
  replace (pre ++ "/" ++ lit1 ++ "<" ++ name ++ ">" ++ lit2 ++ post)
    with ((pre ++ "/" ++ mid) ++ post)
    by (unfold mid, seg; do 6 (rewrite ?append_assoc; cbn [append]); reflexivity).
  assert (Hmid : mid <> "").
  { unfold mid, seg. intros H. apply (f_equal String.length) in H.
    do 3 (rewrite ?length_append in H; cbn [String.length] in H). lia. }
  assert (Hmidlast : Str.last mid <> Some "/"%char).
  { unfold mid, seg.
    replace (lit1 ++ ("<" ++ name ++ ">") ++ lit2) with ((lit1 ++ "<" ++ name) ++ ">" ++ lit2)
      by (do 4 (rewrite ?append_assoc; cbn [append]); reflexivity).
    rewrite last_append by discriminate.
    apply last_no_slash. cbn [append Str.mem]. now rewrite Hlit2. }
  rewrite (Parse_around Hpre Hmid Hmidlast Hpost).
  fold hts. fold post'. unfold mid, seg.
  rewrite (@walk_bare_placeholder_between lit1 name lit2 Hlit1 Hname
             (name_bytes_mem _ Hname1 Hname2) (name_bytes_mem _ Hlit2 Hcolon)
             Hopen Hclose).
  rewrite !render_app, !names_of_app. cbn [render].
  rewrite !render_lits, names_of_inr, !names_of_lits.
  cbn [app nth]. unfold placeholder_regexp. cbn [nth String.eqb negb].
  unfold convert, names.
  do 6 (rewrite ?append_assoc; cbn [append]). reflexivity.
Qed.

Lemma Parse_bare_placeholder_witness :
  ("/hello" = "" \/ Str.head "/hello" = Some "/"%char)
  /\ Str.mem "<" "u-" = false
  /\ "name" <> "" /\ Str.mem "/" "name" = false /\ Str.mem ":" "name" = false
  /\ Str.mem "/" ".txt" = false /\ Str.mem ":" ".txt" = false
  /\ Str.mem "<" ".txt" = false /\ Str.mem ">" ".txt" = false
  /\ ("/raw/" = "" \/ Str.head "/raw/" = Some "/"%char)
  /\ Parse NewParser "/hello/u-<name>.txt/raw/"
     = Some ("/hello/u-([^/]+).txt/raw/?", ["name"], true, None).
Proof.
  split; [right; reflexivity|].
  split; [reflexivity|].
  split; [discriminate|]. split; [reflexivity|]. split; [reflexivity|].
  split; [reflexivity|]. split; [reflexivity|].
  split; [reflexivity|]. split; [reflexivity|].
  split; [right; reflexivity|].
  refine (@Parse_bare_placeholder "/hello" "u-" "name" ".txt" "/raw/"
                                  _ _ _ _ _ _ _ _ _ _);
    [right; reflexivity | reflexivity
     | discriminate | reflexivity | reflexivity
     | reflexivity | reflexivity | reflexivity | reflexivity
     | right; reflexivity].
Defined.

End BarePlaceholder.

Section CustomParser.
Import Regexp StrFacts RegexpFacts ParserFacts.

(** With three groups or more in the expression of the parser, the
    two loops of [Parse] find what they index. *)
Lemma Parse_with_groups (re : Regexp.t) (pattern : string) :
  3 <= numSubexp re ->
  Str.head pattern = Some "/"%char ->
  Parse (NewParserWithReg re) pattern
  = Some (render (walk re (trimmed pattern)) ++ "/?",
          names_of (walk re (trimmed pattern)),
          negb (pattern =? "/")%string &&
          match Str.last pattern with
          | Some d => Ascii.eqb d "/"
          | None => false
          end, None).
Proof.
  intros Hre Hhead. rewrite Parse_unfold by exact Hhead.
  simpl reg_. unfold FindAllStringSubmatch, ReplaceAllStringFunc, names_of.
  assert (Hlen : forall m, In (inr m) (walk re (trimmed pattern)) -> 4 <= length m).
  { intros m Hm. apply scan_lengths in Hm. lia. }
  destruct (matches_of (walk re (trimmed pattern))) as [|m ms] eqn:E.
  - rewrite (walk_no_match _ _ E), render_lits. reflexivity.
  - rewrite <- E.
    rewrite collect_params_names.
    + pose proof (@replace_events_render (walk re (trimmed pattern)) Hlen []) as H.
      simpl in H. rewrite H. reflexivity.
    + intros m' Hm'. apply in_matches_of in Hm'. apply Hlen in Hm'. lia.
Qed.

(** The closure panics at the first match when the matches have no
    entry 3. *)
Lemma replace_events_short (matches : list (list string)) (m0 : list string) :
  nth_error matches 0 = Some m0 -> nth_error m0 3 = None ->
  forall es,
    matches_of es <> [] ->
    replace_events (replacement matches) (-1)%Z es = None.
Proof.
  intros Hm0 Hshort. induction es as [|[a|m] es IH]; intros Hes.
  - now elim Hes.
  - cbn [replace_events]. now rewrite IH.
  - cbn [replace_events]. unfold replacement at 1.
    change (-1 + 1)%Z with 0%Z. cbn [Z.ltb Z.compare Z.to_nat].
    now rewrite Hm0, Hshort.
Qed.

(** X5.  [Parse] with an expression of one's own panics exactly when the
    expression has fewer than three groups and matches somewhere in
    the pattern: the closure reads entry 3 of every match. *)
Theorem Parse_panics_iff (re : Regexp.t) (pattern : string) :
  Str.head pattern = Some "/"%char ->
  (Parse (NewParserWithReg re) pattern = None
   <-> numSubexp re < 3 /\ FindAllStringSubmatch re (trimmed pattern) <> None).
Proof.
  intros Hhead. split.
  - intros H. destruct (Nat.lt_ge_cases (numSubexp re) 3) as [Hlt|Hge].
    + split; [exact Hlt|]. intros Hnone.
      rewrite Parse_unfold in H by exact Hhead. simpl reg_ in H.
      now rewrite Hnone in H.
    + now rewrite Parse_with_groups in H.
  - intros [Hlt Hsome]. rewrite Parse_unfold by exact Hhead. simpl reg_.
    unfold FindAllStringSubmatch in *.
    destruct (matches_of (walk re (trimmed pattern))) as [|m0 ms] eqn:E; [now elim Hsome|].
    destruct (collect_params (m0 :: ms)); [|reflexivity].
    unfold ReplaceAllStringFunc.
    rewrite (@replace_events_short (m0 :: ms) m0); try reflexivity.
    + apply nth_error_None.
      assert (Hin : In (inr m0) (walk re (trimmed pattern)))
        by (apply in_matches_of; rewrite E; now left).
      apply scan_lengths in Hin. lia.
    + now rewrite E.
Qed.

Lemma Parse_panics_iff_witness :
  Str.head "/hello/<name>" = Some "/"%char
  /\ Parse (NewParserWithReg one_group_regexp) "/hello/<name>" = None
  /\ numSubexp one_group_regexp < 3
  /\ FindAllStringSubmatch one_group_regexp (trimmed "/hello/<name>") <> None.
Proof.
  split; [reflexivity|].
  assert (H : numSubexp one_group_regexp < 3
              /\ FindAllStringSubmatch one_group_regexp (trimmed "/hello/<name>") <> None).
  { split; [simpl; lia|]. vm_compute. discriminate. }
  split; [|exact H].
  apply (proj2 (@Parse_panics_iff one_group_regexp "/hello/<name>" eq_refl)). exact H.
Defined.

End CustomParser.

(** ** Registration *)

Section Registration.
Import StrFacts MapFacts ParserFacts.

Lemma lookup_insert_other {A} (k k' : string) (v : A) m :
  k' <> k -> Map.lookup k' (Map.insert k v m) = Map.lookup k' m.
Proof. intros H. apply lookup_insert_ne. congruence. Qed.

(** X6.  [Group] panics on an empty prefix, on a prefix with a slash and
    on a prefix that is taken, and only then.  Otherwise the new group
    is found under its prefix, empty and with the parser of its
    parent; the other groups and the routes stay; and the same prefix
    cannot be given out again. *)
Theorem Group_registers (r : Router) (prefix : string) :
  (Group r prefix = None
   <-> prefix = "" \/ Str.mem "/" prefix = true \/ Map.lookup prefix (groups r) <> None)
  /\ (forall r',
         Group r prefix = Some r' ->
         Map.lookup prefix (groups r') = Some (set_parser (parser r) New)
         /\ (forall other, other <> prefix ->
                           Map.lookup other (groups r') = Map.lookup other (groups r))
         /\ routes r' = routes r
         /\ Group r' prefix = None).
Proof.
  unfold Group. split.
  - destruct (prefix =? "")%string eqn:E.
    + apply String.eqb_eq in E. tauto.
    + apply String.eqb_neq in E.
      destruct (Str.mem "/" prefix) eqn:Eslash; [tauto|].
      destruct (Map.lookup prefix (groups r)) eqn:El.
      * split; [intros _|reflexivity]. right. right. discriminate.
      * split; [discriminate|]. intros [H|[H|H]]; congruence.
  - intros r'.
    destruct (prefix =? "")%string eqn:E; [discriminate|].
    destruct (Str.mem "/" prefix) eqn:Eslash; [discriminate|].
    destruct (Map.lookup prefix (groups r)) eqn:El; [discriminate|].
    intros [= <-]. destruct r; simpl in *.
    rewrite lookup_insert. repeat split.
    intros other Hother. now apply lookup_insert_other.
Qed.

Lemma Group_registers_witness :
  Group New "v1" = Some (set_groups [("v1", New)] New)
  /\ Map.lookup "v1" (groups (set_groups [("v1", New)] New))
     = Some (set_parser (parser New) New).
Proof.
  split; [reflexivity|].
  exact (proj1 (proj2 (Group_registers New "v1") _ eq_refl)).
Defined.

(** X7.  With the default parser [Handle] panics on an empty pattern and
    on a pattern that does not begin with [/], and on no other. *)
Theorem Handle_panics_iff (r : Router) (method pattern : string) (h : Handler)
        (mw : list Middleware) :
  parser r = as_interface NewParser ->
  (Handle r method pattern h mw = None
   <-> pattern = "" \/ Str.head pattern <> Some "/"%char).
Proof.
  intros Hp. unfold Handle. rewrite Hp. simpl Parse_.
  destruct (Str.head pattern) as [c|] eqn:Hhead.
  - destruct (Ascii.eqb c "/") eqn:Hc.
    + apply Ascii.eqb_eq in Hc. subst c.
      rewrite Parse_default by exact Hhead.
      split; [discriminate|]. intros [->|H]; [discriminate|congruence].
    + unfold Parse. rewrite Hhead, Hc. simpl.
      split; [|reflexivity]. intros _. right. intros [= ->].
      now rewrite Ascii.eqb_refl in Hc.
  - unfold Parse. rewrite Hhead.
    split; [|reflexivity]. intros _. left. now destruct pattern.
Qed.

Lemma Handle_panics_iff_witness :
  parser New = as_interface NewParser
  /\ Handle New "GET" "users" emptyHandler [] = None.
Proof.
  split; [reflexivity|].
  apply (proj2 (@Handle_panics_iff New "GET" "users" emptyHandler [] eq_refl)).
  right. discriminate.
Defined.

Lemma slots_of_app (a b : list route) : slots_of (a ++ b)%list = (slots_of a ++ slots_of b)%list.
Proof. unfold slots_of. apply flat_map_app. Qed.

(** X8.  The route lists keep the shape [Handle] gives them: [nil], then
    each route followed by one [nil] per parameter.  The call touches
    the list of its method only, adds the new route after the slots
    that are there, and leaves groups and combined expressions as they
    are. *)
Theorem Handle_keeps_slotted (r r' : Router) (method pattern : string) (h : Handler)
        (mw : list Middleware) :
  (forall m l, Map.lookup m (routes r) = Some l -> slotted l) ->
  Handle r method pattern h mw = Some r' ->
  (forall m l, Map.lookup m (routes r') = Some l -> slotted l)
  /\ (exists rt,
         handler rt = h /\ middleware rt = mw /\ finalHandler rt = None
         /\ Parse_ (parser r) pattern
            = Some (reg rt, params rt, hasTrailingSlashes rt, None)
         /\ Map.lookup method (routes r')
            = Some (match Map.lookup method (routes r) with
                    | Some l => l
                    | None => [None]
                    end ++ slots_of [rt])%list)
  /\ (forall m, m <> method -> Map.lookup m (routes r') = Map.lookup m (routes r))
  /\ groups r' = groups r
  /\ combinedRegexps r' = combinedRegexps r.
Proof.
  intros Hinv. unfold Handle.
  destruct (Parse_ (parser r) pattern) as [[[[re ps] hts] [err|]]|] eqn:Hparse;
    try discriminate.
  cbv zeta. intros [= <-].
  set (rt := {| reg := re; params := ps; hasTrailingSlashes := hts;
                middleware := mw; handler := h; finalHandler := None |}).
  assert (Hnew : Map.lookup method (routes (set_routes
                   (Map.insert method
                      (match Map.lookup method (routes r) with
                       | Some l => l
                       | None => [None]
                       end ++ Some rt :: repeat None (length ps))%list (routes r)) r))
                 = Some (match Map.lookup method (routes r) with
                         | Some l => l
                         | None => [None]
                         end ++ slots_of [rt])%list).
  { destruct r; simpl. rewrite lookup_insert. unfold slots_of. simpl.
    now rewrite app_nil_r. }
  assert (Hother : forall m, m <> method ->
                     Map.lookup m (routes (set_routes
                       (Map.insert method
                          (match Map.lookup method (routes r) with
                           | Some l => l
                           | None => [None]
                           end ++ Some rt :: repeat None (length ps))%list (routes r)) r))
                     = Map.lookup m (routes r)).
  { intros m Hm. destruct r; simpl. now apply lookup_insert_other. }
  split; [|split; [|split; [exact Hother|split; now destruct r]]].
  - intros m l. destruct (string_dec m method) as [->|Hm].
    + rewrite Hnew. intros [= <-].
      destruct (Map.lookup method (routes r)) as [l0|] eqn:E.
      * destruct (Hinv _ _ E) as (rts & ->). exists (rts ++ [rt])%list.
        now rewrite slots_of_app.
      * now exists [rt].
    + rewrite (Hother _ Hm). apply Hinv.
  - exists rt. repeat split; auto.
Qed.

Lemma Handle_keeps_slotted_witness :
  (forall m l, Map.lookup m (routes New) = Some l -> slotted l)
  /\ Handle New "GET" "/users/<id>" emptyHandler []
     = Some (set_routes
               [("GET", [None;
                         Some {| reg := "/users/([^/]+)/?"; params := ["id"];
                                 hasTrailingSlashes := false; middleware := [];
                                 handler := emptyHandler; finalHandler := None |};
                         None])] New)
  /\ groups (set_routes
               [("GET", [None;
                         Some {| reg := "/users/([^/]+)/?"; params := ["id"];
                                 hasTrailingSlashes := false; middleware := [];
                                 handler := emptyHandler; finalHandler := None |};
                         None])] New) = groups New.
Proof.
  assert (H0 : forall m l, Map.lookup m (routes New) = Some l -> slotted l)
    by (intros m l; discriminate).
  split; [exact H0|]. split; [reflexivity|].
  exact (proj1 (proj2 (proj2 (proj2 (@Handle_keeps_slotted New _ "GET" "/users/<id>"
                                        emptyHandler [] H0 eq_refl))))).
Defined.

End Registration.

(** ** Preparation *)

Section Preparation.
Import StrFacts MapFacts.

Lemma route_regs_prepared mw (l : list (option route)) :
  route_regs (map (option_map (prepare_route mw)) l) = route_regs l.
Proof.
  unfold route_regs.
  induction l as [|[rt|] l IH]; [reflexivity| |];
    cbn [map flat_map option_map]; now rewrite IH.
Qed.

Lemma combined_expr_prepared mw (l : list (option route)) :
  combined_expr (map (option_map (prepare_route mw)) l) = combined_expr l.
Proof. unfold combined_expr. now rewrite route_regs_prepared. Qed.

(** The loop of [prepare] over methods that are all different: it
    panics when the combined expression of one of them does not
    compile; otherwise each of them has its routes prepared in place
    and its combined expression compiled from them. *)
Lemma prepare_methods_spec mw methods :
  forall rts res,
    NoDup methods ->
    match prepare_methods mw methods rts res with
    | Some (rts', res') =>
        forall m,
          In m methods ->
          let l := match Map.lookup m rts with
                   | Some l => l
                   | None => []
                   end in
          exists re,
            Regexp.Compile (combined_expr l) = Some re
            /\ Map.lookup m res' = Some re
            /\ Map.lookup m rts' = Some (map (option_map (prepare_route mw)) l)
    | None =>
        exists m,
          In m methods
          /\ Regexp.Compile (combined_expr match Map.lookup m rts with
                                           | Some l => l
                                           | None => []
                                           end) = None
    end.
Proof.
  induction methods as [|method methods IH]; intros rts res Hnd; cbn [prepare_methods].
  - intros m [].
  - inversion Hnd as [|? ? Hnotin Hnd']; subst.
    rewrite combined_expr_prepared.
    destruct (Regexp.Compile (combined_expr _)) as [re|] eqn:Hre.
    + specialize (IH (Map.insert method
                                 (map (option_map (prepare_route mw))
                                      match Map.lookup method rts with
                                      | Some l => l
                                      | None => []
                                      end) rts)
                     (Map.insert method re res) Hnd').
      destruct (prepare_methods mw methods _ _) as [[rts' res']|] eqn:Hrun.
      * intros m [<-|Hm].
        -- destruct (prepare_methods_others _ _ _ _ method Hrun Hnotin) as [H1 H2].
           rewrite lookup_insert in H1. rewrite lookup_insert in H2. exists re. auto.
        -- assert (Hne : method <> m) by (intros ->; contradiction).
           specialize (IH m Hm). cbv zeta in IH.
           rewrite (lookup_insert_ne _ _ Hne) in IH. exact IH.
      * destruct IH as (m & Hm & Hc).
        assert (Hne : method <> m) by (intros ->; contradiction).
        rewrite (lookup_insert_ne _ _ Hne) in Hc.
        exists m. split; [now right|exact Hc].
    + exists method. split; [now left|exact Hre].
Qed.

Lemma in_keys {A} (m : list (string * A)) k :
  In k (keys m) <-> exists v, Map.lookup k m = Some v.
Proof.
  unfold keys. rewrite nodup_In. split.
  - intros H. apply lookup_in_keys in H.
    destruct (Map.lookup k m) as [v|]; [now exists v|congruence].
  - intros [v Hv]. induction m as [|[k' v'] m IH]; simpl in *; [discriminate|].
    destruct (k =? k')%string eqn:E; [|auto].
    apply String.eqb_eq in E. auto.
Qed.

Lemma each_group_none {A B} (f : A -> option B) (gs : list (string * A)) :
  each_group f gs = None <-> exists prefix group, In (prefix, group) gs /\ f group = None.
Proof.
  induction gs as [|[p g] gs IH]; simpl.
  - split; [discriminate|]. now intros (? & ? & [] & _).
  - destruct (f g) as [g'|] eqn:Eg.
    + destruct (each_group f gs) as [gs'|].
      * split; [discriminate|]. intros (p' & g0 & Hin & Hf).
        destruct Hin as [Heq|Hin]; [injection Heq as <- <-; congruence|].
        assert (Hex : exists prefix group, In (prefix, group) gs /\ f group = None)
          by eauto.
        apply IH in Hex. discriminate.
      * split; [|reflexivity]. intros _.
        destruct (proj1 IH eq_refl) as (p' & g0 & Hin & H). eauto.
    + split; [|reflexivity]. intros _. exists p, g. auto.
Qed.

(** X9.  After [prepare] every method that has routes has its combined
    expression, compiled from the expressions of its routes in the
    order of registration, and its routes are where they were, each
    with its final handler.  The other fields are as before. *)
Theorem prepare_tables (inherited : list Middleware) (r r' : Router) :
  prepare inherited r = Some r' ->
  (forall method l,
      Map.lookup method (routes r) = Some l ->
      exists re,
        Regexp.Compile (combined_expr l) = Some re
        /\ Map.lookup method (combinedRegexps r') = Some re
        /\ Map.lookup method (routes r')
           = Some (map (option_map (prepare_route (inherited ++ Middleware_ r)%list)) l))
  /\ (forall method,
         Map.lookup method (routes r) = None ->
         Map.lookup method (routes r') = None
         /\ Map.lookup method (combinedRegexps r') = Map.lookup method (combinedRegexps r))
  /\ map fst (groups r') = map fst (groups r)
  /\ parser r' = parser r
  /\ PanicHandler r' = PanicHandler r
  /\ OptionsHandler r' = OptionsHandler r
  /\ MethodNotAllowedHandler r' = MethodNotAllowedHandler r
  /\ NotFoundHandler r' = NotFoundHandler r
  /\ TrailingSlashesPolicy r' = TrailingSlashesPolicy r.
Proof.
  destruct r as [mw res gs rts ps ph oh mh nf pol]. simpl.
  pose proof (@prepare_methods_spec (inherited ++ mw)%list (keys rts) rts res
                                    (NoDup_nodup string_dec _)) as Hspec.
  destruct (prepare_methods _ _ _ _) as [[rts1 res1]|] eqn:Hloop; [|discriminate].
  destruct (each_group _ gs) as [gs1|] eqn:Hgroups; [|discriminate].
  intros [= <-]. simpl. split; [|split; [|split]].
  - intros method l Hl.
    assert (Hin : In method (keys rts)) by (apply in_keys; eauto).
    specialize (Hspec method Hin). cbv zeta in Hspec. now rewrite Hl in Hspec.
  - intros method Hnone.
    assert (Hnotin : ~ In method (keys rts)).
    { intros H. apply in_keys in H. destruct H as [v H]. congruence. }
    destruct (prepare_methods_others _ _ _ _ method Hloop Hnotin) as [H1 H2].
    rewrite H1, H2. auto.
  - clear -Hgroups. revert gs1 Hgroups.
    induction gs as [|[p g] gs IH]; simpl; intros gs1 H.
    + now injection H as <-.
    + destruct (prepare _ g); [|discriminate].
      destruct (each_group _ gs) as [gs'|]; [|discriminate].
      injection H as <-. simpl. f_equal. now apply IH.
  - repeat split.
Qed.

Lemma prepare_tables_witness :
  prepare [] demo_layers = Some demo_layers_prepared
  /\ TrailingSlashesPolicy demo_layers_prepared = TrailingSlashesPolicy demo_layers.
Proof.
  split; [reflexivity|].
  apply (@prepare_tables [] demo_layers demo_layers_prepared eq_refl).
Defined.


End Preparation.

(** ** Resolving the group *)

Section Groups.
Import StrFacts MapFacts.

(** X12.  A path whose first segment is not the prefix of a group of the
    router is left to the router as it is; so is every path when the
    router has no groups. *)
Theorem fetchGroup_stays (r : Router) (path : string) :
  Map.lookup (first_segment path) (groups r) = None ->
  fetchGroup r path = (r, path).
Proof.
  intros H. unfold fetchGroup. cbn [fetchGroup_walk].
  destruct (negb (path =? "/")%string && (0 <? length (groups r))); [|reflexivity].
  destruct (1 <? segment_end (Str.drop 1 path) 1); [|reflexivity].
  fold (first_segment path). now rewrite H.
Qed.

Lemma fetchGroup_stays_witness :
  Map.lookup (first_segment "/v3/users") (groups demo_layers_prepared) = None
  /\ fetchGroup demo_layers_prepared "/v3/users" = (demo_layers_prepared, "/v3/users").
Proof.
  split; [reflexivity|].
  apply (@fetchGroup_stays demo_layers_prepared "/v3/users"). reflexivity.
Defined.

Lemma segment_end_app (p rest : string) (i : nat) :
  Str.mem "/" p = false ->
  rest = "" \/ Str.head rest = Some "/"%char ->
  segment_end (p ++ rest) i = i + String.length p.
Proof.
  revert i. induction p as [|c p IH]; intros i Hp Hrest; cbn [append segment_end String.length].
  - rewrite Nat.add_0_r. destruct Hrest as [->|H]; [reflexivity|].
    destruct rest as [|c rest]; [discriminate|]. injection H as ->. reflexivity.
  - cbn [Str.mem] in Hp. apply orb_false_elim in Hp. destruct Hp as [Hc Hp].
    rewrite Ascii.eqb_sym in Hc. rewrite Hc, IH by assumption. lia.
Qed.

(** One round of the loop on a path that begins with the prefix of a
    group of the current router. *)
Lemma fetchGroup_walk_step (fuel : nat) (r router group : Router) (prefix rest : string) :
  groups r <> [] ->
  prefix <> "" -> Str.mem "/" prefix = false ->
  rest = "" \/ Str.head rest = Some "/"%char ->
  Map.lookup prefix (groups router) = Some group ->
  fetchGroup_walk (S fuel) r router ("/" ++ prefix ++ rest)
  = if (rest =? "")%string then (group, "/") else fetchGroup_walk fuel r group rest.
Proof.
  intros Hgroups Hprefix Hslash Hrest Hgroup.
  cbn [fetchGroup_walk].
  replace ("/" ++ prefix ++ rest =? "/")%string with false.
  2:{ symmetry. apply String.eqb_neq. intros E. apply (f_equal String.length) in E.
      cbn [append String.length] in E. rewrite length_append in E.
      destruct prefix; [congruence|]. cbn [String.length] in E. lia. }
  replace (0 <? length (groups r)) with true
    by (symmetry; apply Nat.ltb_lt; destruct (groups r); [congruence|simpl; lia]).
  cbn [negb andb append Str.drop].
  rewrite (segment_end_app _ _ Hslash Hrest).
  replace (1 <? 1 + String.length prefix) with true
    by (symmetry; apply Nat.ltb_lt; destruct prefix; [congruence|simpl; lia]).
  change (1 + String.length prefix) with (S (String.length prefix)).
  cbn [Str.take Str.drop]. rewrite take_append, Hgroup.
  cbn [String.length]. rewrite length_append, drop_append.
  destruct rest as [|c rest].
  - cbn [String.length String.eqb].
    replace (S (String.length prefix) <? S (String.length prefix + 0)) with false
      by (symmetry; apply Nat.ltb_ge; lia).
    reflexivity.
  - cbn [String.length String.eqb].
    replace (S (String.length prefix) <? S (String.length prefix + S (String.length rest)))
      with true by (symmetry; apply Nat.ltb_lt; lia).
    reflexivity.
Qed.

(** Where the loop ends: on [/], and on a path whose first segment is
    no prefix of the current router. *)
Lemma fetchGroup_walk_stop (fuel : nat) (r router : Router) (rest : string) :
  rest = "/" \/ Map.lookup (first_segment rest) (groups router) = None ->
  fetchGroup_walk fuel r router rest = (router, rest).
Proof.
  intros H. destruct fuel as [|fuel]; [reflexivity|]. cbn [fetchGroup_walk].
  destruct H as [->|H]; [reflexivity|].
  destruct (negb (rest =? "/")%string && (0 <? length (groups r))); [|reflexivity].
  destruct (1 <? segment_end (Str.drop 1 rest) 1); [|reflexivity].
  fold (first_segment rest). now rewrite H.
Qed.

Lemma under_length (prefixes : list string) (rest : string) :
  length prefixes + String.length rest <= String.length (under prefixes rest).
Proof.
  induction prefixes as [|p ps IH]; cbn [under fold_right length]; [lia|].
  fold (under ps rest). cbn [append String.length]. rewrite length_append. lia.
Qed.

Lemma under_head (prefixes : list string) (rest : string) :
  rest = "" \/ Str.head rest = Some "/"%char ->
  under prefixes rest = "" \/ Str.head (under prefixes rest) = Some "/"%char.
Proof.
  intros H. destruct prefixes as [|p ps]; [exact H|]. right. reflexivity.
Qed.

Lemma fetchGroup_walk_down (r : Router) (prefixes : list string) :
  groups r <> [] ->
  forall fuel router group rest,
    Forall (fun p => p <> "" /\ Str.mem "/" p = false) prefixes ->
    prefixes <> [] ->
    descend router prefixes = Some group ->
    rest = ""
    \/ rest = "/"
    \/ (Str.head rest = Some "/"%char
        /\ Map.lookup (first_segment rest) (groups group) = None) ->
    length prefixes <= fuel ->
    fetchGroup_walk fuel r router (under prefixes rest)
    = (group, if (rest =? "")%string then "/" else rest).
Proof.
  intros Hgroups. induction prefixes as [|p ps IH];
    intros fuel router group rest Hall Hne Hdescend Hrest Hfuel; [congruence|].
  inversion Hall as [|? ? [Hp Hslash] Hall']; subst.
  cbn [descend] in Hdescend.
  destruct (Map.lookup p (groups router)) as [g|] eqn:Hg; [|discriminate].
  destruct fuel as [|fuel]; [simpl in Hfuel; lia|].
  cbn [under fold_right]. fold (under ps rest).
  assert (Hrest' : rest = "" \/ Str.head rest = Some "/"%char).
  { destruct Hrest as [->|[->|[H _]]]; auto. }
  rewrite (@fetchGroup_walk_step fuel r router g p (under ps rest) Hgroups Hp Hslash
             (under_head ps Hrest') Hg).
  destruct ps as [|p' ps'].
  - cbn [under fold_right]. cbn [descend] in Hdescend. injection Hdescend as <-.
    destruct rest as [|c rest']; [reflexivity|].
    cbn [String.eqb]. apply fetchGroup_walk_stop.
    destruct Hrest as [H|[H|[_ H]]]; [discriminate|now left|now right].
  - replace (under (p' :: ps') rest =? "")%string with false
      by (symmetry; apply String.eqb_neq; discriminate).
    apply IH; auto; [discriminate|]. simpl in Hfuel. simpl. lia.
Qed.

(** X13.  A path that goes down through prefixes of nested groups resolves
    to the innermost of them, with what is left of the path, or [/]
    when nothing is left.  The walk ends where the next segment is no
    prefix of a group. *)
Theorem fetchGroup_nested (r group : Router) (prefixes : list string) (rest : string) :
  prefixes <> [] ->
  Forall (fun p => p <> "" /\ Str.mem "/" p = false) prefixes ->
  descend r prefixes = Some group ->
  rest = ""
  \/ rest = "/"
  \/ (Str.head rest = Some "/"%char
      /\ Map.lookup (first_segment rest) (groups group) = None) ->
  fetchGroup r (under prefixes rest)
  = (group, if (rest =? "")%string then "/" else rest).
Proof.
  intros Hne Hall Hdescend Hrest. unfold fetchGroup.
  apply fetchGroup_walk_down; auto.
  - destruct prefixes as [|p ps]; [congruence|]. cbn [descend] in Hdescend.
    destruct (groups r); [discriminate|congruence].
  - pose proof (under_length prefixes rest). lia.
Qed.

Lemma fetchGroup_nested_witness :
  ["v1"] <> []
  /\ Forall (fun p => p <> "" /\ Str.mem "/" p = false) ["v1"]
  /\ descend demo_layers_prepared ["v1"]
     = Map.lookup "v1" (groups demo_layers_prepared)
  /\ Map.lookup (first_segment "/users/7") (groups match Map.lookup "v1" (groups demo_layers_prepared) with
                                                   | Some g => g
                                                   | None => New
                                                   end) = None
  /\ fst (fetchGroup demo_layers_prepared "/v1/users/7")
     = match Map.lookup "v1" (groups demo_layers_prepared) with
       | Some g => g
       | None => New
       end
  /\ snd (fetchGroup demo_layers_prepared "/v1/users/7") = "/users/7".
Proof.
  assert (H1 : ["v1"] <> []) by discriminate.
  assert (H2 : Forall (fun p => p <> "" /\ Str.mem "/" p = false) ["v1"])
    by (constructor; [split; [discriminate|reflexivity]|constructor]).
  split; [exact H1|]. split; [exact H2|]. split; [reflexivity|]. split; [reflexivity|].
  pose proof (@fetchGroup_nested demo_layers_prepared
                match Map.lookup "v1" (groups demo_layers_prepared) with
                | Some g => g
                | None => New
                end ["v1"] "/users/7" H1 H2 eq_refl
                (or_intror (or_intror (conj eq_refl eq_refl)))) as H.
  change (under ["v1"] "/users/7") with "/v1/users/7" in H.
  rewrite H. split; reflexivity.
Defined.

Lemma segment_end_slash (s : string) :
  forall j,
    segment_end s j - j < String.length s ->
    Str.head (Str.drop (segment_end s j - j) s) = Some "/"%char.
Proof.
  induction s as [|c s IH]; intros j; cbn [segment_end String.length]; [lia|].
  destruct (Ascii.eqb c "/") eqn:E.
  - intros _. rewrite Nat.sub_diag. apply Ascii.eqb_eq in E. now subst.
  - intros H.
    assert (Hge : S j <= segment_end s (S j)).
    { clear. revert j. induction s as [|d s IH]; intros j; cbn [segment_end]; [lia|].
      destruct (Ascii.eqb d "/"); [lia|]. specialize (IH (S j)). lia. }
    replace (segment_end s (S j) - j) with (S (segment_end s (S j) - S j)) by lia.
    cbn [Str.drop]. apply IH. lia.
Qed.

Lemma fetchGroup_walk_head (fuel : nat) (r : Router) :
  forall router path,
    Str.head path = Some "/"%char ->
    Str.head (snd (fetchGroup_walk fuel r router path)) = Some "/"%char.
Proof.
  induction fuel as [|fuel IH]; intros router path Hhead; [exact Hhead|].
  cbn [fetchGroup_walk].
  destruct (negb (path =? "/")%string && (0 <? length (groups r))); [|exact Hhead].
  destruct (1 <? segment_end (Str.drop 1 path) 1) eqn:E1; [|exact Hhead].
  destruct (Map.lookup _ (groups router)) as [group|]; [|exact Hhead].
  destruct (segment_end (Str.drop 1 path) 1 <? String.length path) eqn:E2; [|reflexivity].
  apply IH. destruct path as [|c s]; [discriminate|].
  cbn [Str.drop String.length] in *. apply Nat.ltb_lt in E1, E2.
  pose proof (@segment_end_slash s 1) as H.
  replace (segment_end s 1) with (S (segment_end s 1 - 1)) by lia.
  cbn [Str.drop]. apply H. lia.
Qed.

(** X14.  What is left of a path that begins with [/] begins with [/]: the
    router a request resolves to is given a path of the form its
    patterns have. *)
Theorem fetchGroup_keeps_slash (r : Router) (path : string) :
  Str.head path = Some "/"%char ->
  Str.head (snd (fetchGroup r path)) = Some "/"%char.
Proof. apply fetchGroup_walk_head. Qed.

Lemma fetchGroup_keeps_slash_witness :
  Str.head "/v1/users" = Some "/"%char
  /\ Str.head (snd (fetchGroup demo_layers_prepared "/v1/users")) = Some "/"%char.
Proof.
  split; [reflexivity|].
  apply (@fetchGroup_keeps_slash demo_layers_prepared "/v1/users"). reflexivity.
Defined.

End Groups.

(** ** A request that finds a slot *)

Section Matched.
Import StrFacts MapFacts.

(** [ServeHTTP] below the lookup, for a request that finds a slot. *)
Lemma serve_matched (r : Router) (w : ResponseWriter) (req : Request)
      (ms : list string) (slot : option route) :
  matched r req ms slot ->
  serve r w req
  = match handle_trailing_slashes r slot (Method req) w req with
    | Stop w req => (Returned w, req)
    | Crash rcv w req => (Panicked rcv w, req)
    | Go_on w req => bind_and_invoke slot ms (first_nonempty (tl ms) 1) w req
    end.
Proof.
  unfold matched, serve. destruct (fetchGroup r (URLPath req)) as [router path].
  intros (re & l & Hre & Hms & Hl & Hslot). now rewrite Hre, Hms, Hl, Hslot.
Qed.

Lemma matched_intro (r : Router) (req : Request) (ms : list string)
      (slot : option route) (router : Router) (path : string) (re : Regexp.t)
      (l : list (option route)) :
  fetchGroup r (URLPath req) = (router, path) ->
  Map.lookup (Method req) (combinedRegexps router) = Some re ->
  Regexp.FindStringSubmatch re path = Some ms ->
  Map.lookup (Method req) (routes router) = Some l ->
  nth_error l (first_nonempty (tl ms) 1) = Some slot ->
  matched r req ms slot.
Proof.
  intros Hf Hre Hms Hl Hslot. unfold matched. rewrite Hf. now exists re, l.
Qed.

Lemma fetchGroup_no_groups (r : Router) (path : string) :
  groups r = [] -> fetchGroup r path = (r, path).
Proof.
  intros H. unfold fetchGroup. cbn [fetchGroup_walk]. rewrite H.
  cbn [length Nat.ltb Nat.leb]. now rewrite andb_false_r.
Qed.

Lemma code_of_method (method : string) :
  (if negb (method =? http.MethodGet)%string
   then http.StatusPermanentRedirect else http.StatusMovedPermanently)
  = redirect_code method.
Proof. unfold redirect_code. now destruct (method =? http.MethodGet)%string. Qed.

Lemma recovered_returned (r : Router) (req : Request) (w : ResponseWriter) :
  recovered r req (Returned w) = Returned w.
Proof. unfold recovered. now destruct (PanicHandler r). Qed.

Lemma ends_with_slash_last (path : string) (b : bool) :
  ends_with_slash path = b -> path <> "" ->
  exists c, Str.last path = Some c /\ Ascii.eqb c "/" = b.
Proof.
  unfold ends_with_slash. intros H Hne.
  destruct (Str.last path) as [c|] eqn:E; [now exists c|].
  exfalso. clear H. induction path as [|a [|a' p] IH]; [congruence|discriminate|].
  apply IH; [exact E|discriminate].
Qed.

Lemma ends_with_slash_nonempty (path : string) :
  ends_with_slash path = true -> path <> "".
Proof. now intros H ->. Qed.

(** X17.  Under the policy that removes trailing slashes, a request that
    finds a slot and whose path, other than [/], ends with a slash is
    answered with a redirect to the path without it, 301 for GET and
    308 for the other methods; no handler runs. *)
Theorem remove_policy_redirects (r : Router) (w : ResponseWriter) (req : Request)
        (ms : list string) (slot : option route) :
  TrailingSlashesPolicy r = RemoveTrailingSlashes ->
  matched r req ms slot ->
  ends_with_slash (URLPath req) = true ->
  URLPath req <> "/" ->
  ServeHTTP r w req
  = Returned (http.Redirect w (Str.chop (URLPath req)) (redirect_code (Method req))).
Proof.
  intros Hpol Hm Hends Hroot. unfold ServeHTTP. rewrite (@serve_matched _ w _ _ _ Hm).
  unfold handle_trailing_slashes. rewrite Hpol, code_of_method.
  destruct (@ends_with_slash_last _ _ Hends (@ends_with_slash_nonempty _ Hends)) as (c & -> & ->).
  replace (URLPath req =? "/")%string with false
    by (symmetry; now apply String.eqb_neq).
  cbn. apply recovered_returned.
Qed.

(** X18.  Under the policy that appends trailing slashes, a request that
    finds a slot and whose path does not end with a slash is answered
    with a redirect to the path with one; no handler runs. *)
Theorem append_policy_redirects (r : Router) (w : ResponseWriter) (req : Request)
        (ms : list string) (slot : option route) :
  TrailingSlashesPolicy r = AppendTrailingSlashes ->
  matched r req ms slot ->
  URLPath req <> "" ->
  ends_with_slash (URLPath req) = false ->
  ServeHTTP r w req
  = Returned (http.Redirect w (URLPath req ++ "/") (redirect_code (Method req))).
Proof.
  intros Hpol Hm Hne Hends. unfold ServeHTTP. rewrite (@serve_matched _ w _ _ _ Hm).
  unfold handle_trailing_slashes. rewrite Hpol, code_of_method.
  destruct (@ends_with_slash_last _ _ Hends Hne) as (c & -> & ->).
  replace (URLPath req =? "/")%string with false.
  - cbn. apply recovered_returned.
  - symmetry. apply String.eqb_neq. intros E. now rewrite E in Hends.
Qed.

(** X19.  Under the strict policy, a request for a route whose pattern ends
    with a slash, on a path that does not, is answered with a redirect
    to the path with a slash; the handler of the route does not run. *)
Theorem strict_policy_appends (r : Router) (w : ResponseWriter) (req : Request)
        (ms : list string) (rt : route) :
  TrailingSlashesPolicy r = StrictTrailingSlashes ->
  matched r req ms (Some rt) ->
  hasTrailingSlashes rt = true ->
  URLPath req <> "" ->
  ends_with_slash (URLPath req) = false ->
  ServeHTTP r w req
  = Returned (http.Redirect w (URLPath req ++ "/") (redirect_code (Method req))).
Proof.
  intros Hpol Hm Hts Hne Hends. unfold ServeHTTP. rewrite (@serve_matched _ w _ _ _ Hm).
  unfold handle_trailing_slashes. rewrite Hpol, code_of_method, Hts.
  destruct (@ends_with_slash_last _ _ Hends Hne) as (c & -> & ->).
  replace (URLPath req =? "/")%string with false.
  - cbn. apply recovered_returned.
  - symmetry. apply String.eqb_neq. intros E. now rewrite E in Hends.
Qed.

Lemma go_on_as_wanted (r : Router) (rt : route) (method : string)
      (w : ResponseWriter) (req : Request) :
  as_wanted r rt req ->
  handle_trailing_slashes r (Some rt) method w req = Go_on w req.
Proof.
  unfold handle_trailing_slashes.
  intros [Hpol|[Hroot|(Hne & H)]].
  - now rewrite Hpol.
  - rewrite Hroot. cbn [Str.last String.eqb Ascii.eqb Bool.eqb negb andb].
    destruct (negb (TrailingSlashesPolicy r =? IgnoreTrailingSlashes)%Z); [|reflexivity].
    now rewrite !andb_false_r.
  - destruct (negb (TrailingSlashesPolicy r =? IgnoreTrailingSlashes)%Z); [|reflexivity].
    destruct (ends_with_slash (URLPath req)) eqn:Hends;
      destruct (@ends_with_slash_last _ _ Hends Hne) as (c & -> & ->);
      destruct H as [[-> H]|[[-> H]|[-> H]]]; try discriminate;
        destruct (URLPath req =? "/")%string; cbn;
          rewrite ?andb_false_r, ?H; cbn; rewrite ?andb_false_r; reflexivity.
Qed.

Lemma bind_params_some (names ms : list string) :
  forall i acc,
    i + length names < length ms ->
    exists ps, bind_params names ms i acc = Some ps.
Proof.
  induction names as [|name names IH]; intros i acc H; cbn [bind_params].
  - now exists acc.
  - cbn [length] in H.
    destruct (nth_error ms (S i)) as [v|] eqn:E.
    + apply IH. lia.
    + apply nth_error_None in E. lia.
Qed.

(** X15.  A request that finds a route and that the trailing slashes block
    lets through ends with the call of the final handler of the route,
    on the response as it came in.  The request is the one that came
    in when the route has no parameters; otherwise its context has the
    parameters that the loop over the names bound. *)
Theorem dispatch_invokes_handler (r : Router) (w : ResponseWriter) (req : Request)
        (ms : list string) (rt : route) (h : Handler) :
  matched r req ms (Some rt) ->
  as_wanted r rt req ->
  finalHandler rt = Some h ->
  params rt = [] \/ first_nonempty (tl ms) 1 + length (params rt) < length ms ->
  exists req',
    ServeHTTP r w req = recovered r req' (h w req')
    /\ Method req' = Method req /\ URLPath req' = URLPath req
    /\ match params rt with
       | [] => Params req' = Params req
       | _ => exists ps,
           bind_params (params rt) ms (first_nonempty (tl ms) 1) [] = Some ps
           /\ Params req' = Some ps
       end.
Proof.
  intros Hm Hwanted Hh Hlen. unfold ServeHTTP. rewrite (@serve_matched _ w _ _ _ Hm).
  rewrite (@go_on_as_wanted _ _ (Method req) w _ Hwanted).
  unfold bind_and_invoke. rewrite Hh.
  destruct (params rt) as [|name names] eqn:Hparams.
  - exists req. cbn. auto.
  - destruct Hlen as [Hlen|Hlen]; [discriminate|].
    destruct (@bind_params_some (name :: names) ms _ [] Hlen) as [ps Hps].
    rewrite Hps. cbn [length Nat.ltb Nat.leb].
    exists (with_params ps req). repeat split. now exists ps.
Qed.

End Matched.

(** ** Parameters *)

Section Parameters.
Import MapFacts.

Lemma bind_params_others (names ms : list string) :
  forall i acc ps name,
    bind_params names ms i acc = Some ps ->
    ~ In name names ->
    Map.lookup name ps = Map.lookup name acc.
Proof.
  induction names as [|n names IH]; intros i acc ps name; cbn [bind_params].
  - now intros [= <-].
  - destruct (nth_error ms (S i)) as [v|]; [|discriminate].
    intros H Hnotin. rewrite (IH _ _ _ _ H) by (intros Hin; apply Hnotin; now right).
    apply lookup_insert_ne. intros ->. apply Hnotin. now left.
Qed.

Lemma bind_params_at (names ms : list string) :
  forall i acc ps k name,
    bind_params names ms i acc = Some ps ->
    nth_error names k = Some name ->
    ~ In name (skipn (S k) names) ->
    Map.lookup name ps = nth_error ms (i + 1 + k).
Proof.
  induction names as [|n names IH]; intros i acc ps k name; cbn [bind_params].
  - now destruct k.
  - destruct (nth_error ms (S i)) as [v|] eqn:E; [|discriminate].
    intros H Hk Hlast. destruct k as [|k].
    + injection Hk as ->. cbn [skipn] in Hlast.
      rewrite (@bind_params_others _ _ _ _ _ _ H Hlast), lookup_insert.
      now replace (i + 1 + 0) with (S i) by lia.
    + cbn [nth_error skipn] in Hk, Hlast.
      rewrite (IH _ _ _ _ _ H Hk Hlast). f_equal. lia.
Qed.

Lemma bind_params_none (names ms : list string) :
  forall i acc,
    names <> [] -> length ms <= i + length names ->
    bind_params names ms i acc = None.
Proof.
  induction names as [|n names IH]; intros i acc Hne Hlen; [congruence|].
  cbn [bind_params]. cbn [length] in Hlen.
  destruct (nth_error ms (S i)) as [v|] eqn:E; [|reflexivity].
  destruct names as [|n' names'].
  - assert (S i < length ms) by (apply nth_error_Some; congruence).
    cbn [length] in Hlen. lia.
  - apply IH; [discriminate|]. cbn [length] in *. lia.
Qed.

(** X16.  The loop that binds the parameters of the route at index [i]
    reads the submatches after [i]: parameter number [k] gets submatch
    [i + 1 + k], and of two parameters with one name the later one
    stays.  The loop runs out of the submatches, and panics, exactly
    when there are names and fewer than [i + 1 + len(names)]
    submatches. *)
Theorem bind_params_binds (names ms : list string) (i : nat) :
  (bind_params names ms i [] = None
   <-> names <> [] /\ length ms <= i + length names)
  /\ (forall ps k name,
         bind_params names ms i [] = Some ps ->
         nth_error names k = Some name ->
         ~ In name (skipn (S k) names) ->
         Map.lookup name ps = nth_error ms (i + 1 + k))
  /\ (forall ps name,
         bind_params names ms i [] = Some ps ->
         ~ In name names ->
         Map.lookup name ps = None).
Proof.
  split; [|split].
  - split.
    + intros H. destruct names as [|n names]; [discriminate|].
      split; [discriminate|].
      destruct (Nat.lt_ge_cases (i + length (n :: names)) (length ms)) as [Hlt|Hge];
        [|exact Hge].
      destruct (@bind_params_some (n :: names) ms i [] Hlt) as [ps Hps]. congruence.
    + intros [Hne Hlen]. now apply bind_params_none.
  - intros ps k name. apply bind_params_at.
  - intros ps name H Hnotin. now rewrite (@bind_params_others _ _ _ _ _ _ H Hnotin).
Qed.

Lemma bind_params_binds_witness :
  bind_params ["id"; "title"; "id"] ["/a/b/c"; ""; "/a/b/c"; "a"; "b"; "c"] 2 []
  = Some [("id", "c"); ("title", "b")]
  /\ Map.lookup "id" [("id", "c"); ("title", "b")]
     = nth_error ["/a/b/c"; ""; "/a/b/c"; "a"; "b"; "c"] (2 + 1 + 2).
Proof.
  split; [reflexivity|].
  apply (proj1 (proj2 (@bind_params_binds ["id"; "title"; "id"]
                                          ["/a/b/c"; ""; "/a/b/c"; "a"; "b"; "c"] 2))
               [("id", "c"); ("title", "b")] 2 "id"); [reflexivity|reflexivity|].
  simpl. tauto.
Defined.

End Parameters.

(** ** Panics, and requests that find no route *)

Section Fallback.
Import MapFacts.

(** X23.  With a [PanicHandler] that returns, [ServeHTTP] returns: every
    panic below it, of the router or of a handler, ends in the call
    of the [PanicHandler]. *)
Theorem PanicHandler_recovers (r : Router)
        (ph : ResponseWriter -> Request -> string -> Outcome) :
  PanicHandler r = Some ph ->
  (forall w req rcv, exists w', ph w req rcv = Returned w') ->
  forall w req,
    (exists w', ServeHTTP r w req = Returned w')
    /\ (forall rcv w', fst (serve r w req) = Panicked rcv w' ->
                       ServeHTTP r w req = ph w' (snd (serve r w req)) rcv)
    /\ (forall w', fst (serve r w req) = Returned w' -> ServeHTTP r w req = Returned w').
Proof.
  intros Hph Htotal w req. unfold ServeHTTP.
  destruct (serve r w req) as [out req']. unfold recovered. rewrite Hph. cbn [fst snd].
  split; [|split].
  - destruct out as [w'|rcv w']; [now exists w'|apply Htotal].
  - now intros rcv w' ->.
  - now intros w' ->.
Qed.

Lemma scan_of_none (router : Router) (method path : string) :
  scan_of router method path = None ->
  match Map.lookup method (combinedRegexps router) with
  | Some re => Regexp.FindStringSubmatch re path
  | None => None
  end = None.
Proof.
  unfold scan_of. destruct (Map.lookup method (combinedRegexps router)); [|reflexivity].
  now destruct (Regexp.FindStringSubmatch t path).
Qed.

(** X20.  An OPTIONS request that finds no route of its own is answered
    with the methods allowed for its path: by [OptionsHandler] if
    there is one, else with an [Allow] header that lists them, on a
    response that is otherwise untouched. *)
Theorem options_handling (r : Router) (w : ResponseWriter) (req : Request)
        (router : Router) (path : string) :
  Method req = http.MethodOptions ->
  fetchGroup r (URLPath req) = (router, path) ->
  scan_of router http.MethodOptions path = None ->
  ServeHTTP r w req
  = match OptionsHandler r with
    | Some h => recovered r req (h w req (retrieveMethods router path))
    | None =>
        Returned (http.SetHeader "Allow" (Str.join ", " (retrieveMethods router path)) w)
    end.
Proof.
  intros Hmethod Hfetch Hscan. unfold ServeHTTP, serve. rewrite Hfetch, Hmethod.
  rewrite (@scan_of_none _ _ _ Hscan). unfold fallback.
  rewrite String.eqb_refl.
  destruct (OptionsHandler r); [reflexivity|]. apply recovered_returned.
Qed.

(** X21.  A request with another method that finds no route, on a path that
    some method is allowed for, is answered by
    [MethodNotAllowedHandler] if there is one, else with 405, the text
    of that status and an [Allow] header that lists the methods. *)
Theorem method_not_allowed_handling (r : Router) (w : ResponseWriter) (req : Request)
        (router : Router) (path : string) :
  Method req <> http.MethodOptions ->
  fetchGroup r (URLPath req) = (router, path) ->
  scan_of router (Method req) path = None ->
  retrieveMethods router path <> [] ->
  let methods := retrieveMethods router path in
  let w' := http.Error (http.SetHeader "Allow" (Str.join ", " methods) w)
                       "Method Not Allowed" http.StatusMethodNotAllowed in
  ServeHTTP r w req
  = match MethodNotAllowedHandler r with
    | Some h => recovered r req (h w req methods)
    | None => Returned w'
    end
  /\ Map.lookup "Allow" (Header w') = Some (Str.join ", " methods)
  /\ Code w' = (if wroteHeader w then Code w else 405).
Proof.
  intros Hmethod Hfetch Hscan Hsome methods w'. split; [|split].
  - unfold ServeHTTP, serve. rewrite Hfetch.
    rewrite (@scan_of_none _ _ _ Hscan). unfold fallback.
    replace (Method req =? http.MethodOptions)%string with false
      by (symmetry; now apply String.eqb_neq).
    assert (Hpos : (0 <? length (retrieveMethods router path)) = true).
    { apply Nat.ltb_lt. destruct (retrieveMethods router path); [congruence|simpl; lia]. }
    rewrite Hpos. fold methods.
    destruct (MethodNotAllowedHandler r); [reflexivity|]. apply recovered_returned.
  - unfold w', http.Error, http.Write, http.WriteHeader, http.SetHeader; simpl.
    destruct (wroteHeader w); simpl;
      rewrite lookup_insert_ne by discriminate;
      rewrite lookup_insert_ne by discriminate;
      apply lookup_insert.
  - unfold w', http.Error, http.Write, http.WriteHeader, http.SetHeader; simpl.
    now destruct (wroteHeader w).
Qed.

Lemma match_iff_find (re : Regexp.t) (path : string) :
  Regexp.MatchString re path = true <-> Regexp.FindStringSubmatch re path <> None.
Proof.
  unfold Regexp.MatchString, Regexp.FindStringSubmatch.
  destruct (Regexp.search re (String.length path) path) as [[[? ?] ?]|];
    split; congruence.
Qed.

(** X22.  The allowed methods of a path are the methods whose combined
    expression matches it: those a request for the path would find a
    slot with.  So the method of a request that found none is not
    among them. *)
Theorem retrieveMethods_allowed (router : Router) (path method : string) :
  NoDup (map fst (combinedRegexps router)) ->
  (In method (retrieveMethods router path) <-> scan_of router method path <> None).
Proof.
  unfold retrieveMethods, scan_of.
  induction (combinedRegexps router) as [|[k re] m IH]; cbn [map fst flat_map Map.lookup snd].
  - intros _. split; [intros []|congruence].
  - intros Hnd. inversion Hnd as [|? ? Hnotin Hnd']; subst.
    rewrite in_app_iff. destruct (method =? k)%string eqn:E.
    + apply String.eqb_eq in E. subst k.
      assert (Hrest : ~ In method
                        (flat_map (fun e => if Regexp.MatchString (snd e) path
                                            then [fst e] else []) m)).
      { intros H. apply in_flat_map in H. destruct H as ([k' re'] & Hin & H).
        cbn [fst snd] in H. destruct (Regexp.MatchString re' path); [|destruct H].
        destruct H as [->|[]]. apply Hnotin. now apply (in_map fst) in Hin. }
      pose proof (match_iff_find re path) as Hiff.
      destruct (Regexp.MatchString re path) eqn:Em.
      * split; [intros _|intros _; left; now left].
        destruct (Regexp.FindStringSubmatch re path); [discriminate|].
        now elim (proj1 Hiff eq_refl).
      * split; [intros [[]|H]; contradiction|].
        destruct (Regexp.FindStringSubmatch re path); [|congruence].
        intros _. assert (false = true) by (apply Hiff; discriminate). discriminate.
    + rewrite <- (IH Hnd'). split; [intros [H|H]; [|exact H]|now right].
      destruct (Regexp.MatchString re path); [|destruct H].
      destruct H as [->|[]]. now rewrite String.eqb_refl in E.
Qed.

End Fallback.

(** The table of [slashes_router], whatever the policy. *)
Lemma slashes_router_matched (policy : Z) (path : string) (ms : list string) :
  Regexp.FindStringSubmatch
    match Map.lookup "POST" (combinedRegexps (slashes_router policy)) with
    | Some re => re
    | None => Regexp.mk Regexp.Eps 0
    end path = Some ms ->
  first_nonempty (tl ms) 1 = 1 ->
  matched (slashes_router policy) (NewRequest "POST" path) ms
          (Some {| reg := "/users/([^/]+)/?"; params := ["id"]; hasTrailingSlashes := true;
                   middleware := []; handler := helloHandler "user";
                   finalHandler := Some (helloHandler "user") |}).
Proof.
  intros Hms Hi.
  eapply (@matched_intro _ _ _ _ (slashes_router policy) path).
  - apply fetchGroup_no_groups. vm_compute. reflexivity.
  - vm_compute. reflexivity.
  - exact Hms.
  - vm_compute. reflexivity.
  - rewrite Hi. reflexivity.
Qed.

Lemma remove_policy_redirects_witness :
  TrailingSlashesPolicy (slashes_router RemoveTrailingSlashes) = RemoveTrailingSlashes
  /\ ends_with_slash "/users/7/" = true
  /\ "/users/7/" <> "/"
  /\ ServeHTTP (slashes_router RemoveTrailingSlashes) http.NewRecorder
               (NewRequest "POST" "/users/7/")
     = Returned (http.Redirect http.NewRecorder "/users/7" 308).
Proof.
  split; [reflexivity|]. split; [reflexivity|]. split; [discriminate|].
  refine (@remove_policy_redirects (slashes_router RemoveTrailingSlashes) http.NewRecorder
            (NewRequest "POST" "/users/7/") ["/users/7/"; "/users/7/"; "7"] _ _ _ _ _);
    [reflexivity | | reflexivity | discriminate].
  apply slashes_router_matched; vm_compute; reflexivity.
Defined.

Lemma append_policy_redirects_witness :
  TrailingSlashesPolicy (slashes_router AppendTrailingSlashes) = AppendTrailingSlashes
  /\ "/users/7" <> ""
  /\ ends_with_slash "/users/7" = false
  /\ ServeHTTP (slashes_router AppendTrailingSlashes) http.NewRecorder
               (NewRequest "POST" "/users/7")
     = Returned (http.Redirect http.NewRecorder "/users/7/" 308).
Proof.
  split; [reflexivity|]. split; [discriminate|]. split; [reflexivity|].
  refine (@append_policy_redirects (slashes_router AppendTrailingSlashes) http.NewRecorder
            (NewRequest "POST" "/users/7") ["/users/7"; "/users/7"; "7"] _ _ _ _ _);
    [reflexivity | | discriminate | reflexivity].
  apply slashes_router_matched; vm_compute; reflexivity.
Defined.

Lemma strict_policy_appends_witness :
  TrailingSlashesPolicy (slashes_router StrictTrailingSlashes) = StrictTrailingSlashes
  /\ "/users/7" <> ""
  /\ ends_with_slash "/users/7" = false
  /\ ServeHTTP (slashes_router StrictTrailingSlashes) http.NewRecorder
               (NewRequest "POST" "/users/7")
     = Returned (http.Redirect http.NewRecorder "/users/7/" 308).
Proof.
  split; [reflexivity|]. split; [discriminate|]. split; [reflexivity|].
  refine (@strict_policy_appends (slashes_router StrictTrailingSlashes) http.NewRecorder
            (NewRequest "POST" "/users/7") ["/users/7"; "/users/7"; "7"]
            {| reg := "/users/([^/]+)/?"; params := ["id"]; hasTrailingSlashes := true;
               middleware := []; handler := helloHandler "user";
               finalHandler := Some (helloHandler "user") |} _ _ _ _ _);
    [reflexivity | | reflexivity | discriminate | reflexivity].
  apply slashes_router_matched; vm_compute; reflexivity.
Defined.

Lemma dispatch_invokes_handler_witness :
  exists req',
    ServeHTTP (slashes_router StrictTrailingSlashes) http.NewRecorder
              (NewRequest "POST" "/users/7/")
    = recovered (slashes_router StrictTrailingSlashes) req'
                (helloHandler "user" http.NewRecorder req')
    /\ Method req' = "POST" /\ URLPath req' = "/users/7/"
    /\ exists ps,
        bind_params ["id"] ["/users/7/"; "/users/7/"; "7"] 1 [] = Some ps
        /\ Params req' = Some ps.
Proof.
  refine (@dispatch_invokes_handler (slashes_router StrictTrailingSlashes) http.NewRecorder
            (NewRequest "POST" "/users/7/") ["/users/7/"; "/users/7/"; "7"]
            {| reg := "/users/([^/]+)/?"; params := ["id"]; hasTrailingSlashes := true;
               middleware := []; handler := helloHandler "user";
               finalHandler := Some (helloHandler "user") |}
            (helloHandler "user") _ _ _ _).
  - apply slashes_router_matched; vm_compute; reflexivity.
  - right. right. split; [discriminate|]. right. right. split; reflexivity.
  - reflexivity.
  - right. simpl. lia.
Defined.

Lemma PanicHandler_recovers_witness :
  PanicHandler guarded_router = Some recoverHandler
  /\ fst (serve guarded_router http.NewRecorder (NewRequest "GET" "/y"))
     = Panicked index_out_of_range http.NewRecorder
  /\ ServeHTTP guarded_router http.NewRecorder (NewRequest "GET" "/y")
     = Returned (http.Error http.NewRecorder index_out_of_range 500).
Proof.
  split; [reflexivity|]. split; [reflexivity|].
  refine (proj1 (proj2 (@PanicHandler_recovers guarded_router recoverHandler eq_refl _
                                                 http.NewRecorder (NewRequest "GET" "/y")))
                _ _ eq_refl).
  intros w req rcv. eexists. reflexivity.
Defined.

Lemma options_handling_witness :
  Method (NewRequest "OPTIONS" "/users") = http.MethodOptions
  /\ fetchGroup demo_router "/users" = (demo_router, "/users")
  /\ scan_of demo_router http.MethodOptions "/users" = None
  /\ ServeHTTP demo_router http.NewRecorder (NewRequest "OPTIONS" "/users")
     = Returned (http.SetHeader "Allow" "POST" http.NewRecorder).
Proof.
  split; [reflexivity|]. split; [reflexivity|]. split; [reflexivity|].
  exact (@options_handling demo_router http.NewRecorder (NewRequest "OPTIONS" "/users")
                           demo_router "/users" eq_refl eq_refl eq_refl).
Defined.

Lemma method_not_allowed_handling_witness :
  Method (NewRequest "GET" "/users") <> http.MethodOptions
  /\ fetchGroup demo_router "/users" = (demo_router, "/users")
  /\ scan_of demo_router "GET" "/users" = None
  /\ retrieveMethods demo_router "/users" <> []
  /\ ServeHTTP demo_router http.NewRecorder (NewRequest "GET" "/users")
     = Returned (http.Error (http.SetHeader "Allow" "POST" http.NewRecorder)
                            "Method Not Allowed" 405).
Proof.
  assert (H1 : Method (NewRequest "GET" "/users") <> http.MethodOptions) by discriminate.
  assert (H2 : retrieveMethods demo_router "/users" <> []) by (vm_compute; discriminate).
  split; [exact H1|]. split; [reflexivity|]. split; [reflexivity|]. split; [exact H2|].
  exact (proj1 (@method_not_allowed_handling demo_router http.NewRecorder
                  (NewRequest "GET" "/users") demo_router "/users" H1 eq_refl eq_refl H2)).
Defined.

Lemma retrieveMethods_allowed_witness :
  NoDup (map fst (combinedRegexps demo_router))
  /\ scan_of demo_router "GET" "/users" = None
  /\ ~ In "GET" (retrieveMethods demo_router "/users").
Proof.
  assert (H : NoDup (map fst (combinedRegexps demo_router))).
  { simpl. constructor; [simpl; tauto|constructor]. }
  split; [exact H|]. split; [reflexivity|].
  intros Hin.
  apply (proj1 (@retrieveMethods_allowed demo_router "/users" "GET" H) Hin).
  reflexivity.
Defined.

(** ** What dispatch depends on *)

Section Tables.
Import MapFacts.

Lemma same_tables_unfold (a b : Router) :
  same_tables a b
  <-> combinedRegexps a = combinedRegexps b
      /\ routes a = routes b
      /\ alike same_tables (groups a) (groups b).
Proof. destruct a. reflexivity. Qed.

Lemma alike_length {A B} (R : A -> B -> Prop) ga gb :
  alike R ga gb -> length ga = length gb.
Proof.
  revert gb. induction ga as [|[p x] ga IH]; intros [|[q y] gb]; simpl; try tauto.
  intros (_ & _ & H). f_equal. now apply IH.
Qed.

Lemma alike_lookup {A B} (R : A -> B -> Prop) ga gb prefix :
  alike R ga gb ->
  match Map.lookup prefix ga, Map.lookup prefix gb with
  | Some x, Some y => R x y
  | None, None => True
  | _, _ => False
  end.
Proof.
  revert gb. induction ga as [|[p x] ga IH]; intros [|[q y] gb]; simpl; try tauto.
  intros (<- & Hxy & H). destruct (prefix =? p)%string; [exact Hxy|]. now apply IH.
Qed.

Lemma fetchGroup_walk_same (fuel : nat) (r r' : Router) :
  length (groups r) = length (groups r') ->
  forall router router' path,
    same_tables router router' ->
    same_tables (fst (fetchGroup_walk fuel r router path))
                (fst (fetchGroup_walk fuel r' router' path))
    /\ snd (fetchGroup_walk fuel r router path)
       = snd (fetchGroup_walk fuel r' router' path).
Proof.
  intros Hlen. induction fuel as [|fuel IH]; intros router router' path Hsame;
    cbn [fetchGroup_walk]; [now split|].
  rewrite <- Hlen.
  destruct (negb (path =? "/")%string && (0 <? length (groups r))); [|now split].
  destruct (1 <? segment_end (Str.drop 1 path) 1); [|now split].
  pose proof (proj1 (same_tables_unfold router router') Hsame) as (_ & _ & Hgroups).
  pose proof (alike_lookup same_tables (groups router) (groups router')
                           (Str.drop 1 (Str.take (segment_end (Str.drop 1 path) 1) path))
                           Hgroups) as Hl.
  destruct (Map.lookup _ (groups router)) as [g|];
    destruct (Map.lookup _ (groups router')) as [g'|]; try contradiction; [|now split].
  destruct (segment_end (Str.drop 1 path) 1 <? String.length path); [|now split].
  now apply IH.
Qed.

(** X24.  Serving goes by the tables of the routers and by five fields of
    the router that serves: two routers with the same tables all the
    way down and the same handlers and policy at the top serve every
    request the same way.  The handlers and the policy of a group, the
    parsers and the middleware lists play no part. *)
Theorem only_root_options_matter (r r' : Router) :
  same_tables r r' ->
  PanicHandler r = PanicHandler r' ->
  OptionsHandler r = OptionsHandler r' ->
  MethodNotAllowedHandler r = MethodNotAllowedHandler r' ->
  NotFoundHandler r = NotFoundHandler r' ->
  TrailingSlashesPolicy r = TrailingSlashesPolicy r' ->
  forall w req, ServeHTTP r w req = ServeHTTP r' w req.
Proof.
  intros Hsame Hph Hoh Hmh Hnf Hpol w req.
  assert (Hlen : length (groups r) = length (groups r')).
  { apply (alike_length same_tables). apply same_tables_unfold, Hsame. }
  assert (Hserve : serve r w req = serve r' w req).
  { unfold serve, fetchGroup.
    pose proof (@fetchGroup_walk_same (S (String.length (URLPath req))) r r' Hlen
                                      r r' (URLPath req) Hsame) as [Hrouter Hpath].
    destruct (fetchGroup_walk _ r r (URLPath req)) as [router path].
    destruct (fetchGroup_walk _ r' r' (URLPath req)) as [router' path'].
    cbn [fst snd] in Hrouter, Hpath. subst path'.
    apply same_tables_unfold in Hrouter. destruct Hrouter as (Hres & Hrts & _).
    rewrite <- Hres, <- Hrts.
    unfold handle_trailing_slashes, fallback, retrieveMethods.
    now rewrite <- Hres, <- Hoh, <- Hmh, <- Hnf, <- Hpol. }
  unfold ServeHTTP. rewrite <- Hserve. unfold recovered. now rewrite <- Hph.
Qed.



End Tables.

Lemma only_root_options_matter_witness :
  same_tables demo_layers_prepared demo_layers_tweaked
  /\ ServeHTTP demo_layers_prepared http.NewRecorder (NewRequest "GET" "/v1/nothing")
     = ServeHTTP demo_layers_tweaked http.NewRecorder (NewRequest "GET" "/v1/nothing").
Proof.
  assert (H : same_tables demo_layers_prepared demo_layers_tweaked).
  { vm_compute. repeat split. }
  split; [exact H|].
  apply (@only_root_options_matter demo_layers_prepared demo_layers_tweaked H);
    reflexivity.
Defined.

(** ** Routes that come after the preparation *)

Section Late.
Import MapFacts.

Lemma fetchGroup_walk_guard (r r' : Router) :
  groups r' = groups r ->
  forall fuel router path,
    fetchGroup_walk fuel r' router path = fetchGroup_walk fuel r router path.
Proof.
  intros Hg. induction fuel as [|fuel IH]; intros router path; cbn [fetchGroup_walk];
    [reflexivity|].
  rewrite Hg.
  destruct (negb (path =? "/")%string && (0 <? length (groups r))); [|reflexivity].
  destruct (1 <? segment_end (Str.drop 1 path) 1); [|reflexivity].
  destruct (Map.lookup _ (groups router)); [|reflexivity].
  destruct (segment_end (Str.drop 1 path) 1 <? String.length path); [|reflexivity].
  apply IH.
Qed.

Lemma fetchGroup_walk_start (r r' : Router) (fuel : nat) (path : string) :
  groups r' = groups r ->
  fetchGroup_walk fuel r r' path = fetchGroup_walk fuel r r path
  \/ (fetchGroup_walk fuel r r' path = (r', path)
      /\ fetchGroup_walk fuel r r path = (r, path)).
Proof.
  intros Hg. destruct fuel as [|fuel]; cbn [fetchGroup_walk]; [now right|].
  destruct (negb (path =? "/")%string && (0 <? length (groups r))); [|now right].
  destruct (1 <? segment_end (Str.drop 1 path) 1); [|now right].
  rewrite Hg.
  destruct (Map.lookup _ (groups r)); [now left|now right].
Qed.

(** Serving with other route lists, the rest being the same: nothing
    changes for a request as long as the slot its scan stops at holds
    what it held. *)
Lemma serve_other_routes (r : Router) (M : list (string * list (option route)))
      (w : ResponseWriter) (req : Request) :
  (forall l i,
      Map.lookup (Method req) (routes r) = Some l -> i < length l ->
      exists l', Map.lookup (Method req) M = Some l' /\ nth_error l' i = nth_error l i) ->
  serve (set_routes M r) w req = serve r w req
  \/ fst (serve r w req) = Panicked index_out_of_range w.
Proof.
  intros HM. unfold serve, fetchGroup.
  rewrite (@fetchGroup_walk_guard r (set_routes M r) eq_refl).
  destruct (@fetchGroup_walk_start r (set_routes M r) (S (String.length (URLPath req)))
                                   (URLPath req) eq_refl) as [->|[-> ->]].
  - left. destruct (fetchGroup_walk _ r r (URLPath req)) as [router path].
    destruct r; reflexivity.
  - change (combinedRegexps (set_routes M r)) with (combinedRegexps r).
    destruct (match Map.lookup (Method req) (combinedRegexps r) with
              | Some re => Regexp.FindStringSubmatch re (URLPath req)
              | None => None
              end) as [ms|].
    + change (routes (set_routes M r)) with M.
      destruct (Map.lookup (Method req) (routes r)) as [l|] eqn:El; [|now right].
      destruct (Nat.lt_ge_cases (first_nonempty (tl ms) 1) (length l)) as [Hlt|Hge].
      * destruct (HM _ _ eq_refl Hlt) as (l' & -> & ->). left.
        destruct r; reflexivity.
      * right. apply nth_error_None in Hge. now rewrite Hge.
    + left. destruct r; reflexivity.
Qed.

(** X25.  A route that [Handle] adds to the router that serves is not
    served before the next preparation: every request is answered as
    it was before the call, but for a request whose scan ran past the
    end of its route list and that panicked for it. *)
Theorem late_route_not_served (r r' : Router) (method pattern : string) (h : Handler)
        (mw : list Middleware) (w : ResponseWriter) (req : Request) :
  Handle r method pattern h mw = Some r' ->
  ServeHTTP r' w req = ServeHTTP r w req
  \/ fst (serve r w req) = Panicked index_out_of_range w.
Proof.
  unfold Handle.
  destruct (Parse_ (parser r) pattern) as [[[[re ps] hts] [err|]]|]; try discriminate.
  cbv zeta. intros [= <-].
  match goal with
  | |- ServeHTTP (set_routes ?M r) w req = _ \/ _ =>
      destruct (@serve_other_routes r M w req) as [H|H]
  end.
  - intros l i Hl Hi. destruct (string_dec (Method req) method) as [E|E].
    + rewrite E in *. rewrite lookup_insert, Hl. eexists. split; [reflexivity|].
      now apply nth_error_app1.
    + rewrite lookup_insert_ne by congruence. now exists l.
  - left. unfold ServeHTTP. rewrite H. destruct (serve r w req) as [out req'].
    destruct r; reflexivity.
  - now right.
Qed.

Lemma late_route_not_served_witness :
  Handle demo_router "GET" "/users" (helloHandler "late") []
  = Some (set_routes [("POST", match Map.lookup "POST" (routes demo_router) with
                               | Some l => l
                               | None => []
                               end);
                      ("GET", [None;
                               Some {| reg := "/users/?"; params := [];
                                       hasTrailingSlashes := false; middleware := [];
                                       handler := helloHandler "late";
                                       finalHandler := None |}])] demo_router)
  /\ fst (serve demo_router http.NewRecorder (NewRequest "GET" "/users"))
     <> Panicked index_out_of_range http.NewRecorder
  /\ ServeHTTP (set_routes [("POST", match Map.lookup "POST" (routes demo_router) with
                                     | Some l => l
                                     | None => []
                                     end);
                            ("GET", [None;
                                     Some {| reg := "/users/?"; params := [];
                                             hasTrailingSlashes := false; middleware := [];
                                             handler := helloHandler "late";
                                             finalHandler := None |}])] demo_router)
               http.NewRecorder (NewRequest "GET" "/users")
     = ServeHTTP demo_router http.NewRecorder (NewRequest "GET" "/users").
Proof.
  assert (Hno : fst (serve demo_router http.NewRecorder (NewRequest "GET" "/users"))
                <> Panicked index_out_of_range http.NewRecorder)
    by (vm_compute; discriminate).
  split; [reflexivity|]. split; [exact Hno|].
  destruct (@late_route_not_served demo_router _ "GET" "/users" (helloHandler "late") []
                                   http.NewRecorder (NewRequest "GET" "/users") eq_refl)
    as [H|H]; [exact H|contradiction].
Defined.

End Late.

(** ** Files *)

Section Files.
Import StrFacts MapFacts ParserFacts.

(** X26.  [ServeFiles] looks for the word [filepath] anywhere in the
    pattern: with the default parser it panics exactly when the word
    is missing or the pattern does not begin with [/].  A pattern that
    has the word but no [<] goes through and gives a GET route without
    parameters, whose handler never calls the file server on a request
    that comes without parameters: it returns with the response
    untouched. *)
Theorem ServeFiles_registers (r : Router) (pattern : string) (fs : Handler)
        (mw : list Middleware) :
  parser r = as_interface NewParser ->
  (ServeFiles r pattern fs mw = None
   <-> Str.contains pattern "filepath" = false \/ Str.head pattern <> Some "/"%char)
  /\ (forall r',
         ServeFiles r pattern fs mw = Some r' ->
         Str.mem "<" pattern = false ->
         exists rt,
           Map.lookup "GET" (routes r')
           = Some (match Map.lookup "GET" (routes r) with
                   | Some l => l
                   | None => [None]
                   end ++ [Some rt])%list
           /\ params rt = [] /\ middleware rt = mw
           /\ forall w req, Params req = None -> handler rt w req = Returned w).
Proof.
  intros Hp. unfold ServeFiles.
  destruct (Str.contains pattern "filepath") eqn:Hword; cbn [negb].
  - unfold Handle. rewrite Hp. simpl Parse_.
    destruct (Str.head pattern) as [c|] eqn:Hhead.
    + destruct (Ascii.eqb c "/") eqn:Hc.
      * apply Ascii.eqb_eq in Hc. subst c. split.
        -- rewrite Parse_default by exact Hhead.
           split; [discriminate|]. intros [H|H]; congruence.
        -- intros r' Hr' Hlit. rewrite trimmed_default in Hr' by exact Hhead.
           destruct (convert_literal _ (trimmed_no_open _ Hlit)) as [_ Hnames].
           rewrite Hnames in Hr'. cbv zeta in Hr'. injection Hr' as <-.
           eexists. split; [|split; [|split]].
           ++ destruct r; cbn. rewrite lookup_insert. reflexivity.
           ++ reflexivity.
           ++ reflexivity.
           ++ intros w req Hreq. cbn. now rewrite Hreq.
      * unfold Parse. rewrite Hhead, Hc. cbn. split; [|discriminate].
        split; [|reflexivity]. intros _. right. intros [= ->].
        now rewrite Ascii.eqb_refl in Hc.
    + unfold Parse. rewrite Hhead. cbn. split; [|discriminate].
      split; [|reflexivity]. intros _. now right.
  - split; [|discriminate]. split; [now left|reflexivity].
Qed.

Lemma ServeFiles_registers_witness :
  parser New = as_interface NewParser
  /\ ServeFiles New "/static/<file>" emptyHandler [] = None
  /\ Str.contains "/static/<file>" "filepath" = false.
Proof.
  split; [reflexivity|].
  assert (H : Str.contains "/static/<file>" "filepath" = false) by reflexivity.
  split; [|exact H].
  apply (proj1 (@ServeFiles_registers New "/static/<file>" emptyHandler [] eq_refl)).
  now left.
Defined.

End Files.

(** ** The index protocol at work *)

Lemma scan_finds_route_witness :
  laid_out users_routes users_regexp users_alternatives
  /\ "/users/11" <> ""
  /\ Regexp.FindStringSubmatch users_regexp "/users/11"
     = Some ["/users/11"; ""; "/users/11"; "11"; ""; ""; ""]
  /\ exists g r rt,
      In (g, r) users_alternatives
      /\ first_nonempty (tl ["/users/11"; ""; "/users/11"; "11"; ""; ""; ""]) 1 = g
      /\ nth_error users_routes g = Some (Some rt).
Proof.
  assert (H1 : laid_out users_routes users_regexp users_alternatives).
  { vm_compute. split; [reflexivity|]. repeat constructor; eexists; reflexivity. }
  assert (H2 : "/users/11" <> "") by discriminate.
  split; [exact H1|]. split; [exact H2|]. split; [reflexivity|].
  exact (@scan_finds_route users_routes users_regexp users_alternatives "/users/11"
                           ["/users/11"; ""; "/users/11"; "11"; ""; ""; ""]
                           H1 H2 eq_refl).
Defined.

(** ** Middleware down the groups *)

Lemma prepare_down (prefixes : list string) :
  forall inherited r r' group',
    prepare inherited r = Some r' ->
    descend r' prefixes = Some group' ->
    exists group,
      descend r prefixes = Some group
      /\ forall method l i rt,
          Map.lookup method (routes group') = Some l ->
          nth_error l i = Some (Some rt) ->
          finalHandler rt
          = Some (chain (inherited ++ middleware_along r prefixes)%list
                        (chain (middleware rt) (handler rt))).
Proof.
  induction prefixes as [|prefix prefixes IH]; intros inherited r r' group' Hprep Hdown.
  - cbn [descend] in *. injection Hdown as <-. exists r. split; [reflexivity|].
    intros method l i rt Hl Hrt. cbn [middleware_along]. rewrite app_nil_r.
    destruct r as [mw res gs rts ps ph oh mh nf pol]. simpl in Hprep.
    destruct (prepare_methods _ _ _ _) as [[rts1 res1]|] eqn:Hloop; [|discriminate].
    destruct (each_group _ gs) as [gs1|]; [|discriminate].
    injection Hprep as <-. simpl in Hl. simpl.
    eapply prepared_final_handler; eauto.
  - cbn [descend] in Hdown.
    destruct (Map.lookup prefix (groups r')) as [g1'|] eqn:Hg1'; [|discriminate].
    assert (Hg1 : exists g1, Map.lookup prefix (groups r) = Some g1
                             /\ prepare (inherited ++ Middleware_ r)%list g1 = Some g1').
    { destruct r as [mw res gs rts ps ph oh mh nf pol]. simpl in Hprep.
      destruct (prepare_methods _ _ _ _) as [[rts1 res1]|]; [|discriminate].
      destruct (each_group _ gs) as [gs1|] eqn:Hgroups; [|discriminate].
      injection Hprep as <-. simpl in Hg1'. simpl.
      eapply each_group_lookup; eauto. }
    destruct Hg1 as (g1 & Hg1 & Hprep1).
    destruct (IH _ _ _ _ Hprep1 Hdown) as (group & Hgroup & Hchain).
    exists group. cbn [descend middleware_along]. rewrite Hg1. split; [exact Hgroup|].
    intros method l i rt Hl Hrt. rewrite (Hchain _ _ _ _ Hl Hrt).
    now rewrite app_assoc.
Qed.

(** X27.  After [Prepare], every route of a group, however deep, has as its
    final handler the middleware of the routers on the way from the
    top down to the group, in that order, around the middleware of the
    route, around its handler: what [Router.middleware] collects by
    going up through the parents. *)
Theorem middleware_of_ancestors (r r' group' : Router) (prefixes : list string)
        (method : string) (l : list (option route)) (i : nat) (rt : route) :
  Prepare r = Some r' ->
  descend r' prefixes = Some group' ->
  Map.lookup method (routes group') = Some l ->
  nth_error l i = Some (Some rt) ->
  finalHandler rt
  = Some (chain (middleware_along r prefixes) (chain (middleware rt) (handler rt))).
Proof.
  intros Hprep Hdown Hl Hrt.
  destruct (@prepare_down prefixes [] r r' group' Hprep Hdown) as (group & _ & H).
  exact (H _ _ _ _ Hl Hrt).
Qed.

Lemma middleware_of_ancestors_witness :
  Prepare demo_layers = Some demo_layers_prepared
  /\ exists rt,
      option_map (fun g => Map.lookup "GET" (routes g)) (descend demo_layers_prepared ["v1"])
      = Some (Some [None; Some rt])
      /\ finalHandler rt
         = Some (chain (middleware_along demo_layers ["v1"])
                       (chain (middleware rt) (handler rt))).
Proof.
  split; [reflexivity|].
  eexists. split; [reflexivity|].
  refine (@middleware_of_ancestors demo_layers demo_layers_prepared _ ["v1"] "GET" _ 1 _
                                   eq_refl eq_refl eq_refl eq_refl).
Defined.

(** ** Compiling an expression inside another

    An expression that compiles on its own compiles to the same tree,
    with its groups renumbered, when it stands in parentheses inside a
    longer expression. *)

Module CompileFacts.
Import Regexp StrFacts.

Ltac ascii_cases a := destruct a as [[] [] [] [] [] [] [] []].

(** *** Repetition operators *)

Lemma digits_ext (z : string) :
  Str.head z = Some ")"%char ->
  forall s acc seen,
    digits (s ++ z) acc seen
    = match digits s acc seen with
      | Some (n, rest) => Some (n, rest ++ z)
      | None => None
      end.
Proof.
  intros Hz. destruct z as [|c z]; [discriminate|]. injection Hz as ->.
  induction s as [|a s IH]; intros acc seen; cbn [append digits].
  - change (is_digit ")") with false. cbv iota. now destruct seen.
  - destruct (is_digit a); [apply IH|]. now destruct seen.
Qed.

Lemma counted_ext (z : string) :
  Str.head z = Some ")"%char ->
  forall s,
    counted (s ++ z)
    = match counted s with
      | Some (lo, hi, rest) => Some (lo, hi, rest ++ z)
      | None => None
      end.
Proof.
  intros Hz s. unfold counted. rewrite (@digits_ext z Hz).
  destruct (digits s 0 false) as [[lo rest]|]; [|reflexivity].
  destruct rest as [|c rest].
  - destruct z as [|c z]; [discriminate|]. injection Hz as ->. reflexivity.
  - cbn [append]. ascii_cases c; try reflexivity.
    destruct rest as [|c rest].
    + cbn [append]. destruct z as [|c z]; [discriminate|]. injection Hz as ->. reflexivity.
    + cbn [append]. ascii_cases c; try reflexivity;
        change (String ?a rest ++ z) with (String a rest ++ z);
        match goal with
        | |- context [digits (String ?a (rest ++ z)) 0 false] =>
            change (String a (rest ++ z)) with (String a rest ++ z);
            rewrite (@digits_ext z Hz);
            destruct (digits (String a rest) 0 false) as [[hi rest2]|]; [|reflexivity]
        end;
        (destruct rest2 as [|c2 rest2];
         [destruct z as [|c z]; [discriminate|]; injection Hz as ->; reflexivity
         |cbn [append]; ascii_cases c2; reflexivity]).
Qed.

Lemma lazy_suffix_ext (z : string) :
  Str.head z = Some ")"%char ->
  forall s, lazy_suffix (s ++ z) = (fst (lazy_suffix s), snd (lazy_suffix s) ++ z).
Proof.
  intros Hz s. destruct s as [|a s].
  - destruct z as [|c z]; [discriminate|]. injection Hz as ->. reflexivity.
  - cbn [append]. ascii_cases a; reflexivity.
Qed.

Lemma starts_repetition_ext (z : string) :
  Str.head z = Some ")"%char ->
  forall s, starts_repetition (s ++ z) = starts_repetition s.
Proof.
  intros Hz s. destruct s as [|a s].
  - destruct z as [|c z]; [discriminate|]. injection Hz as ->. reflexivity.
  - cbn [append]. ascii_cases a; try reflexivity.
    cbn [starts_repetition]. rewrite (@counted_ext z Hz).
    now destruct (counted s) as [[[? ?] ?]|].
Qed.

(** *** Renumbering *)

Lemma shift_cat d r1 r2 : shift d (cat r1 r2) = cat (shift d r1) (shift d r2).
Proof. now destruct r2. Qed.

Lemma shift_power d n r tail :
  shift d (power n r tail) = power n (shift d r) (shift d tail).
Proof. induction n as [|n IH]; cbn [power shift]; [reflexivity|]. now rewrite IH. Qed.

Lemma shift_upto d greedy n r :
  shift d (upto greedy n r) = upto greedy n (shift d r).
Proof.
  induction n as [|n IH]; cbn [upto]; [reflexivity|].
  unfold quest. destruct greedy; cbn [shift]; now rewrite IH.
Qed.

Lemma shift_repeat d greedy lo hi r :
  repeat_ greedy lo hi (shift d r)
  = match repeat_ greedy lo hi r with
    | Some r' => Some (shift d r')
    | None => None
    end.
Proof.
  unfold repeat_. destruct hi as [h|].
  - destruct ((lo <=? h) && (h <=? 1000)); [|reflexivity].
    now rewrite shift_power, shift_upto.
  - destruct (lo <=? 1000); [|reflexivity]. now rewrite shift_power.
Qed.

Lemma groups_in_shift d r : groups_in (shift d r) = map (fun i => i + d) (groups_in r).
Proof.
  induction r; cbn [shift groups_in map]; try reflexivity;
    rewrite ?map_app; congruence.
Qed.

Lemma groups_in_cat r1 r2 i :
  In i (groups_in (cat r1 r2)) -> In i (groups_in r1) \/ In i (groups_in r2).
Proof.
  destruct r2; cbn [cat groups_in]; rewrite ?in_app_iff; auto.
Qed.

Lemma groups_in_power n r tail i :
  In i (groups_in (power n r tail)) -> In i (groups_in r) \/ In i (groups_in tail).
Proof.
  induction n as [|n IH]; cbn [power groups_in]; [auto|].
  rewrite in_app_iff. tauto.
Qed.

Lemma groups_in_upto greedy n r i :
  In i (groups_in (upto greedy n r)) -> In i (groups_in r).
Proof.
  induction n as [|n IH]; cbn [upto groups_in In]; [tauto|].
  unfold quest. destruct greedy; cbn [groups_in]; rewrite ?in_app_iff; cbn [In app];
    rewrite ?in_app_iff; tauto.
Qed.

Lemma groups_in_repeat greedy lo hi r r' i :
  repeat_ greedy lo hi r = Some r' -> In i (groups_in r') -> In i (groups_in r).
Proof.
  unfold repeat_. destruct hi as [h|].
  - destruct ((lo <=? h) && (h <=? 1000)); [|discriminate]. intros [= <-] H.
    apply groups_in_power in H. destruct H as [H|H]; [exact H|].
    now apply groups_in_upto in H.
  - destruct (lo <=? 1000); [|discriminate]. intros [= <-] H.
    apply groups_in_power in H. destruct H as [H|H]; [exact H|exact H].
Qed.

(** The repetition operator after an atom, when the text goes on with
    a closing parenthesis. *)
Lemma postfix_ext (z : string) (d : nat) :
  Str.head z = Some ")"%char ->
  forall r s,
    postfix (shift d r) (s ++ z)
    = match postfix r s with
      | Some (r', rest) => Some (shift d r', rest ++ z)
      | None => None
      end.
Proof.
  intros Hz r s.
  assert (Hdone : forall (mk_ mk' : bool -> option regex) s1,
             (forall g, mk' g = match mk_ g with
                                | Some r' => Some (shift d r')
                                | None => None
                                end) ->
             (let '(greedy, s2) := lazy_suffix (s1 ++ z) in
              if starts_repetition s2 then None
              else match mk' greedy with
                   | Some r' => Some (r', s2)
                   | None => None
                   end)
             = match (let '(greedy, s2) := lazy_suffix s1 in
                      if starts_repetition s2 then None
                      else match mk_ greedy with
                           | Some r' => Some (r', s2)
                           | None => None
                           end) with
               | Some (r', rest) => Some (shift d r', rest ++ z)
               | None => None
               end).
  { intros mk_ mk' s1 Hmk. rewrite (@lazy_suffix_ext z Hz).
    destruct (lazy_suffix s1) as [greedy s2]. cbn [fst snd].
    rewrite (@starts_repetition_ext z Hz).
    destruct (starts_repetition s2); [reflexivity|].
    rewrite Hmk. now destruct (mk_ greedy). }
  destruct s as [|a s].
  - destruct z as [|c z]; [discriminate|]. injection Hz as ->. reflexivity.
  - cbn [append]. ascii_cases a; try reflexivity; unfold postfix;
      first
        [ refine (Hdone (fun g => Some (Star g r)) (fun g => Some (Star g (shift d r))) s _);
          intros g; reflexivity
        | refine (Hdone (fun g => Some (plus g r)) (fun g => Some (plus g (shift d r))) s _);
          intros g; reflexivity
        | refine (Hdone (fun g => Some (quest g r)) (fun g => Some (quest g (shift d r))) s _);
          intros g; destruct g; reflexivity
        | rewrite (@counted_ext z Hz); destruct (counted s) as [[[lo hi] s2]|];
          [|reflexivity];
          refine (Hdone (fun g => repeat_ g lo hi r) (fun g => repeat_ g lo hi (shift d r))
                        s2 _);
          intros g; apply shift_repeat ].
Qed.

Lemma postfix_groups r s r' rest i :
  postfix r s = Some (r', rest) -> In i (groups_in r') -> In i (groups_in r).
Proof.
  assert (Hdone : forall (mk_ : bool -> option regex) s1,
             (forall g r', mk_ g = Some r' -> In i (groups_in r') -> In i (groups_in r)) ->
             (let '(greedy, s2) := lazy_suffix s1 in
              if starts_repetition s2 then None
              else match mk_ greedy with
                   | Some r' => Some (r', s2)
                   | None => None
                   end) = Some (r', rest) ->
             In i (groups_in r') -> In i (groups_in r)).
  { intros mk_ s1 Hmk. destruct (lazy_suffix s1) as [greedy s2].
    destruct (starts_repetition s2); [discriminate|].
    destruct (mk_ greedy) as [r0|] eqn:E; [|discriminate].
    intros [= <- <-]. eauto. }
  destruct s as [|a s]; [now intros [= <- <-]|].
  ascii_cases a; try (now intros [= <- <-]); unfold postfix;
    first
      [ refine (Hdone (fun g => Some (Star g r)) s _);
        intros g r0 [= <-]; cbn [groups_in]; tauto
      | refine (Hdone (fun g => Some (plus g r)) s _);
        intros g r0 [= <-]; unfold plus; cbn [groups_in]; rewrite in_app_iff; tauto
      | refine (Hdone (fun g => Some (quest g r)) s _);
        intros g r0 [= <-]; unfold quest;
        destruct g; cbn [groups_in]; rewrite ?in_app_iff; cbn [In]; tauto
      | destruct (counted s) as [[[lo hi] s2]|]; [|now intros [= <- <-]];
        refine (Hdone (fun g => repeat_ g lo hi r) s2 _);
        intros g r0; apply groups_in_repeat ].
Qed.

(** On what starts with [|] or [)] there is no operator. *)
Lemma postfix_none r (s : string) :
  Str.head s = Some "|"%char \/ Str.head s = Some ")"%char \/ Str.head s = Some "$"%char
  \/ Str.head s = Some "("%char \/ s = "" ->
  postfix r s = Some (r, s).
Proof.
  destruct s as [|a s]; [reflexivity|].
  intros [H|[H|[H|[H|H]]]]; try discriminate; injection H as ->; reflexivity.
Qed.

End CompileFacts.

Module ClassFacts.
Import Regexp StrFacts CompileFacts.

(** *** Bracket classes and escapes *)

Lemma class_items_unfold f first s acc :
  class_items (S f) first s acc
  = match s with
    | EmptyString => None
    | String a s1 =>
        if Ascii.eqb a "]" then
          if first then class_items f false s1 (acc ++ one "]"%char)%list
          else Some (acc, s1)
        else if Ascii.eqb a "[" then
          match s1 with
          | String b _ => if Ascii.eqb b ":" then None else class_range f a s1 acc
          | EmptyString => class_range f a s1 acc
          end
        else if Ascii.eqb a "\" then
          match s1 with
          | String e s' =>
              match perl_class e with
              | Some (false, rs) => class_items f false s' (acc ++ rs)%list
              | Some (true, _) => None
              | None =>
                  match escaped_char e with
                  | Some lo => class_range f lo s' acc
                  | None => None
                  end
              end
          | EmptyString => class_range f a s1 acc
          end
        else class_range f a s1 acc
    end.
Proof.
  destruct s as [|a s1]; [reflexivity|].
  ascii_cases a; try reflexivity.
  - destruct s1 as [|b s2]; [reflexivity|]. ascii_cases b; reflexivity.
  - destruct s1 as [|e s']; [reflexivity|]. cbn [class_items Ascii.eqb Bool.eqb].
    destruct (perl_class e) as [[[] rs]|]; try reflexivity.
    cbn [class_char]. now destruct (escaped_char e).
Qed.

Lemma class_range_unfold f lo s acc :
  class_range (S f) lo s acc
  = match s with
    | String a s1 =>
        if Ascii.eqb a "-" then
          match s1 with
          | String b _ =>
              if Ascii.eqb b "]" then class_items f false s (acc ++ one lo)%list
              else match class_char s1 with
                   | Some (hi, s2) =>
                       if (nat_of_ascii lo <=? nat_of_ascii hi)
                       then class_items f false s2 (acc ++ [(lo, hi)])%list
                       else None
                   | None => None
                   end
          | EmptyString => None
          end
        else class_items f false s (acc ++ one lo)%list
    | EmptyString => class_items f false s (acc ++ one lo)%list
    end.
Proof.
  destruct s as [|a s1]; [reflexivity|].
  ascii_cases a; try reflexivity.
  destruct s1 as [|b s2]; [reflexivity|]. ascii_cases b; reflexivity.
Qed.

Lemma class_items_nil f first acc : class_items f first "" acc = None.
Proof. now destruct f. Qed.

Lemma class_range_nil f lo acc : class_range f lo "" acc = None.
Proof.
  destruct f as [|f]; [reflexivity|]. rewrite class_range_unfold. apply class_items_nil.
Qed.

Lemma class_char_ext (s z : string) c rest :
  class_char s = Some (c, rest) -> rest <> "" ->
  class_char (s ++ z) = Some (c, rest ++ z).
Proof.
  destruct s as [|a s1]; [discriminate|].
  ascii_cases a; try (intros [= <- <-] _; reflexivity).
  destruct s1 as [|e s']; [intros [= <- <-] H; now elim H|].
  cbn [class_char append]. destruct (escaped_char e); [|discriminate].
  now intros [= <- <-] _.
Qed.

Lemma class_ext f :
  (forall first s acc rs rest,
      class_items f first s acc = Some (rs, rest) ->
      forall f' z, f <= f' -> class_items f' first (s ++ z) acc = Some (rs, rest ++ z))
  /\ (forall lo s acc rs rest,
         class_range f lo s acc = Some (rs, rest) ->
         forall f' z, f <= f' -> class_range f' lo (s ++ z) acc = Some (rs, rest ++ z)).
Proof.
  induction f as [|f [IHi IHr]]; [split; intros; discriminate|].
  split.
  - intros first s acc rs rest H f' z Hf.
    destruct f' as [|f']; [lia|]. assert (Hf' : f <= f') by lia.
    rewrite class_items_unfold in H. rewrite class_items_unfold.
    destruct s as [|a s1]; [discriminate|]. cbn [append].
    destruct (Ascii.eqb a "]").
    { destruct first; [now apply IHi|]. now injection H as <- <-. }
    destruct (Ascii.eqb a "[").
    { destruct s1 as [|b s2]; [now rewrite class_range_nil in H|].
      cbn [append]. destruct (Ascii.eqb b ":"); [discriminate|].
      now apply (IHr _ _ _ _ _ H). }
    destruct (Ascii.eqb a "\").
    { destruct s1 as [|e s']; [now rewrite class_range_nil in H|].
      cbn [append]. destruct (perl_class e) as [[[] rs0]|]; [discriminate| |].
      - now apply IHi.
      - destruct (escaped_char e); [|discriminate]. now apply IHr. }
    now apply IHr.
  - intros lo s acc rs rest H f' z Hf.
    destruct f' as [|f']; [lia|]. assert (Hf' : f <= f') by lia.
    rewrite class_range_unfold in H. rewrite class_range_unfold.
    destruct s as [|a s1]; [now rewrite class_items_nil in H|]. cbn [append].
    destruct (Ascii.eqb a "-") eqn:Ea; [|now apply (IHi _ _ _ _ _ H)].
    destruct s1 as [|b s2]; [discriminate|]. cbn [append].
    destruct (Ascii.eqb b "]"); [now apply (IHi _ _ _ _ _ H)|].
    destruct (class_char (String b s2)) as [[hi s3]|] eqn:Ec; [|discriminate].
    destruct (nat_of_ascii lo <=? nat_of_ascii hi) eqn:Ele; [|discriminate].
    assert (Hs3 : s3 <> "") by (intros ->; now rewrite class_items_nil in H).
    change (String b (s2 ++ z)) with (String b s2 ++ z).
    rewrite (class_char_ext _ z Ec Hs3), Ele.
    now apply IHi.
Qed.

Lemma bracket_ext (s z : string) r rest :
  bracket s = Some (r, rest) ->
  bracket (s ++ z) = Some (r, rest ++ z)
  /\ groups_in r = [] /\ forall d, shift d r = r.
Proof.
  assert (Hgo : forall neg s1,
             match class_items (2 * String.length s1 + 2) true s1 [] with
             | Some (rs, rest) => Some (Set_ neg rs, rest)
             | None => None
             end = Some (r, rest) ->
             match class_items (2 * String.length (s1 ++ z) + 2) true (s1 ++ z) [] with
             | Some (rs, rest) => Some (Set_ neg rs, rest)
             | None => None
             end = Some (r, rest ++ z)
             /\ groups_in r = [] /\ forall d, shift d r = r).
  { intros neg s1 H.
    destruct (class_items _ true s1 []) as [[rs rest0]|] eqn:E; [|discriminate].
    injection H as <- <-.
    rewrite (proj1 (class_ext _) _ _ _ _ _ E (2 * String.length (s1 ++ z) + 2) z)
      by (rewrite length_append; lia).
    auto. }
  destruct s as [|a s1]; [intros H; vm_compute in H; discriminate|].
  unfold bracket. cbn [append]. ascii_cases a; first [apply (Hgo true s1) | apply (Hgo false (String _ s1))].
Qed.

Lemma escape_atom (e : ascii) :
  (exists r, (forall s', escape (String e s') = Some (r, s'))
             /\ groups_in r = [] /\ forall d, shift d r = r)
  \/ (forall s', escape (String e s') = None).
Proof.
  ascii_cases e;
    first [ left; eexists; split; [intros s'; reflexivity|split; [reflexivity|]];
            intros d; reflexivity
          | right; intros s'; reflexivity ].
Qed.

Lemma escape_ext (s z : string) r rest :
  escape s = Some (r, rest) ->
  escape (s ++ z) = Some (r, rest ++ z)
  /\ groups_in r = [] /\ forall d, shift d r = r.
Proof.
  destruct s as [|e s']; [discriminate|]. cbn [append].
  destruct (escape_atom e) as [(r0 & Hr0 & Hg & Hs)|Hnone].
  - rewrite !Hr0. now intros [= <- <-].
  - now rewrite Hnone.
Qed.

End ClassFacts.

Module ParseFacts.
Import Regexp StrFacts CompileFacts ClassFacts.

(** *** The three levels of the descent *)

Lemma close_shape (x : option (regex * string * nat))
      (K : regex -> string -> nat -> option (regex * string * nat)) :
  match x with
  | Some (r, String ")" s2, g') => K r s2 g'
  | _ => None
  end
  = match x with
    | Some (r, rest, g') =>
        match rest with
        | String c s2 => if Ascii.eqb c ")" then K r s2 g' else None
        | EmptyString => None
        end
    | None => None
    end.
Proof.
  destruct x as [[[r1 [|c s1]] g1]|]; try reflexivity. ascii_cases c; reflexivity.
Qed.

Lemma p_alt_unfold f s g :
  p_alt (S f) s g
  = match p_cat f s g with
    | Some (r1, rest, g1) =>
        match rest with
        | String c s1 =>
            if Ascii.eqb c "|" then
              match p_alt f s1 g1 with
              | Some (r2, s2, g2) => Some (Alt r1 r2, s2, g2)
              | None => None
              end
            else Some (r1, rest, g1)
        | EmptyString => Some (r1, rest, g1)
        end
    | None => None
    end.
Proof.
  cbn [p_alt].
  destruct (p_cat f s g) as [[[r1 [|c s1]] g1]|]; try reflexivity.
  ascii_cases c; reflexivity.
Qed.

Lemma p_cat_unfold f s g :
  p_cat (S f) s g
  = match s with
    | EmptyString => Some (Eps, s, g)
    | String c _ =>
        if Ascii.eqb c "|" || Ascii.eqb c ")" then Some (Eps, s, g)
        else match p_piece f s g with
             | Some (r1, s1, g1) =>
                 match p_cat f s1 g1 with
                 | Some (r2, s2, g2) => Some (cat r1 r2, s2, g2)
                 | None => None
                 end
             | None => None
             end
    end.
Proof.
  destruct s as [|c s']; [reflexivity|]. ascii_cases c; reflexivity.
Qed.

Lemma p_piece_unfold f s g :
  p_piece (S f) s g
  = match s with
    | EmptyString => None
    | String a s1 =>
        if Ascii.eqb a "(" then
          match s1 with
          | String b s2 =>
              if Ascii.eqb b "?" then
                match s2 with
                | String c s3 =>
                    if Ascii.eqb c ":" then
                      match p_alt f s3 g with
                      | Some (r, rest, g') =>
                          match rest with
                          | String x s4 =>
                              if Ascii.eqb x ")" then then_postfix (Some (r, s4)) g'
                              else None
                          | EmptyString => None
                          end
                      | None => None
                      end
                    else None
                | EmptyString => None
                end
              else
                match p_alt f s1 (S g) with
                | Some (r, rest, g') =>
                    match rest with
                    | String x s4 =>
                        if Ascii.eqb x ")" then then_postfix (Some (Cap g r, s4)) g'
                        else None
                    | EmptyString => None
                    end
                | None => None
                end
          | EmptyString =>
              match p_alt f s1 (S g) with
              | Some (r, rest, g') =>
                  match rest with
                  | String x s4 =>
                      if Ascii.eqb x ")" then then_postfix (Some (Cap g r, s4)) g'
                      else None
                  | EmptyString => None
                  end
              | None => None
              end
          end
        else if Ascii.eqb a "[" then then_postfix (bracket s1) g
        else if Ascii.eqb a "\" then then_postfix (escape s1) g
        else if Ascii.eqb a "." then then_postfix (Some (Set_ true (one "010"%char), s1)) g
        else if Ascii.eqb a "^" then then_postfix (Some (Bol, s1)) g
        else if Ascii.eqb a "$" then then_postfix (Some (Eol, s1)) g
        else if Ascii.eqb a "*" || Ascii.eqb a "+" || Ascii.eqb a "?" then None
        else then_postfix (Some (Lit a, s1)) g
    end.
Proof.
  destruct s as [|a s1]; [reflexivity|]. ascii_cases a; try reflexivity.
  destruct s1 as [|b s2].
  { exact (close_shape (p_alt f "" (S g))
                       (fun r s4 g' => then_postfix (Some (Cap g r, s4)) g')). }
  ascii_cases b;
    try exact (close_shape (p_alt f (String _ s2) (S g))
                           (fun r s4 g' => then_postfix (Some (Cap g r, s4)) g')).
  destruct s2 as [|c s3]; [reflexivity|].
  ascii_cases c; try reflexivity.
  exact (close_shape (p_alt f s3 g) (fun r s4 g' => then_postfix (Some (r, s4)) g')).
Qed.

Lemma then_postfix_groups r0 s0 g r rest g' :
  then_postfix (Some (r0, s0)) g = Some (r, rest, g') ->
  g' = g /\ forall i, In i (groups_in r) -> In i (groups_in r0).
Proof.
  unfold then_postfix. destruct (postfix r0 s0) as [[r' s']|] eqn:E; [|discriminate].
  intros [= <- <- <-]. split; [reflexivity|]. intros i. exact (@postfix_groups r0 s0 r' s' i E).
Qed.

Lemma then_postfix_ext (z : string) (d : nat) r0 s0 g r rest g' :
  Str.head z = Some ")"%char ->
  then_postfix (Some (r0, s0)) g = Some (r, rest, g') ->
  forall g2, then_postfix (Some (shift d r0, s0 ++ z)) g2 = Some (shift d r, rest ++ z, g2).
Proof.
  intros Hz. unfold then_postfix. rewrite (@postfix_ext z d Hz).
  destruct (postfix r0 s0) as [[r' s']|]; [|discriminate].
  now intros [= <- <- <-] g2.
Qed.

(** An atom without groups, then its operator. *)
Lemma atom_ext r0 s0 g r rest g' :
  then_postfix (Some (r0, s0)) g = Some (r, rest, g') ->
  groups_in r0 = [] -> (forall d, shift d r0 = r0) ->
  g <= g' /\ (forall i, In i (groups_in r) -> g <= i < g')
  /\ forall z d, Str.head z = Some ")"%char ->
                 then_postfix (Some (r0, s0 ++ z)) (g + d)
                 = Some (shift d r, rest ++ z, g' + d).
Proof.
  intros H Hnil Hsh. destruct (@then_postfix_groups r0 s0 g r rest g' H) as [-> Hsub].
  split; [lia|]. split.
  - intros i Hi. apply Hsub in Hi. rewrite Hnil in Hi. destruct Hi.
  - intros z d Hz. rewrite <- (Hsh d) at 1.
    exact (@then_postfix_ext z d r0 s0 g r rest g Hz H (g + d)).
Qed.

(** A group, then its operator. *)
Lemma group_ext (f : nat) (s1 : string) (g0 g : nat) (wrap : regex -> regex)
      (wrap' : nat -> regex -> regex) r rest g' :
  (forall s g r rest g',
      p_alt f s g = Some (r, rest, g') ->
      g <= g' /\ (forall i, In i (groups_in r) -> g <= i < g')
      /\ forall z d f', f <= f' -> Str.head z = Some ")"%char ->
                        p_alt f' (s ++ z) (g + d) = Some (shift d r, rest ++ z, g' + d)) ->
  g <= g0 ->
  (forall r1 i, In i (groups_in (wrap r1)) -> i = g \/ In i (groups_in r1)) ->
  g0 <= S g ->
  (forall r1 i, g0 = g -> In i (groups_in (wrap r1)) -> In i (groups_in r1)) ->
  (forall d r1, shift d (wrap r1) = wrap' d (shift d r1)) ->
  match p_alt f s1 g0 with
  | Some (r, rest, g') =>
      match rest with
      | String x s4 =>
          if Ascii.eqb x ")" then then_postfix (Some (wrap r, s4)) g' else None
      | EmptyString => None
      end
  | None => None
  end = Some (r, rest, g') ->
  g <= g' /\ (forall i, In i (groups_in r) -> g <= i < g')
  /\ forall z d f', f <= f' -> Str.head z = Some ")"%char ->
                    match p_alt f' (s1 ++ z) (g0 + d) with
                    | Some (r, rest, g') =>
                        match rest with
                        | String x s4 =>
                            if Ascii.eqb x ")" then then_postfix (Some (wrap' d r, s4)) g'
                            else None
                        | EmptyString => None
                        end
                    | None => None
                    end = Some (shift d r, rest ++ z, g' + d).
Proof.
  intros IHa Hg0 Hwrap Hg0' Hwrap0 Hsh H.
  destruct (p_alt f s1 g0) as [[[r0 rest0] g1]|] eqn:Ea; [|discriminate].
  destruct rest0 as [|x s4]; [discriminate|].
  destruct (Ascii.eqb x ")") eqn:Ex; [|discriminate].
  destruct (IHa _ _ _ _ _ Ea) as (Hle & Hg & Hx).
  destruct (@then_postfix_groups (wrap r0) s4 g1 r rest g' H) as [-> Hsub].
  split; [lia|]. split.
  - intros i Hi. apply Hsub in Hi.
    destruct (Nat.eq_dec g0 g) as [Heq|Hne].
    + apply (Hwrap0 _ _ Heq), Hg in Hi. lia.
    + apply Hwrap in Hi. destruct Hi as [->|Hi]; [lia|]. apply Hg in Hi. lia.
  - intros z d f' Hf Hz. rewrite (Hx z d f' Hf Hz). cbn [append]. rewrite Ex.
    rewrite <- Hsh.
    exact (@then_postfix_ext z d (wrap r0) s4 g1 r rest g1 Hz H (g1 + d)).
Qed.

(** What the parser reads at a position is what it reads there when the
    text goes on with a closing parenthesis, whatever the number of the
    next group is; the groups it makes are numbered from the next
    group on. *)
Lemma parse_ext f :
  (forall s g r rest g',
      p_alt f s g = Some (r, rest, g') ->
      g <= g' /\ (forall i, In i (groups_in r) -> g <= i < g')
      /\ forall z d f', f <= f' -> Str.head z = Some ")"%char ->
                        p_alt f' (s ++ z) (g + d) = Some (shift d r, rest ++ z, g' + d))
  /\ (forall s g r rest g',
         p_cat f s g = Some (r, rest, g') ->
         g <= g' /\ (forall i, In i (groups_in r) -> g <= i < g')
         /\ forall z d f', f <= f' -> Str.head z = Some ")"%char ->
                           p_cat f' (s ++ z) (g + d) = Some (shift d r, rest ++ z, g' + d))
  /\ (forall s g r rest g',
         p_piece f s g = Some (r, rest, g') ->
         g <= g' /\ (forall i, In i (groups_in r) -> g <= i < g')
         /\ forall z d f', f <= f' -> Str.head z = Some ")"%char ->
                           p_piece f' (s ++ z) (g + d) = Some (shift d r, rest ++ z, g' + d)).
Proof.
  induction f as [|f (IHa & IHc & IHp)]; [split; [|split]; intros; discriminate|].
  split; [|split].
  - intros s g r rest g' H. rewrite p_alt_unfold in H.
    destruct (p_cat f s g) as [[[r1 rest1] g1]|] eqn:Ec; [|discriminate].
    destruct (IHc _ _ _ _ _ Ec) as (Hle1 & Hg1 & Hx1).
    destruct rest1 as [|c s1].
    + injection H as <- <- <-. split; [exact Hle1|split; [exact Hg1|]].
      intros z d f' Hf Hz. destruct f' as [|f']; [lia|].
      rewrite p_alt_unfold, (Hx1 z d f') by first [lia|exact Hz].
      cbn [append]. destruct z as [|c z]; [discriminate|]. injection Hz as ->. reflexivity.
    + destruct (Ascii.eqb c "|") eqn:E.
      * destruct (p_alt f s1 g1) as [[[r2 s2] g2]|] eqn:Ea; [|discriminate].
        injection H as <- <- <-.
        destruct (IHa _ _ _ _ _ Ea) as (Hle2 & Hg2 & Hx2).
        split; [lia|split].
        -- intros i. cbn [groups_in]. rewrite in_app_iff.
           intros [Hi|Hi]; [apply Hg1 in Hi|apply Hg2 in Hi]; lia.
        -- intros z d f' Hf Hz. destruct f' as [|f']; [lia|].
           rewrite p_alt_unfold, (Hx1 z d f') by first [lia|exact Hz].
           cbn [append]. rewrite E, (Hx2 z d f') by first [lia|exact Hz]. reflexivity.
      * injection H as <- <- <-. split; [exact Hle1|split; [exact Hg1|]].
        intros z d f' Hf Hz. destruct f' as [|f']; [lia|].
        rewrite p_alt_unfold, (Hx1 z d f') by first [lia|exact Hz].
        cbn [append]. now rewrite E.
  - intros s g r rest g' H. rewrite p_cat_unfold in H.
    destruct s as [|c s'].
    + injection H as <- <- <-. split; [lia|split; [intros i []|]].
      intros z d f' Hf Hz. destruct f' as [|f']; [lia|].
      rewrite p_cat_unfold. cbn [append].
      destruct z as [|c z]; [discriminate|]. injection Hz as ->. reflexivity.
    + destruct (Ascii.eqb c "|" || Ascii.eqb c ")") eqn:E.
      * injection H as <- <- <-. split; [lia|split; [intros i []|]].
        intros z d f' Hf Hz. destruct f' as [|f']; [lia|].
        rewrite p_cat_unfold. cbn [append]. now rewrite E.
      * destruct (p_piece f (String c s') g) as [[[r1 s1] g1]|] eqn:Ep; [|discriminate].
        destruct (p_cat f s1 g1) as [[[r2 s2] g2]|] eqn:Ec; [|discriminate].
        injection H as <- <- <-.
        destruct (IHp _ _ _ _ _ Ep) as (Hle1 & Hg1 & Hx1).
        destruct (IHc _ _ _ _ _ Ec) as (Hle2 & Hg2 & Hx2).
        split; [lia|split].
        -- intros i Hi. apply groups_in_cat in Hi.
           destruct Hi as [Hi|Hi]; [apply Hg1 in Hi|apply Hg2 in Hi]; lia.
        -- intros z d f' Hf Hz. destruct f' as [|f']; [lia|].
           rewrite p_cat_unfold. cbn [append]. rewrite E.
           change (String c (s' ++ z)) with (String c s' ++ z).
           rewrite (Hx1 z d f'), (Hx2 z d f') by first [lia|exact Hz].
           now rewrite shift_cat.
  - intros s g r rest g' H. rewrite p_piece_unfold in H.
    destruct s as [|a s1]; [discriminate|].
    assert (Hcap :
             match p_alt f s1 (S g) with
             | Some (r, rest, g') =>
                 match rest with
                 | String x s4 =>
                     if Ascii.eqb x ")" then then_postfix (Some (Cap g r, s4)) g' else None
                 | EmptyString => None
                 end
             | None => None
             end = Some (r, rest, g') ->
             g <= g' /\ (forall i, In i (groups_in r) -> g <= i < g')
             /\ forall z d f', f <= f' -> Str.head z = Some ")"%char ->
                               match p_alt f' (s1 ++ z) (S g + d) with
                               | Some (r, rest, g') =>
                                   match rest with
                                   | String x s4 =>
                                       if Ascii.eqb x ")"
                                       then then_postfix (Some (Cap (g + d) r, s4)) g'
                                       else None
                                   | EmptyString => None
                                   end
                               | None => None
                               end = Some (shift d r, rest ++ z, g' + d)).
    { apply (@group_ext f s1 (S g) g (Cap g) (fun d => Cap (g + d))).
      - exact IHa.
      - lia.
      - intros r1 i [Hi|Hi]; [left; now symmetry|now right].
      - lia.
      - intros r1 i Hgg. lia.
      - reflexivity. }
    destruct (Ascii.eqb a "(") eqn:E1.
    { destruct s1 as [|b s2].
      - destruct (Hcap H) as (Hle & Hg & Hx). split; [exact Hle|split; [exact Hg|]].
        intros z d f' Hf Hz. destruct f' as [|f']; [lia|].
        rewrite p_piece_unfold. cbn [append]. rewrite E1.
        specialize (Hx z d f' ltac:(lia) Hz). cbn [append] in Hx.
        destruct z as [|c z]; [discriminate|]. injection Hz as ->.
        exact Hx.
      - destruct (Ascii.eqb b "?") eqn:E2.
        + destruct s2 as [|c s3]; [discriminate|].
          destruct (Ascii.eqb c ":") eqn:E3; [|discriminate].
          destruct (@group_ext f s3 g g (fun r => r) (fun _ r => r) r rest g' IHa
                               (le_n g) (fun r1 i Hi => or_intror Hi) (le_S _ _ (le_n g))
                               (fun r1 i _ Hi => Hi) (fun d r1 => eq_refl) H)
            as (Hle & Hg & Hx).
          split; [exact Hle|split; [exact Hg|]].
          intros z d f' Hf Hz. destruct f' as [|f']; [lia|].
          rewrite p_piece_unfold. cbn [append]. rewrite E1, E2, E3.
          exact (Hx z d f' ltac:(lia) Hz).
        + destruct (Hcap H) as (Hle & Hg & Hx). split; [exact Hle|split; [exact Hg|]].
          intros z d f' Hf Hz. destruct f' as [|f']; [lia|].
          rewrite p_piece_unfold. cbn [append]. rewrite E1, E2.
          exact (Hx z d f' ltac:(lia) Hz). }
    clear Hcap.
    assert (Hatom : forall x,
               then_postfix x g = Some (r, rest, g') ->
               forall y : string -> option (regex * string),
                 (forall r0 s0, x = Some (r0, s0) ->
                                groups_in r0 = [] /\ (forall d, shift d r0 = r0)
                                /\ forall z, y z = Some (r0, s0 ++ z)) ->
                 g <= g' /\ (forall i, In i (groups_in r) -> g <= i < g')
                 /\ forall z d, Str.head z = Some ")"%char ->
                                then_postfix (y z) (g + d)
                                = Some (shift d r, rest ++ z, g' + d)).
    { intros [[r0 s0]|] Hx y Hy; [|discriminate].
      destruct (Hy _ _ eq_refl) as (Hnil & Hsh & Hyz).
      destruct (@atom_ext r0 s0 g r rest g' Hx Hnil Hsh) as (Hle & Hg & Hext).
      split; [exact Hle|split; [exact Hg|]].
      intros z d Hz. rewrite Hyz. now apply Hext. }
    destruct (Ascii.eqb a "[") eqn:E2.
    { destruct (Hatom _ H (fun z => bracket (s1 ++ z))) as (Hle & Hg & Hx).
      { intros r0 s0 Hb. destruct (@bracket_ext s1 "" r0 s0 Hb) as (_ & Hnil & Hsh).
        split; [exact Hnil|split; [exact Hsh|]].
        intros z. now destruct (@bracket_ext s1 z r0 s0 Hb). }
      split; [exact Hle|split; [exact Hg|]].
      intros z d f' Hf Hz. destruct f' as [|f']; [lia|].
      rewrite p_piece_unfold. cbn [append]. rewrite E1, E2. now apply Hx. }
    destruct (Ascii.eqb a "\") eqn:E3.
    { destruct (Hatom _ H (fun z => escape (s1 ++ z))) as (Hle & Hg & Hx).
      { intros r0 s0 Hb. destruct (@escape_ext s1 "" r0 s0 Hb) as (_ & Hnil & Hsh).
        split; [exact Hnil|split; [exact Hsh|]].
        intros z. now destruct (@escape_ext s1 z r0 s0 Hb). }
      split; [exact Hle|split; [exact Hg|]].
      intros z d f' Hf Hz. destruct f' as [|f']; [lia|].
      rewrite p_piece_unfold. cbn [append]. rewrite E1, E2, E3. now apply Hx. }
    assert (Hplain : forall r0,
               groups_in r0 = [] -> (forall d, shift d r0 = r0) ->
               then_postfix (Some (r0, s1)) g = Some (r, rest, g') ->
               g <= g' /\ (forall i, In i (groups_in r) -> g <= i < g')
               /\ forall z d, Str.head z = Some ")"%char ->
                              then_postfix (Some (r0, s1 ++ z)) (g + d)
                              = Some (shift d r, rest ++ z, g' + d)).
    { intros r0 Hnil Hsh Hx. exact (@atom_ext r0 s1 g r rest g' Hx Hnil Hsh). }
    destruct (Ascii.eqb a ".") eqn:E4.
    { destruct (Hplain (Set_ true (one "010"%char)) eq_refl (fun _ => eq_refl) H) as (Hle & Hg & Hx).
      split; [exact Hle|split; [exact Hg|]].
      intros z d f' Hf Hz. destruct f' as [|f']; [lia|].
      rewrite p_piece_unfold. cbn [append]. rewrite E1, E2, E3, E4. now apply Hx. }
    destruct (Ascii.eqb a "^") eqn:E5.
    { destruct (Hplain Bol eq_refl (fun _ => eq_refl) H) as (Hle & Hg & Hx).
      split; [exact Hle|split; [exact Hg|]].
      intros z d f' Hf Hz. destruct f' as [|f']; [lia|].
      rewrite p_piece_unfold. cbn [append]. rewrite E1, E2, E3, E4, E5. now apply Hx. }
    destruct (Ascii.eqb a "$") eqn:E6.
    { destruct (Hplain Eol eq_refl (fun _ => eq_refl) H) as (Hle & Hg & Hx).
      split; [exact Hle|split; [exact Hg|]].
      intros z d f' Hf Hz. destruct f' as [|f']; [lia|].
      rewrite p_piece_unfold. cbn [append]. rewrite E1, E2, E3, E4, E5, E6. now apply Hx. }
    destruct (Ascii.eqb a "*" || Ascii.eqb a "+" || Ascii.eqb a "?") eqn:E7; [discriminate|].
    destruct (Hplain (Lit a) eq_refl (fun _ => eq_refl) H) as (Hle & Hg & Hx).
    split; [exact Hle|split; [exact Hg|]].
    intros z d f' Hf Hz. destruct f' as [|f']; [lia|].
    rewrite p_piece_unfold. cbn [append]. rewrite E1, E2, E3, E4, E5, E6, E7. now apply Hx.
Qed.

End ParseFacts.

(** ** The combined expression of registered routes *)

Section Combined.
Import Regexp StrFacts CompileFacts ClassFacts ParseFacts.

Lemma Compile_parse (expr : string) (re : Regexp.t) :
  Compile expr = Some re ->
  p_alt (4 * String.length expr + 4) expr 1 = Some (prog re, "", S (numSubexp re))
  /\ forall i, In i (groups_in (prog re)) -> 1 <= i.
Proof.
  unfold Compile.
  destruct (p_alt (4 * String.length expr + 4) expr 1) as [[[r rest] g]|] eqn:E;
    [|discriminate].
  destruct rest; [|discriminate]. intros [= <-]. cbn [prog numSubexp].
  destruct (proj1 (parse_ext _) _ _ _ _ _ E) as (Hle & Hg & _).
  split.
  - f_equal. f_equal. lia.
  - intros i Hi. apply Hg in Hi. lia.
Qed.

Lemma question_mark_first (s : string) : Compile (String "?" s) = None.
Proof.
  unfold Compile.
  replace (4 * String.length (String "?" s) + 4)
    with (S (S (S (4 * String.length (String "?" s) + 1)))) by lia.
  reflexivity.
Qed.

Lemma compiled_head (expr : string) (re : Regexp.t) (tail : string) :
  Compile expr = Some re ->
  Str.head (expr ++ String ")" tail) <> Some "?"%char.
Proof.
  destruct expr as [|a expr]; [discriminate|].
  intros H [= ->]. now rewrite question_mark_first in H.
Qed.

Lemma p_piece_capture f (s1 : string) (g : nat) :
  Str.head s1 <> Some "?"%char ->
  p_piece (S f) (String "(" s1) g
  = match p_alt f s1 (S g) with
    | Some (r, rest, g') =>
        match rest with
        | String x s4 =>
            if Ascii.eqb x ")" then then_postfix (Some (Cap g r, s4)) g' else None
        | EmptyString => None
        end
    | None => None
    end.
Proof.
  intros Hhead. rewrite p_piece_unfold. cbn [Ascii.eqb Bool.eqb].
  destruct s1 as [|b s2]; [reflexivity|].
  destruct (Ascii.eqb b "?") eqn:E; [|reflexivity].
  apply Ascii.eqb_eq in E. subst b. now elim Hhead.
Qed.

(** One route in its group, before [|] or [)]. *)
Lemma route_group_parse (expr : string) (re : Regexp.t) (tail : string) (f g : nat) :
  Compile expr = Some re ->
  4 * String.length expr + 7 <= f ->
  Str.head tail = Some "|"%char \/ Str.head tail = Some ")"%char ->
  p_cat f ("(" ++ expr ++ ")" ++ tail) g
  = Some (Cap g (shift g (prog re)), tail, g + 1 + numSubexp re).
Proof.
  intros Hre Hf Htail.
  destruct (@Compile_parse expr re Hre) as [Hparse _].
  destruct (proj1 (parse_ext _) _ _ _ _ _ Hparse) as (_ & _ & Hx).
  destruct f as [|[|[|f]]]; try lia.
  rewrite p_cat_unfold. cbn [append Ascii.eqb Bool.eqb orb].
  rewrite p_piece_capture by exact (@compiled_head expr re tail Hre).
  change (S g) with (1 + g).
  rewrite (Hx (String ")" tail) g (S f)) by first [lia|reflexivity].
  cbn [append Ascii.eqb Bool.eqb]. unfold then_postfix.
  rewrite postfix_none by tauto.
  rewrite p_cat_unfold.
  replace (S (numSubexp re) + g) with (g + 1 + numSubexp re) by lia.
  destruct tail as [|c tail]; [destruct Htail; discriminate|].
  destruct Htail as [[= ->]|[= ->]]; reflexivity.
Qed.

Lemma route_regs_slots (rts : list route) :
  route_regs (None :: slots_of rts) = map (fun rt => "(" ++ reg rt ++ ")") rts.
Proof.
  assert (Hnone : forall n l, route_regs (repeat None n ++ l)%list = route_regs l).
  { induction n as [|n IH]; intros l; [reflexivity|]. apply IH. }
  change (route_regs (None :: slots_of rts)) with (route_regs (slots_of rts)).
  induction rts as [|rt rts IH]; [reflexivity|].
  cbn [slots_of flat_map map]. fold (slots_of rts).
  cbn [route_regs flat_map app]. fold (route_regs (repeat None (length (params rt)) ++ slots_of rts)%list).
  now rewrite Hnone, IH.
Qed.

Lemma slots_of_cons (rt : route) (rts : list route) :
  slots_of (rt :: rts)
  = ((Some rt :: repeat None (length (params rt))) ++ slots_of rts)%list.
Proof. reflexivity. Qed.

Lemma slots_of_length (rt : route) (rts : list route) :
  length (slots_of (rt :: rts)) = 1 + length (params rt) + length (slots_of rts).
Proof.
  rewrite slots_of_cons, length_app. cbn [length]. now rewrite repeat_length.
Qed.

(** The alternatives, one route after the other. *)
Lemma alternatives_parse (rts : list route) :
  rts <> [] ->
  Forall (fun rt => exists re, Compile (reg rt) = Some re
                               /\ numSubexp re = length (params rt)) rts ->
  forall (tail : string) (f g : nat),
    4 * String.length (Str.join "|" (map (fun rt => "(" ++ reg rt ++ ")") rts)) <= f ->
    p_alt f (Str.join "|" (map (fun rt => "(" ++ reg rt ++ ")") rts) ++ String ")" tail) g
    = Some (selector_chain (selectors rts g), String ")" tail, g + length (slots_of rts)).
Proof.
  set (wrap := fun rt : route => "(" ++ reg rt ++ ")").
  induction rts as [|rt rts IH]; [intros H; now elim H|].
  intros _ Hall tail f g Hf.
  apply Forall_cons_iff in Hall. destruct Hall as [(re & Hre & Hn) Hall].
  rewrite slots_of_length. cbn [selectors]. rewrite Hre.
  destruct rts as [|rt2 rts].
  - cbn [map Str.join selector_chain slots_of flat_map length] in *.
    change (wrap rt) with ("(" ++ reg rt ++ ")") in *.
    rewrite !length_append in Hf. cbn [String.length] in Hf.
    destruct f as [|f]; [lia|].
    rewrite p_alt_unfold, !append_assoc.
    rewrite (@route_group_parse (reg rt) re (String ")" tail) f g Hre)
      by first [lia|now right].
    cbn [Ascii.eqb Bool.eqb]. rewrite Hn. f_equal. f_equal. lia.
  - remember (rt2 :: rts) as rts' eqn:Hrts'.
    assert (Hjoin : Str.join "|" (map wrap (rt :: rts'))
                    = ("(" ++ reg rt ++ ")") ++ "|" ++ Str.join "|" (map wrap rts')).
    { now rewrite Hrts'. }
    rewrite Hjoin in *. clear Hjoin.
    rewrite !length_append in Hf. cbn [String.length] in Hf.
    destruct f as [|f]; [lia|].
    rewrite p_alt_unfold, !append_assoc.
    rewrite (@route_group_parse (reg rt) re _ f g Hre) by first [lia|now left].
    cbn [append Ascii.eqb Bool.eqb].
    rewrite (IH ltac:(rewrite Hrts'; discriminate) Hall tail f (g + 1 + numSubexp re))
      by lia.
    rewrite Hn. f_equal. f_equal; [|lia].
    f_equal. rewrite Hrts'. cbn [selectors selector_chain]. reflexivity.
Qed.

(** Between the anchors. *)
Lemma anchored_parse (body : string) (chain : regex) (f g : nat) :
  p_alt f (body ++ ")$") 1 = Some (chain, ")$", g) ->
  p_alt (S (S (S (S f)))) ("^(?:" ++ body ++ ")$") 1
  = Some (Cat Bol (Cat chain Eol), "", g).
Proof.
  intros H. destruct f as [|f]; [discriminate|].
  rewrite p_alt_unfold, p_cat_unfold. cbn [append Ascii.eqb Bool.eqb orb].
  rewrite p_piece_unfold. cbn [Ascii.eqb Bool.eqb orb then_postfix postfix].
  rewrite p_cat_unfold. cbn [Ascii.eqb Bool.eqb orb].
  rewrite p_piece_unfold. cbn [Ascii.eqb Bool.eqb orb].
  rewrite H. cbn [Ascii.eqb Bool.eqb orb then_postfix postfix].
  rewrite p_cat_unfold. cbn [Ascii.eqb Bool.eqb orb].
  rewrite p_piece_unfold. cbn [Ascii.eqb Bool.eqb orb then_postfix postfix].
  rewrite p_cat_unfold. reflexivity.
Qed.

Lemma compiles_intro (expr : string) (n : nat) :
  match Compile expr with
  | Some re => numSubexp re =? n
  | None => false
  end = true ->
  exists re, Compile expr = Some re /\ numSubexp re = n.
Proof.
  destruct (Compile expr) as [re|]; [|discriminate].
  intros H. apply Nat.eqb_eq in H. now exists re.
Qed.

(** Where the groups of the alternatives are, and what is in the slots
    with their numbers. *)
Lemma selectors_slots (rts : list route) :
  Forall (fun rt => exists re, Compile (reg rt) = Some re
                               /\ numSubexp re = length (params rt)) rts ->
  forall (g : nat) (pre : list (option route)),
    length pre = g ->
    Forall (fun e =>
              (g <= fst e < g + length (slots_of rts))
              /\ Forall (fun i => fst e < i) (groups_in (snd e))
              /\ exists rt, nth_error (pre ++ slots_of rts)%list (fst e) = Some (Some rt))
           (selectors rts g).
Proof.
  induction rts as [|rt rts IH]; intros Hall g pre Hpre; [constructor|].
  apply Forall_cons_iff in Hall. destruct Hall as [(re & Hre & Hn) Hall].
  cbn [selectors]. rewrite Hre. constructor.
  - cbn [fst snd]. rewrite slots_of_length. split; [lia|]. split.
    + rewrite groups_in_shift. apply Forall_forall. intros i Hi.
      apply in_map_iff in Hi. destruct Hi as (j & <- & Hj).
      apply (proj2 (@Compile_parse (reg rt) re Hre)) in Hj. lia.
    + exists rt. rewrite slots_of_cons, nth_error_app2 by lia.
      now replace (g - length pre) with 0 by lia.
  - specialize (IH Hall (g + 1 + length (params rt))
                   (pre ++ Some rt :: repeat None (length (params rt)))%list).
    rewrite length_app in IH. cbn [length] in IH. rewrite repeat_length in IH.
    specialize (IH ltac:(lia)).
    rewrite slots_of_length, slots_of_cons.
    eapply Forall_impl; [|exact IH].
    intros e (Hrange & Hgroups & rt' & Hrt'). split; [lia|]. split; [exact Hgroups|].
    exists rt'. rewrite <- Hrt'. f_equal. now rewrite <- app_assoc.
Qed.

End Combined.


